(** * osgterrain: the master-file reload operation, the key handlers
      and the arguments of [main]

    A shallow embedding of [examples/osgterrain/osgterrain.cpp].

    - [std::set<std::string>] is a [gset string] and
      [std::map<std::string, osg::ref_ptr<osg::Node> >] a [gmap string Node];
      every loop that walks one of them walks it in the order a C++ ordered
      container iterates, that is by increasing key.
    - A node is known by its identity (the address a [ref_ptr] holds); a null
      pointer is [None].
    - What the engine provides (scene group, field reader, geometry technique,
      key-switch manipulator) is an interface, a type class whose operations
      the example calls.
    - The threads of the example (operation thread, main loop, compile
      graphics threads) are a labelled transition system over the shared
      [MasterOperation] members, the scene and the operation queues.
    - The command line is what the loops of [main] recognise on it, in
      order, with the values [arguments.read] parses; a [float] is the
      [double] that holds its value. *)

From Stdlib Require Import ZArith String Ascii PrimFloat SpecFloat FloatOps.
From stdpp Require Import gmap strings list fin_maps sorting relations.

#[local] Set Warnings "-clear-no-such-hyp".

Local Open Scope list_scope.

(** ** Ordered containers *)

(** The identity of an [osg::Node]. *)
Definition Node : Type := nat.

Abbreviation Files := (gset string).
Abbreviation FilenameNodeMap := (gmap string Node).

(** [for (Files::iterator itr = files.begin(); itr != files.end(); ++itr)]:
    the elements by increasing value. *)
Definition files_in_order (files : Files) : list string :=
  merge_sort String.le (elements files).

Definition key_le (a b : string * Node) : Prop := String.le a.1 b.1.

#[global] Instance key_le_dec : RelDecision key_le.
Proof. intros a b. unfold key_le. apply _. Defined.

(** [for (FilenameNodeMap::iterator itr = m.begin(); ...)]: the entries by
    increasing key. *)
Definition entries_in_order (m : FilenameNodeMap) : list (string * Node) :=
  merge_sort key_le (map_to_list m).

(** ** MasterOperation::readMasterFile *)

(** The fields an [osgDB::Input] hands out, as far as [matchSequence] looks
    at them. *)
Class FieldOps (Field : Type) := {
  getStr : Field → string;
  matchWord : Field → string → bool;
  isQuotedString : Field → bool;
  isWord : Field → bool
}.

(** [fr.matchSequence("file %s")] and [fr.matchSequence("file %w")] on the
    two fields at the head of the reader. *)
Definition matchSequence_file_s {Field : Type} {field_ops : FieldOps Field}
    (f0 f1 : Field) : bool :=
  matchWord f0 "file" && isQuotedString f1.

Definition matchSequence_file_w {Field : Type} {field_ops : FieldOps Field}
    (f0 f1 : Field) : bool :=
  matchWord f0 "file" && isWord f1.

(** The [while(!fr.eof())] loop.  [fr] is what is left of the input;
    [readFilename] is the local of that name.  With one field left no
    two-field sequence matches and [++fr] reaches the end. *)
Fixpoint read_fields {Field : Type} {field_ops : FieldOps Field}
    (fr : list Field) (files : Files) (readFilename : bool) : Files * bool :=
  match fr with
  | [] => (files, readFilename)
  | f0 :: fr1 =>
      match fr1 with
      | f1 :: fr2 =>
          if matchSequence_file_s f0 f1 || matchSequence_file_w f0 f1
          then read_fields fr2 ({[ getStr f1 ]} ∪ files) true
          else read_fields fr1 files readFilename
      | [] => read_fields fr1 files readFilename
      end
  end.

(** [fin] is the content of the file named [_filename], [None] when the
    stream cannot be opened.  [bool readFilename;] has no initialiser:
    [indeterminate] is the value the local happens to hold. *)
Definition readMasterFile {Field : Type} {field_ops : FieldOps Field}
    (indeterminate : bool) (fin : option (list Field)) (files : Files)
    : bool * Files :=
  match fin with
  | Some fr =>
      let '(files', readFilename) := read_fields fr files indeterminate in
      (readFilename, files')
  | None => (false, files)
  end.

(** How many [file] entries the loop takes from the input. *)
Fixpoint parsed_entries {Field : Type} {field_ops : FieldOps Field}
    (fr : list Field) : list string :=
  match fr with
  | [] => []
  | f0 :: fr1 =>
      match fr1 with
      | f1 :: fr2 =>
          if matchSequence_file_s f0 f1 || matchSequence_file_w f0 f1
          then getStr f1 :: parsed_entries fr2
          else parsed_entries fr1
      | [] => parsed_entries fr1
      end
  end.

(** ** FilterHandler::handle *)

Inductive EventType :=
  | NONE | PUSH | RELEASE | DOUBLECLICK | DRAG | MOVE
  | KEYDOWN | KEYUP | FRAME | RESIZE | SCROLL.

#[global] Instance EventType_eq_dec : EqDecision EventType.
Proof. solve_decision. Defined.

Record GUIEventAdapter := {
  getEventType : EventType;
  getKey : Z
}.

Inductive FilterType := GAUSSIAN | SMOOTH | SHARPEN.

(** [osgTerrain::GeometryTechnique] as the handler uses it.  The getters
    give the stored value as the [double] the arithmetic is done in; the
    setters take that [double]. *)
Class GeometryTechnique (T : Type) := {
  setFilterMatrixAs : FilterType → T → T;
  getFilterWidth : T → float;
  setFilterWidth : float → T → T;
  getFilterBias : T → float;
  setFilterBias : float → T → T
}.

(** A character literal compared with [ea.getKey()]. *)
Definition char (c : ascii) : Z := Z.of_N (N_of_ascii c).

(** The literals [1.1] and [0.1]: the nearest doubles. *)
Definition lit_1_1 : float := 0x1.199999999999ap+0%float.
Definition lit_0_1 : float := 0x1.999999999999ap-4%float.

(** [_gt] is an [observer_ptr]: [None] once the technique is gone.  The
    result is the technique after the call and the value returned. *)
Definition handle {T : Type}
    {technique : GeometryTechnique T} (_gt : option T)
    (ea : GUIEventAdapter) : option T * bool :=
  match _gt with
  | None => (None, false)
  | Some gt =>
      match getEventType ea with
      | KEYDOWN =>
          if (getKey ea =? char "g")%Z then
            (Some (setFilterMatrixAs GAUSSIAN gt), true)
          else if (getKey ea =? char "s")%Z then
            (Some (setFilterMatrixAs SMOOTH gt), true)
          else if (getKey ea =? char "S")%Z then
            (Some (setFilterMatrixAs SHARPEN gt), true)
          else if (getKey ea =? char "+")%Z then
            (Some (setFilterWidth (getFilterWidth gt * lit_1_1)%float gt), true)
          else if (getKey ea =? char "-")%Z then
            (Some (setFilterWidth (getFilterWidth gt / lit_1_1)%float gt), true)
          else if (getKey ea =? char ">")%Z then
            (Some (setFilterBias (getFilterBias gt + lit_0_1)%float gt), true)
          else if (getKey ea =? char "<")%Z then
            (Some (setFilterBias (getFilterBias gt - lit_0_1)%float gt), true)
          else (Some gt, false)
      | _ => (Some gt, false)
      end
  end.

(** The event of pressing the key of a character. *)
Definition keydown (c : ascii) : GUIEventAdapter :=
  {| getEventType := KEYDOWN; getKey := char c |}.

(** The keys the handler reacts to. *)
Definition filter_keys : list Z :=
  [char "g"; char "s"; char "S"; char "+"; char "-"; char ">"; char "<"].

(** A technique that stores what the setters are given. *)
Record TechniqueState := {
  filterMatrix : option FilterType;
  filterWidth : float;
  filterBias : float
}.

#[global] Instance TechniqueState_ops : GeometryTechnique TechniqueState := {
  setFilterMatrixAs ft t :=
    {| filterMatrix := Some ft; filterWidth := filterWidth t;
       filterBias := filterBias t |};
  getFilterWidth := filterWidth;
  setFilterWidth w t :=
    {| filterMatrix := filterMatrix t; filterWidth := w;
       filterBias := filterBias t |};
  getFilterBias := filterBias;
  setFilterBias b t :=
    {| filterMatrix := filterMatrix t; filterWidth := filterWidth t;
       filterBias := b |}
}.

(** ** LayerHandler::handle *)

(** [osgTerrain::Layer] as the handler and [main] use it.
    [transform(offset, scale)] takes two [float]s, given as the doubles
    that hold their values. *)
Class Layer (L : Type) := {
  transform : float → float → L → L
}.

(** The conversion of a [double] to [float], and the division of two
    [float]s: binary32, rounding to nearest even. *)
Definition binary32 (sf : spec_float) : spec_float :=
  match sf with
  | S754_finite s m e => binary_round 24 128 s m e
  | _ => sf
  end.

Definition to_float (x : float) : float := SF2Prim (binary32 (Prim2SF x)).

Definition float_div (x y : float) : float :=
  SF2Prim (SFdiv 24 128 (Prim2SF x) (Prim2SF y)).

(** The literal [1.2]: the nearest double. *)
Definition lit_1_2 : float := 0x1.3333333333333p+0%float.

Module LayerHandler.

(** [_layer] is an [observer_ptr]: [None] once the layer is gone.  The
    result is the layer after the call and the value returned. *)
Definition handle {L : Type} {layer_ops : Layer L} (_layer : option L)
    (ea : GUIEventAdapter) : option L * bool :=
  match _layer with
  | None => (None, false)
  | Some layer =>
      let scale := to_float lit_1_2 in
      match getEventType ea with
      | KEYDOWN =>
          if (getKey ea =? char "q")%Z then
            (Some (transform (to_float 0) scale layer), true)
          else if (getKey ea =? char "a")%Z then
            (Some (transform (to_float 0) (float_div 1 scale) layer), true)
          else (Some layer, false)
      | _ => (Some layer, false)
      end
  end.

End LayerHandler.

(** The keys the layer handler reacts to. *)
Definition layer_keys : list Z := [char "q"; char "a"].

(** ** main: the [-p <pathfile>] arguments *)

(** [osgGA::AnimationPathManipulator(pathfile)]: [valid()] tells whether the
    path file gave an animation path. *)
Record AnimationPathManipulator := {
  apm_pathfile : string;
  valid : bool
}.

(** [osgGA::KeySwitchMatrixManipulator] as [main] uses it. *)
Class KeySwitch (K : Type) := {
  getNumMatrixManipulators : K → nat;
  addMatrixManipulator : Z → string → AnimationPathManipulator → K → K;
  selectMatrixManipulator : nat → K → K
}.

(** [++keyForAnimationPath] on a [char] of eight bits, signed or not as the
    platform has it. *)
Definition char_incr (char_is_signed : bool) (c : Z) : Z :=
  if char_is_signed then ((c + 1 + 128) mod 256 - 128)%Z
  else ((c + 1) mod 256)%Z.

(** [apm || !apm->valid()] on the pointer [new] returned: with [apm]
    non-null the right operand is not evaluated; with a null [apm] it would
    dereference null and has no value. *)
Definition path_guard (apm : option AnimationPathManipulator) : option bool :=
  match apm with
  | Some _ => Some true
  | None => None
  end.

(** The [while (arguments.read("-p",pathfile))] loop over the path files the
    command line gives, in order.  [path_valid] is what loading each file
    yields. *)
Fixpoint path_arguments {K : Type} {keyswitch : KeySwitch K}
    (char_is_signed : bool)
    (path_valid : string → bool) (pathfiles : list string)
    (keyswitchManipulator : K) (keyForAnimationPath : Z) : K * Z :=
  match pathfiles with
  | [] => (keyswitchManipulator, keyForAnimationPath)
  | pathfile :: rest =>
      let apm :=
        {| apm_pathfile := pathfile; valid := path_valid pathfile |} in
      match path_guard (Some apm) with
      | Some true =>
          let num := getNumMatrixManipulators keyswitchManipulator in
          let ks1 :=
            addMatrixManipulator keyForAnimationPath "Path" apm
              keyswitchManipulator in
          let ks2 := selectMatrixManipulator num ks1 in
          path_arguments char_is_signed path_valid rest ks2
            (char_incr char_is_signed keyForAnimationPath)
      | _ =>
          path_arguments char_is_signed path_valid rest keyswitchManipulator
            keyForAnimationPath
      end
  end.

(** A key switch that records the calls made on it and counts the
    manipulators it was given. *)
Inductive KeySwitchCall :=
  | AddMatrixManipulator (key : Z) (name : string)
      (apm : AnimationPathManipulator)
  | SelectMatrixManipulator (num : nat).

Record KeySwitchCalls := {
  numMatrixManipulators : nat;
  calls : list KeySwitchCall
}.

#[global] Instance KeySwitchCalls_ops : KeySwitch KeySwitchCalls := {
  getNumMatrixManipulators := numMatrixManipulators;
  addMatrixManipulator key name apm ks :=
    {| numMatrixManipulators := S (numMatrixManipulators ks);
       calls := calls ks ++ [AddMatrixManipulator key name apm] |};
  selectMatrixManipulator num ks :=
    {| numMatrixManipulators := numMatrixManipulators ks;
       calls := calls ks ++ [SelectMatrixManipulator num] |}
}.

(** ** MasterOperation: the members and the sequential code *)

(** [osg::Group] as the operation uses it. *)
Class SceneGroup (G : Type) := {
  addChild : Node → G → G;
  removeChild : Node → G → G
}.

(** The three containers of [MasterOperation].  Its other members are kept
    where the threads need them, in [System]: [_mutex] and [_barrier] are
    fields there, and [_updatesMergedBlock] is the place [InBlock] of the
    operation thread; [_filename] is set by the constructor alone, and the
    content of that file is what each read is given. *)
Record MasterOperation := {
  _existingFilenameNodeMap : FilenameNodeMap;
  _nodesToRemove : Files;
  _nodesToAdd : FilenameNodeMap
}.

Definition new_MasterOperation : MasterOperation :=
  {| _existingFilenameNodeMap := ∅; _nodesToRemove := ∅; _nodesToAdd := ∅ |}.

(** The body of the loop of [open]: [readNodeFile] is what
    [osgDB::readNodeFile] returns for each name, [None] for null. *)
Definition open_file {G : Type} {scene_group : SceneGroup G}
    (readNodeFile : string → option Node)
    (st : G * FilenameNodeMap) (f : string) : G * FilenameNodeMap :=
  match readNodeFile f with
  | Some model => (addChild model st.1, <[f := model]> st.2)
  | None => st
  end.

(** [MasterOperation::open(group)]: the group and the operation afterwards
    (the function itself returns [true]). *)
Definition open {Field : Type} {field_ops : FieldOps Field}
    {G : Type} {scene_group : SceneGroup G} (indeterminate : bool)
    (fin : option (list Field)) (readNodeFile : string → option Node)
    (group : G) (mo : MasterOperation) : G * MasterOperation :=
  let files := (readMasterFile indeterminate fin ∅).2 in
  let '(group', existing) :=
    foldl (open_file readNodeFile) (group, _existingFilenameNodeMap mo)
      (files_in_order files) in
  (group',
   {| _existingFilenameNodeMap := existing;
      _nodesToRemove := _nodesToRemove mo;
      _nodesToAdd := _nodesToAdd mo |}).

(** *** operator(): the diff (lines 131-154) *)

Definition find_new_files (existing : FilenameNodeMap) (files : Files)
    : Files :=
  foldl (λ newFiles fitr,
           if decide (existing !! fitr = None)
           then {[ fitr ]} ∪ newFiles else newFiles)
    ∅ (files_in_order files).

Definition find_removed_files (existing : FilenameNodeMap) (files : Files)
    : Files :=
  foldl (λ removedFiles litr,
           if decide (litr.1 ∉ files)
           then {[ litr.1 ]} ∪ removedFiles else removedFiles)
    ∅ (entries_in_order existing).

(** *** operator(): loading and compiling (lines 157-211) *)

(** A compile graphics thread is known by the id of the context that owns
    it; an [osg::BarrierOperation] by its identity. *)
Inductive Operation :=
  | GLObjectsOperation (subgraph : Node)
  | BarrierOperation (barrier : nat).

#[global] Instance Operation_eq_dec : EqDecision Operation.
Proof. solve_decision. Defined.

Abbreviation Queues := (gmap nat (list Operation)).

(** [gt->add(op)]: the operation goes to the back of the thread's queue. *)
Definition add (gt : nat) (op : Operation) (queues : Queues) : Queues :=
  <[gt := queues !!! gt ++ [op]]> queues.

(** The loop over the context ids [0 .. getMaxContextID()]:
    [compileThread i] tells whether [getCompileContext(i)] exists and has a
    graphics thread. *)
Definition compile_threads (getMaxContextID : nat)
    (compileThread : nat → bool) : list nat :=
  filter (λ i, compileThread i = true) (seq 0 (S getMaxContextID)).

Record Loading := {
  nodesToAdd : FilenameNodeMap;
  queues : Queues;
  requiresBarrier : bool;
  (** the calls of [osgDB::readNodeFile] made so far, oldest first *)
  readNodeFile_calls : list string
}.

(** The inner loop: [compileOperation] to every graphics thread. *)
Definition add_to_threads (threads : list nat) (op : Operation)
    (st : Queues * bool) : Queues * bool :=
  foldl (λ st gitr, (add gitr op st.1, true)) st threads.

(** The body of the loop over [newFiles]. *)
Definition load_file (readNodeFile : string → option Node)
    (threads : list nat) (st : Loading) (nitr : string) : Loading :=
  match readNodeFile nitr with
  | Some loadedModel =>
      let compiled :=
        add_to_threads threads (GLObjectsOperation loadedModel)
          (queues st, requiresBarrier st) in
      {| nodesToAdd := <[nitr := loadedModel]> (nodesToAdd st);
         queues := compiled.1;
         requiresBarrier := compiled.2;
         readNodeFile_calls := readNodeFile_calls st ++ [nitr] |}
  | None =>
      {| nodesToAdd := nodesToAdd st;
         queues := queues st;
         requiresBarrier := requiresBarrier st;
         readNodeFile_calls := readNodeFile_calls st ++ [nitr] |}
  end.

Definition load_new_files (readNodeFile : string → option Node)
    (threads : list nat) (newFiles : Files) (qs : Queues) : Loading :=
  foldl (load_file readNodeFile threads)
    {| nodesToAdd := ∅; queues := qs; requiresBarrier := false;
       readNodeFile_calls := [] |}
    (files_in_order newFiles).

(** The models the loop got, in the order it got them. *)
Definition loaded_models (readNodeFile : string → option Node)
    (newFiles : Files) : list Node :=
  omap readNodeFile (files_in_order newFiles).

(** The loop that hands [_barrier] to every graphics thread. *)
Definition add_barrier (threads : list nat) (barrier : nat) (qs : Queues)
    : Queues :=
  foldl (λ qs gitr, add gitr (BarrierOperation barrier) qs) qs threads.

(** *** operator(): the hand-off (lines 213-224) *)

Definition requiresBlock (removedFiles : Files)
    (nodesToAdd : FilenameNodeMap) : bool :=
  bool_decide (¬ (removedFiles = ∅)) || bool_decide (¬ (nodesToAdd = ∅)).

(** The two [swap]s: the members take the local values (the locals, which
    take the old members, go out of scope). *)
Definition hand_off (removedFiles : Files) (nodesToAdd : FilenameNodeMap)
    (mo : MasterOperation) : MasterOperation :=
  {| _existingFilenameNodeMap := _existingFilenameNodeMap mo;
     _nodesToRemove := removedFiles;
     _nodesToAdd := nodesToAdd |}.

(** *** update(scene) (lines 240-278) *)

Definition remove_file {G : Type} {scene_group : SceneGroup G}
    (st : G * FilenameNodeMap) (itr : string) : G * FilenameNodeMap :=
  match st.2 !! itr with
  | Some node => (removeChild node st.1, delete itr st.2)
  | None => st
  end.

Definition add_node {G : Type} {scene_group : SceneGroup G}
    (st : G * FilenameNodeMap) (itr : string * Node)
    : G * FilenameNodeMap :=
  (addChild itr.2 st.1, <[itr.1 := itr.2]> st.2).

(** The merge [update] does while it holds [_mutex] (lines 244-274); the
    [_updatesMergedBlock.release()] of line 276, which ends the call, is in
    the step of the main loop, [step_update]. *)
Definition update {G : Type} {scene_group : SceneGroup G} (scene : G)
    (mo : MasterOperation) : G * MasterOperation :=
  let st1 :=
    if decide (_nodesToRemove mo = ∅)
    then (scene, _existingFilenameNodeMap mo)
    else foldl remove_file (scene, _existingFilenameNodeMap mo)
           (files_in_order (_nodesToRemove mo)) in
  let st2 :=
    if decide (_nodesToAdd mo = ∅)
    then st1
    else foldl add_node st1 (entries_in_order (_nodesToAdd mo)) in
  (st2.1,
   {| _existingFilenameNodeMap := st2.2;
      _nodesToRemove := ∅;
      _nodesToAdd := ∅ |}).

(** The nodes [update] removes and the nodes it adds, in the order of the
    calls. *)
Definition removed_nodes (mo : MasterOperation) : list Node :=
  omap (λ f, _existingFilenameNodeMap mo !! f)
    (files_in_order (_nodesToRemove mo)).

Definition added_nodes (mo : MasterOperation) : list Node :=
  (entries_in_order (_nodesToAdd mo)).*2.

(** Modelled from the spec: [osg::Group] is not part of the sources.  The
    scene group is the list of its children: [addChild] appends the node,
    [removeChild] takes out its first occurrence. *)
Fixpoint remove_first (n : Node) (children : list Node) : list Node :=
  match children with
  | [] => []
  | c :: rest => if decide (c = n) then rest else c :: remove_first n rest
  end.

#[global] Instance Children_group : SceneGroup (list Node) := {
  addChild n children := children ++ [n];
  removeChild := remove_first
}.

(** ** main: the terrain layers *)

(** The arguments the layer loop takes from the command line, as
    [arguments.read(pos, ...)] recognises them, with the values it parses:
    [x y w h] are [double]s, the others [float]s.  [Arg_other] is an
    argument no [read] matches, which [++pos] steps over. *)
Inductive Argument :=
  | Arg_layer (layerNum : nat)
  | Arg_b
  | Arg_e (x y w h : float)
  | Arg_transform (offset scale : float)
  | Arg_cartesian (x y w h : float)
  | Arg_hf (filename : string)
  | Arg_elevation_image (filename : string)
  | Arg_image (filename : string)
  | Arg_filter (filterName : string)
  | Arg_tf (minValue maxValue : float)
  | Arg_other.

Inductive Locator :=
  | EllipsoidLocator (x y w h height : float)
  | CartesianLocator (x y w h height : float).

Inductive LayerData :=
  | HeightField (filename : string)
  | Image (filename : string).

(** Modelled from the spec: [osgTerrain::HeightFieldLayer] and
    [osgTerrain::ImageLayer] are not part of the sources.  A layer keeps
    what it is given: the data read from the file, the locator, the value
    of the [NoDataValue] operator, and the calls of [transform] made on it,
    oldest first.  [layer_id] is the identity of the object [new] returns:
    the number of layers [main] has made before it. *)
Record TerrainLayer := {
  layer_id : nat;
  layer_data : LayerData;
  layer_locator : Locator;
  layer_noDataValue : float;
  layer_transforms : list (float * float)
}.

#[global] Instance TerrainLayer_ops : Layer TerrainLayer := {
  transform offset scale layer :=
    {| layer_id := layer_id layer;
       layer_data := layer_data layer;
       layer_locator := layer_locator layer;
       layer_noDataValue := layer_noDataValue layer;
       layer_transforms := layer_transforms layer ++ [(offset, scale)] |}
}.

Inductive TerrainFilter := NEAREST | LINEAR.

(** [osg::TransferFunction1D]: the input range and the colours set. *)
Record TransferFunction1D := {
  inputRange : float * float;
  colours : list (float * float * float * float)
}.

(** Modelled from the spec: [osgTerrain::TerrainNode] is not part of the
    sources.  The terrain keeps what its setters are given, and its getters
    return it. *)
Record TerrainNode := {
  treatBoundariesToValidDataAsDefaultValue : bool;
  elevationLayer : option TerrainLayer;
  colorLayers : gmap nat TerrainLayer;
  colorFilters : gmap nat TerrainFilter;
  colorTransferFunctions : gmap nat TransferFunction1D
}.

Definition new_TerrainNode : TerrainNode :=
  {| treatBoundariesToValidDataAsDefaultValue := false;
     elevationLayer := None;
     colorLayers := ∅;
     colorFilters := ∅;
     colorTransferFunctions := ∅ |}.

Definition setTreatBoundariesToValidDataAsDefaultValue (b : bool)
    (t : TerrainNode) : TerrainNode :=
  {| treatBoundariesToValidDataAsDefaultValue := b;
     elevationLayer := elevationLayer t;
     colorLayers := colorLayers t;
     colorFilters := colorFilters t;
     colorTransferFunctions := colorTransferFunctions t |}.

Definition setElevationLayer (layer : TerrainLayer) (t : TerrainNode)
    : TerrainNode :=
  {| treatBoundariesToValidDataAsDefaultValue :=
       treatBoundariesToValidDataAsDefaultValue t;
     elevationLayer := Some layer;
     colorLayers := colorLayers t;
     colorFilters := colorFilters t;
     colorTransferFunctions := colorTransferFunctions t |}.

Definition setColorLayer (i : nat) (layer : TerrainLayer) (t : TerrainNode)
    : TerrainNode :=
  {| treatBoundariesToValidDataAsDefaultValue :=
       treatBoundariesToValidDataAsDefaultValue t;
     elevationLayer := elevationLayer t;
     colorLayers := <[i := layer]> (colorLayers t);
     colorFilters := colorFilters t;
     colorTransferFunctions := colorTransferFunctions t |}.

Definition setColorFilter (i : nat) (colorFilter : TerrainFilter)
    (t : TerrainNode) : TerrainNode :=
  {| treatBoundariesToValidDataAsDefaultValue :=
       treatBoundariesToValidDataAsDefaultValue t;
     elevationLayer := elevationLayer t;
     colorLayers := colorLayers t;
     colorFilters := <[i := colorFilter]> (colorFilters t);
     colorTransferFunctions := colorTransferFunctions t |}.

Definition setColorTransferFunction (i : nat) (tf : TransferFunction1D)
    (t : TerrainNode) : TerrainNode :=
  {| treatBoundariesToValidDataAsDefaultValue :=
       treatBoundariesToValidDataAsDefaultValue t;
     elevationLayer := elevationLayer t;
     colorLayers := colorLayers t;
     colorFilters := colorFilters t;
     colorTransferFunctions := <[i := tf]> (colorTransferFunctions t) |}.

Definition getColorLayer (i : nat) (t : TerrainNode) : option TerrainLayer :=
  colorLayers t !! i.

(** The locals of [main] the layer loop works on.  ([x], [y], [w], [h],
    [filterName], [minValue] and [maxValue] are written by the [read] that
    matches and used by the branch it guards alone, and [readParameter] is
    never read: the values are those of the argument.)  [layersMade]
    counts the layers made so far. *)
Record LayerLoop := {
  layersMade : nat;
  terrain : TerrainNode;
  locator : Locator;
  lastAppliedLayer : option TerrainLayer;
  layerNum : nat;
  scale : float;
  offset : float
}.

(** [osg::PI]. *)
Definition PI : float := 0x1.921fb54442d18p+1%float.

(** The locals before the loop (lines 478-490). *)
Definition new_LayerLoop : LayerLoop :=
  {| layersMade := 0;
     terrain := new_TerrainNode;
     locator := EllipsoidLocator (- PI) (- PI * 0x1p-1) (2 * PI) PI 0;
     lastAppliedLayer := None;
     layerNum := 0;
     scale := 1;
     offset := 0 |}.

(** The layer a branch makes of the data it has read: a new object with
    the locator, the valid data operator, and the transform when one is
    pending. *)
Definition new_layer (data : LayerData) (st : LayerLoop) : TerrainLayer :=
  let layer :=
    {| layer_id := layersMade st;
       layer_data := data;
       layer_locator := locator st;
       layer_noDataValue := 0;
       layer_transforms := [] |} in
  if negb (offset st =? 0)%float || negb (scale st =? 1)%float
  then transform (offset st) (scale st) layer
  else layer.

(** [scale = 1.0f; offset = 0.0f;] at the end of a layer branch. *)
Definition reset_transform (st : LayerLoop) : LayerLoop :=
  {| layersMade := layersMade st;
     terrain := terrain st;
     locator := locator st;
     lastAppliedLayer := lastAppliedLayer st;
     layerNum := layerNum st;
     scale := 1;
     offset := 0 |}.

(** [terrain->set...Layer(layer); lastAppliedLayer = layer;] *)
Definition apply_layer (layer : TerrainLayer) (t : TerrainNode)
    (st : LayerLoop) : LayerLoop :=
  {| layersMade := S (layersMade st);
     terrain := t;
     locator := locator st;
     lastAppliedLayer := Some layer;
     layerNum := layerNum st;
     scale := scale st;
     offset := offset st |}.

Definition set_terrain (t : TerrainNode) (st : LayerLoop) : LayerLoop :=
  {| layersMade := layersMade st;
     terrain := t;
     locator := locator st;
     lastAppliedLayer := lastAppliedLayer st;
     layerNum := layerNum st;
     scale := scale st;
     offset := offset st |}.

Definition set_locator (l : Locator) (st : LayerLoop) : LayerLoop :=
  {| layersMade := layersMade st;
     terrain := terrain st;
     locator := l;
     lastAppliedLayer := lastAppliedLayer st;
     layerNum := layerNum st;
     scale := scale st;
     offset := offset st |}.

(** The colours [--tf] sets. *)
Definition tf_colours : list (float * float * float * float) :=
  [(1, 1, 1, 1); (1, 0, 1, 1); (1, 0, 0, 1);
   (1, 1, 0, 1); (0, 1, 1, 1); (0, 1, 0, 1)]%float.

(** One turn of the [while(pos<arguments.argc())] loop (lines 493-679).
    [readHeightFieldFile] and [readImageFile] tell whether the file gives a
    valid object. *)
Definition layer_argument (readHeightFieldFile readImageFile : string → bool)
    (st : LayerLoop) (arg : Argument) : LayerLoop :=
  match arg with
  | Arg_layer n =>
      {| layersMade := layersMade st;
         terrain := terrain st;
         locator := locator st;
         lastAppliedLayer := lastAppliedLayer st;
         layerNum := n;
         scale := scale st;
         offset := offset st |}
  | Arg_b =>
      set_terrain
        (setTreatBoundariesToValidDataAsDefaultValue true (terrain st)) st
  | Arg_e x y w h => set_locator (EllipsoidLocator x y w h 0) st
  | Arg_transform o s =>
      {| layersMade := layersMade st;
         terrain := terrain st;
         locator := locator st;
         lastAppliedLayer := lastAppliedLayer st;
         layerNum := layerNum st;
         scale := s;
         offset := o |}
  | Arg_cartesian x y w h => set_locator (CartesianLocator x y w h 0) st
  | Arg_hf filename =>
      reset_transform
        (if readHeightFieldFile filename
         then let hfl := new_layer (HeightField filename) st in
              apply_layer hfl (setElevationLayer hfl (terrain st)) st
         else st)
  | Arg_elevation_image filename =>
      reset_transform
        (if readImageFile filename
         then let imageLayer := new_layer (Image filename) st in
              apply_layer imageLayer
                (setElevationLayer imageLayer (terrain st)) st
         else st)
  | Arg_image filename =>
      reset_transform
        (if readImageFile filename
         then let imageLayer := new_layer (Image filename) st in
              apply_layer imageLayer
                (setColorLayer (layerNum st) imageLayer (terrain st)) st
         else st)
  | Arg_filter filterName =>
      if String.eqb filterName "NEAREST"
      then set_terrain (setColorFilter (layerNum st) NEAREST (terrain st)) st
      else if String.eqb filterName "LINEAR"
      then set_terrain (setColorFilter (layerNum st) LINEAR (terrain st)) st
      else st
  | Arg_tf minValue maxValue =>
      set_terrain
        (setColorTransferFunction (layerNum st)
           {| inputRange := (minValue, maxValue); colours := tf_colours |}
           (terrain st))
        st
  | Arg_other => st
  end.

(** The loop from the locals [st] on, and the whole loop. *)
Definition run_layer_arguments
    (readHeightFieldFile readImageFile : string → bool) (st : LayerLoop)
    (args : list Argument) : LayerLoop :=
  foldl (layer_argument readHeightFieldFile readImageFile) st args.

Definition layer_arguments (readHeightFieldFile readImageFile : string → bool)
    (args : list Argument) : LayerLoop :=
  run_layer_arguments readHeightFieldFile readImageFile new_LayerLoop args.

(** The arguments that read a layer, and those that set the transform. *)
Definition is_layer_argument (arg : Argument) : bool :=
  match arg with
  | Arg_hf _ | Arg_elevation_image _ | Arg_image _ => true
  | _ => false
  end.

Definition is_transform_argument (arg : Argument) : bool :=
  match arg with
  | Arg_transform _ _ => true
  | _ => false
  end.

(** [terrain->getElevationLayer() || terrain->getColorLayer(0)]
    (line 684; [terrain.valid()] holds, the pointer being set at
    line 478). *)
Definition terrain_created (t : TerrainNode) : bool :=
  bool_decide (is_Some (elevationLayer t)) ||
  bool_decide (is_Some (getColorLayer 0 t)).

(** The terrain holds the layer, as its elevation layer or as a colour
    layer. *)
Definition in_terrain (layer : TerrainLayer) (t : TerrainNode) : Prop :=
  elevationLayer t = Some layer ∨ ∃ i, getColorLayer i t = Some layer.

(** [lastAppliedLayer] is a layer of the terrain, the one made last, and
    null only when the terrain has no layer. *)
Definition layers_applied (st : LayerLoop) : Prop :=
  (∀ layer, lastAppliedLayer st = Some layer →
     in_terrain layer (terrain st) ∧ S (layer_id layer) = layersMade st) ∧
  (lastAppliedLayer st = None →
     elevationLayer (terrain st) = None ∧ colorLayers (terrain st) = ∅) ∧
  (∀ layer, in_terrain layer (terrain st) → layer_id layer < layersMade st).

(** The argument puts a layer where line 684 looks for one. *)
Definition creates_terrain (readHeightFieldFile readImageFile : string → bool)
    (st : LayerLoop) (arg : Argument) : Prop :=
  match arg with
  | Arg_hf filename => readHeightFieldFile filename = true
  | Arg_elevation_image filename => readImageFile filename = true
  | Arg_image filename => readImageFile filename = true ∧ layerNum st = 0
  | _ => False
  end.

(** The layer number an argument sets. *)
Definition layer_number (arg : Argument) : option nat :=
  match arg with
  | Arg_layer n => Some n
  | _ => None
  end.

(** ** main: the scene, the master file and the start of the threads *)

(** What [main] has come to when the viewer is about to be realized:
    it has returned 0 at line 706, or it goes on with the scene, the handlers
    it has added for the terrain (the layer of the [LayerHandler]), the
    master operation if there is one, and the operation thread started or
    not. *)
Inductive Startup :=
  | NoModelCreated
  | SceneData (scene : list Node)
      (layerHandler : option (option TerrainLayer))
      (masterOperation : option MasterOperation) (operationThread : bool).

(** Lines 470-475 and 682-719.  [masterFiles] are the contents of the files
    the [-m] arguments name, in order; [terrainNode] is the identity of
    the terrain node. *)
Definition startup {Field : Type} {field_ops : FieldOps Field}
    (indeterminate : bool) (masterFiles : list (option (list Field)))
    (readNodeFile : string → option Node) (terrainNode : Node)
    (st : LayerLoop) : Startup :=
  let masterOperation := last masterFiles in
  let scene0 : list Node := [] in
  let '(scene1, handlers) :=
    if terrain_created (terrain st)
    then (addChild terrainNode scene0, Some (lastAppliedLayer st))
    else (scene0, None) in
  let '(scene2, mo) :=
    match masterOperation with
    | Some fin =>
        let opened :=
          open indeterminate fin readNodeFile scene1 new_MasterOperation in
        (opened.1, Some opened.2)
    | None => (scene1, None)
    end in
  if (length scene2 =? 0)%nat then NoModelCreated
  else SceneData scene2 handlers mo (bool_decide (is_Some masterOperation)).

(** ** main: the compile contexts *)

(** Lines 463-467: [n_bc] and [n_bt] are the numbers of [--bc] and [--bt]
    arguments.  The result is [createBackgroundContextForCompiling] and
    [createBackgroundThreadsForCompiling]. *)
Definition background_options (n_bc n_bt : nat) : bool * bool :=
  let createBackgroundContextForCompiling :=
    Nat.iter n_bc (λ _, true) false in
  Nat.iter n_bt (λ _, (true, true))
    (createBackgroundContextForCompiling, false).

(** The body of the loop of lines 731-743.  The state is the graphics
    threads started so far, each with the id of its context and its
    processor affinity, and [processNum], which stays an [int] as long as
    there are fewer than [2^31] contexts.  [%] is the remainder of the
    truncating division. *)
Definition setup_context (getOrCreateCompileContext : nat → bool)
    (createBackgroundThreadsForCompiling : bool) (numProcessors : Z)
    (st : list (nat * Z) * Z) (i : nat) : list (nat * Z) * Z :=
  if getOrCreateCompileContext i && createBackgroundThreadsForCompiling
  then (st.1 ++ [(i, Z.rem st.2 numProcessors)], (st.2 + 1)%Z)
  else st.

(** Lines 725-744: the graphics threads [main] starts.
    [getOrCreateCompileContext i] tells whether the call gives a context,
    and [getMaxContextID] is what the loop test finds, the same at every
    turn. *)
Definition setup_compile_contexts (options : bool * bool)
    (getMaxContextID : nat) (getOrCreateCompileContext : nat → bool)
    (numProcessors : Z) : list (nat * Z) :=
  if options.1
  then (foldl (setup_context getOrCreateCompileContext options.2
                 numProcessors)
          ([], 0%Z) (seq 0 (S getMaxContextID))).1
  else [].

(** ** The threads *)

(** Who can hold [_mutex]. *)
Inductive Thread := OperationThread | MainThread.

(** Modelled from the spec: [osg::BarrierOperation] and the graphics
    threads are not part of the sources.  The compile is synchronised by a
    barrier: a graphics thread runs the operations of its queue in order,
    one at a time; it waits in a barrier operation it runs, as the operation
    thread does in [_barrier->block()]; and the barrier lets those who wait
    go once as many have arrived as it counts. *)
Inductive Party := OperationParty | GraphicsParty (gt : nat).

#[global] Instance Party_eq_dec : EqDecision Party.
Proof. solve_decision. Defined.

Record Barrier := {
  numThreads : nat;
  arrived : list Party
}.

Definition barrier_open (b : Barrier) : Prop :=
  length (arrived b) = numThreads b.

Definition arrive (p : Party) (b : Barrier) : Barrier :=
  {| numThreads := numThreads b; arrived := arrived b ++ [p] |}.

(** Where the operation thread stands in [operator()], with the locals that
    are live there: [AtStart] before line 126, [AfterRead] at line 131,
    [DiffLocked] inside the scoped lock of lines 136-153, [AfterDiff] at
    line 158, [InBarrier] in [_barrier->block()] at line 209, [AfterLoad]
    at line 213, [SwapLocked] inside the scoped lock of lines 220-223,
    [AfterSwap] at line 228 with [requiresBlock] set, [InBlock] in
    [_updatesMergedBlock.block()] at line 230.  [threads] is kept after
    its scope ends, to name the graphics threads the cycle gave work
    to. *)
Inductive OperatorPc :=
  | AtStart
  | AfterRead (files : Files)
  | DiffLocked (files : Files)
  | AfterDiff (newFiles removedFiles : Files)
  | InBarrier (removedFiles : Files) (nodesToAdd : FilenameNodeMap)
      (threads : list nat) (barrier : nat)
  | AfterLoad (removedFiles : Files) (nodesToAdd : FilenameNodeMap)
      (threads : list nat)
  | SwapLocked (removedFiles : Files) (nodesToAdd : FilenameNodeMap)
      (threads : list nat)
  | AfterSwap
  | InBlock.

(** Where the main loop stands in [update(scene)]. *)
Inductive UpdatePc := OutsideUpdate | UpdateLocked.

Record System := {
  mo : MasterOperation;
  _mutex : option Thread;
  _barrier : option nat;
  scene : list Node;
  operatorPc : OperatorPc;
  updatePc : UpdatePc;
  (** the operation thread has been cancelled *)
  done : bool;
  threadQueues : Queues;
  (** the graphics threads that wait in a barrier *)
  inBarrier : gmap nat nat;
  barriers : gmap nat Barrier;
  (** the subgraphs each graphics thread has compiled *)
  compiled : gset (nat * Node);
  (** the nodes that exist *)
  allocated : gset Node
}.

Definition set_mo (m : MasterOperation) (s : System) : System :=
  {| mo := m; _mutex := _mutex s; _barrier := _barrier s; scene := scene s;
     operatorPc := operatorPc s; updatePc := updatePc s; done := done s;
     threadQueues := threadQueues s; inBarrier := inBarrier s;
     barriers := barriers s; compiled := compiled s;
     allocated := allocated s |}.

Definition set_mutex (m : option Thread) (s : System) : System :=
  {| mo := mo s; _mutex := m; _barrier := _barrier s; scene := scene s;
     operatorPc := operatorPc s; updatePc := updatePc s; done := done s;
     threadQueues := threadQueues s; inBarrier := inBarrier s;
     barriers := barriers s; compiled := compiled s;
     allocated := allocated s |}.

Definition set_barrier (b : option nat) (s : System) : System :=
  {| mo := mo s; _mutex := _mutex s; _barrier := b; scene := scene s;
     operatorPc := operatorPc s; updatePc := updatePc s; done := done s;
     threadQueues := threadQueues s; inBarrier := inBarrier s;
     barriers := barriers s; compiled := compiled s;
     allocated := allocated s |}.

Definition set_scene (sc : list Node) (s : System) : System :=
  {| mo := mo s; _mutex := _mutex s; _barrier := _barrier s; scene := sc;
     operatorPc := operatorPc s; updatePc := updatePc s; done := done s;
     threadQueues := threadQueues s; inBarrier := inBarrier s;
     barriers := barriers s; compiled := compiled s;
     allocated := allocated s |}.

Definition set_operatorPc (pc : OperatorPc) (s : System) : System :=
  {| mo := mo s; _mutex := _mutex s; _barrier := _barrier s; scene := scene s;
     operatorPc := pc; updatePc := updatePc s; done := done s;
     threadQueues := threadQueues s; inBarrier := inBarrier s;
     barriers := barriers s; compiled := compiled s;
     allocated := allocated s |}.

Definition set_updatePc (pc : UpdatePc) (s : System) : System :=
  {| mo := mo s; _mutex := _mutex s; _barrier := _barrier s; scene := scene s;
     operatorPc := operatorPc s; updatePc := pc; done := done s;
     threadQueues := threadQueues s; inBarrier := inBarrier s;
     barriers := barriers s; compiled := compiled s;
     allocated := allocated s |}.

Definition set_done (d : bool) (s : System) : System :=
  {| mo := mo s; _mutex := _mutex s; _barrier := _barrier s; scene := scene s;
     operatorPc := operatorPc s; updatePc := updatePc s; done := d;
     threadQueues := threadQueues s; inBarrier := inBarrier s;
     barriers := barriers s; compiled := compiled s;
     allocated := allocated s |}.

Definition set_threadQueues (qs : Queues) (s : System) : System :=
  {| mo := mo s; _mutex := _mutex s; _barrier := _barrier s; scene := scene s;
     operatorPc := operatorPc s; updatePc := updatePc s; done := done s;
     threadQueues := qs; inBarrier := inBarrier s;
     barriers := barriers s; compiled := compiled s;
     allocated := allocated s |}.

Definition set_inBarrier (w : gmap nat nat) (s : System) : System :=
  {| mo := mo s; _mutex := _mutex s; _barrier := _barrier s; scene := scene s;
     operatorPc := operatorPc s; updatePc := updatePc s; done := done s;
     threadQueues := threadQueues s; inBarrier := w;
     barriers := barriers s; compiled := compiled s;
     allocated := allocated s |}.

Definition set_barriers (bs : gmap nat Barrier) (s : System) : System :=
  {| mo := mo s; _mutex := _mutex s; _barrier := _barrier s; scene := scene s;
     operatorPc := operatorPc s; updatePc := updatePc s; done := done s;
     threadQueues := threadQueues s; inBarrier := inBarrier s;
     barriers := bs; compiled := compiled s;
     allocated := allocated s |}.

Definition set_compiled (c : gset (nat * Node)) (s : System) : System :=
  {| mo := mo s; _mutex := _mutex s; _barrier := _barrier s; scene := scene s;
     operatorPc := operatorPc s; updatePc := updatePc s; done := done s;
     threadQueues := threadQueues s; inBarrier := inBarrier s;
     barriers := barriers s; compiled := c;
     allocated := allocated s |}.

Definition set_allocated (a : gset Node) (s : System) : System :=
  {| mo := mo s; _mutex := _mutex s; _barrier := _barrier s; scene := scene s;
     operatorPc := operatorPc s; updatePc := updatePc s; done := done s;
     threadQueues := threadQueues s; inBarrier := inBarrier s;
     barriers := barriers s; compiled := compiled s;
     allocated := a |}.

(** Modelled from the spec: [OpenThreads::Block] is not part of the sources.
    The hand-off is blocking: the operation thread that waits in
    [_updatesMergedBlock.block()] goes on when [release()] is called on the
    block, and then [operator()] returns and the operation, which is kept,
    is run again. *)
Definition release_block (pc : OperatorPc) : OperatorPc :=
  match pc with
  | InBlock => AtStart
  | _ => pc
  end.

(** Modelled from the spec: [osgDB::readNodeFile] is not part of the
    sources.  Loading a file gives a node that did not exist before, and
    two files give two nodes. *)
Definition loads_new_nodes (existing_nodes : gset Node) (names : Files)
    (readNodeFile : string → option Node) : Prop :=
  (∀ f n, f ∈ names → readNodeFile f = Some n → n ∉ existing_nodes) ∧
  (∀ f g n, f ∈ names → g ∈ names →
     readNodeFile f = Some n → readNodeFile g = Some n → f = g).

Definition new_nodes (names : Files) (readNodeFile : string → option Node)
    : gset Node :=
  list_to_set (loaded_models readNodeFile names).

Inductive Label :=
  | L_read | L_lock_diff | L_diff | L_load | L_pass_barrier
  | L_yield | L_lock_swap | L_swap | L_block
  | L_lock_update | L_update
  | L_release
  | L_run (gt : nat) | L_pass (gt : nat).

Section Threads.
Context {Field : Type} {field_ops : FieldOps Field}.

(** One step of one thread.  The operation thread runs [operator()] again
    and again, the operation being kept; the main loop calls
    [update(scene)] every frame; a graphics thread takes the operation at
    the front of its queue and runs it; [release()] is what cancelling the
    operation thread calls, and a cancelled thread begins no further
    cycle.  A scoped lock is taken when [_mutex] is free, and the
    statements made under it are one step.  The master file, the compile
    contexts and the model files are what they are at the moment of the
    step. *)
Inductive step : System → Label → System → Prop :=
  | step_read s indeterminate fin :
      operatorPc s = AtStart →
      done s = false →
      step s L_read
        (set_operatorPc
           (AfterRead (readMasterFile indeterminate fin ∅).2) s)
  | step_lock_diff s files :
      operatorPc s = AfterRead files →
      _mutex s = None →
      step s L_lock_diff
        (set_operatorPc (DiffLocked files)
           (set_mutex (Some OperationThread) s))
  | step_diff s files :
      operatorPc s = DiffLocked files →
      step s L_diff
        (set_operatorPc
           (AfterDiff
              (find_new_files (_existingFilenameNodeMap (mo s)) files)
              (find_removed_files (_existingFilenameNodeMap (mo s)) files))
           (set_mutex None s))
  | step_load_nothing s removedFiles :
      operatorPc s = AfterDiff ∅ removedFiles →
      step s L_load (set_operatorPc (AfterLoad removedFiles ∅ []) s)
  | step_load s newFiles removedFiles getMaxContextID compileThread
      readNodeFile threads loading :
      operatorPc s = AfterDiff newFiles removedFiles →
      newFiles ≠ ∅ →
      loads_new_nodes (allocated s) newFiles readNodeFile →
      threads = compile_threads getMaxContextID compileThread →
      loading = load_new_files readNodeFile threads newFiles
                  (threadQueues s) →
      requiresBarrier loading = false →
      step s L_load
        (set_operatorPc (AfterLoad removedFiles (nodesToAdd loading) threads)
           (set_threadQueues (queues loading)
              (set_allocated
                 (allocated s ∪ new_nodes newFiles readNodeFile) s)))
  | step_load_barrier s newFiles removedFiles getMaxContextID compileThread
      readNodeFile threads loading barrier :
      operatorPc s = AfterDiff newFiles removedFiles →
      newFiles ≠ ∅ →
      loads_new_nodes (allocated s) newFiles readNodeFile →
      threads = compile_threads getMaxContextID compileThread →
      loading = load_new_files readNodeFile threads newFiles
                  (threadQueues s) →
      requiresBarrier loading = true →
      barriers s !! barrier = None →
      step s L_load
        (set_operatorPc
           (InBarrier removedFiles (nodesToAdd loading) threads barrier)
           (set_barrier (Some barrier)
              (set_barriers
                 (<[barrier := {| numThreads := length threads + 1;
                                  arrived := [OperationParty] |}]>
                    (barriers s))
                 (set_threadQueues
                    (add_barrier threads barrier (queues loading))
                    (set_allocated
                       (allocated s ∪ new_nodes newFiles readNodeFile)
                       s)))))
  | step_pass_barrier s removedFiles nodesToAdd threads barrier b :
      operatorPc s = InBarrier removedFiles nodesToAdd threads barrier →
      barriers s !! barrier = Some b →
      barrier_open b →
      step s L_pass_barrier
        (set_operatorPc (AfterLoad removedFiles nodesToAdd threads) s)
  | step_yield s removedFiles nodesToAdd threads :
      operatorPc s = AfterLoad removedFiles nodesToAdd threads →
      requiresBlock removedFiles nodesToAdd = false →
      step s L_yield (set_operatorPc AtStart s)
  | step_lock_swap s removedFiles nodesToAdd threads :
      operatorPc s = AfterLoad removedFiles nodesToAdd threads →
      requiresBlock removedFiles nodesToAdd = true →
      _mutex s = None →
      step s L_lock_swap
        (set_operatorPc (SwapLocked removedFiles nodesToAdd threads)
           (set_mutex (Some OperationThread) s))
  | step_swap s removedFiles nodesToAdd threads :
      operatorPc s = SwapLocked removedFiles nodesToAdd threads →
      step s L_swap
        (set_operatorPc AfterSwap
           (set_mo (hand_off removedFiles nodesToAdd (mo s))
              (set_mutex None s)))
  | step_block s :
      operatorPc s = AfterSwap →
      step s L_block (set_operatorPc InBlock s)
  | step_lock_update s :
      updatePc s = OutsideUpdate →
      _mutex s = None →
      step s L_lock_update
        (set_updatePc UpdateLocked (set_mutex (Some MainThread) s))
  | step_update s :
      updatePc s = UpdateLocked →
      step s L_update
        (set_updatePc OutsideUpdate
           (set_operatorPc (release_block (operatorPc s))
              (set_scene (update (scene s) (mo s)).1
                 (set_mo (update (scene s) (mo s)).2
                    (set_mutex None s)))))
  | step_release s :
      step s L_release
        (set_done true
           (set_operatorPc (release_block (operatorPc s))
              (set_barrier None s)))
  | step_run_compile s gt subgraph rest :
      inBarrier s !! gt = None →
      threadQueues s !!! gt = GLObjectsOperation subgraph :: rest →
      step s (L_run gt)
        (set_compiled ({[ (gt, subgraph) ]} ∪ compiled s)
           (set_threadQueues (<[gt := rest]> (threadQueues s)) s))
  | step_run_barrier s gt barrier rest b :
      inBarrier s !! gt = None →
      threadQueues s !!! gt = BarrierOperation barrier :: rest →
      barriers s !! barrier = Some b →
      step s (L_run gt)
        (set_inBarrier (<[gt := barrier]> (inBarrier s))
           (set_barriers
              (<[barrier := arrive (GraphicsParty gt) b]> (barriers s))
              (set_threadQueues (<[gt := rest]> (threadQueues s)) s)))
  | step_pass s gt barrier b :
      inBarrier s !! gt = Some barrier →
      barriers s !! barrier = Some b →
      barrier_open b →
      step s (L_pass gt) (set_inBarrier (delete gt (inBarrier s)) s).

(** The system when [main] has called [open(scene)] on a scene with the
    children [children] and has started the operation thread. *)
Inductive initial (children : list Node) : System → Prop :=
  | initial_open indeterminate fin readNodeFile :
      loads_new_nodes (list_to_set children)
        (readMasterFile indeterminate fin ∅).2 readNodeFile →
      initial children
        {| mo := (open indeterminate fin readNodeFile children
                    new_MasterOperation).2;
           _mutex := None;
           _barrier := None;
           scene := (open indeterminate fin readNodeFile children
                       new_MasterOperation).1;
           operatorPc := AtStart;
           updatePc := OutsideUpdate;
           done := false;
           threadQueues := ∅;
           inBarrier := ∅;
           barriers := ∅;
           compiled := ∅;
           allocated :=
             list_to_set children ∪
             new_nodes (readMasterFile indeterminate fin ∅).2 readNodeFile |}.

Definition steps (s s' : System) : Prop := ∃ l, step s l s'.

Definition reachable (children : list Node) (s : System) : Prop :=
  ∃ s0, initial children s0 ∧ rtc steps s0 s.

(** [files] is what some call of [readMasterFile] put into an empty set. *)
Definition read_from_master_file (files : Files) : Prop :=
  ∃ indeterminate (fin : option (list Field)),
    files = (readMasterFile indeterminate fin ∅).2.

(** The names the operation thread holds before the diff were read from the
    master file. *)
Definition files_invariant (s : System) : Prop :=
  ∀ files,
    operatorPc s = AfterRead files ∨ operatorPc s = DiffLocked files →
    read_from_master_file files.

End Threads.

(** ** What holds in every state the threads reach *)

(** The steps of the operation thread itself. *)
Definition operator_label (l : Label) : Prop :=
  match l with
  | L_read | L_lock_diff | L_diff | L_load | L_pass_barrier
  | L_yield | L_lock_swap | L_swap | L_block => True
  | _ => False
  end.

Definition operator_locked (pc : OperatorPc) : bool :=
  match pc with
  | DiffLocked _ | SwapLocked _ _ _ => true
  | _ => false
  end.

(** [_mutex] is held by the thread that is inside one of the scoped locks,
    and the two threads are never inside at once. *)
Definition mutex_invariant (s : System) : Prop :=
  _mutex s =
    (if operator_locked (operatorPc s) then Some OperationThread
     else match updatePc s with
          | UpdateLocked => Some MainThread
          | OutsideUpdate => None
          end) ∧
  (operator_locked (operatorPc s) = true → updatePc s = OutsideUpdate).

Definition pending_empty (s : System) : Prop :=
  _nodesToRemove (mo s) = ∅ ∧ _nodesToAdd (mo s) = ∅.

(** The operation thread is between its hand-off and the next cycle. *)
Definition handed_off (s : System) : Prop :=
  operatorPc s = AfterSwap ∨ operatorPc s = InBlock ∨
  (operatorPc s = AtStart ∧ done s = true).

Definition one_key_per_node (m : FilenameNodeMap) : Prop :=
  ∀ f g n, m !! f = Some n → m !! g = Some n → f = g.

(** The entries of [m] are not yet merged: their names are no keys of
    [_existingFilenameNodeMap] and their nodes no children of the scene. *)
Definition not_merged (s : System) (m : FilenameNodeMap) : Prop :=
  one_key_per_node m ∧
  ∀ f n, m !! f = Some n →
    _existingFilenameNodeMap (mo s) !! f = None ∧
    n ∈ allocated s ∧ n ∉ scene s.

Definition locals_not_merged (s : System) : Prop :=
  match operatorPc s with
  | AfterDiff newFiles _ =>
      ∀ f, f ∈ newFiles → _existingFilenameNodeMap (mo s) !! f = None
  | InBarrier _ nodesToAdd _ _
  | AfterLoad _ nodesToAdd _
  | SwapLocked _ nodesToAdd _ => not_merged s nodesToAdd
  | _ => True
  end.

(** The children [MasterOperation] added come after those the scene had,
    each once, and they are the nodes of the map. *)
Definition scene_matches_map (children : list Node) (s : System) : Prop :=
  ∃ added,
    scene s = children ++ added ∧
    NoDup added ∧
    (∀ n, n ∈ added → n ∉ children) ∧
    (∀ n, n ∈ added ↔ ∃ f, _existingFilenameNodeMap (mo s) !! f = Some n).

Definition scene_invariant (children : list Node) (s : System) : Prop :=
  scene_matches_map children s ∧
  one_key_per_node (_existingFilenameNodeMap (mo s)) ∧
  (∀ n, n ∈ scene s → n ∈ allocated s) ∧
  not_merged s (_nodesToAdd (mo s)) ∧
  locals_not_merged s ∧
  (handed_off s ∨ pending_empty s).

(** Graphics thread [gt] has compiled every node of [m]. *)
Definition compiled_on (s : System) (gt : nat) (m : FilenameNodeMap) : Prop :=
  ∀ f n, m !! f = Some n → (gt, n) ∈ compiled s.

(** Graphics thread [gt] has barrier [b] in its queue, once, and every node
    of [m] it has not compiled is queued in front of the barrier. *)
Definition before_barrier (s : System) (gt b : nat) (m : FilenameNodeMap)
    : Prop :=
  ∃ pre post,
    threadQueues s !!! gt = pre ++ BarrierOperation b :: post ∧
    (BarrierOperation b ∉ pre) ∧
    (BarrierOperation b ∉ post) ∧
    ∀ f n, m !! f = Some n →
      (gt, n) ∈ compiled s ∨ GLObjectsOperation n ∈ pre.

(** What the barrier of the cycle guarantees at each place of
    [operator()]. *)
Definition barrier_at (s : System) (pc : OperatorPc) : Prop :=
  match pc with
  | InBarrier _ nodesToAdd threads barrier =>
      NoDup threads ∧
      ∃ b, barriers s !! barrier = Some b ∧
        numThreads b = length threads + 1 ∧
        NoDup (arrived b) ∧
        (∀ p, p ∈ arrived b →
              p = OperationParty ∨ ∃ gt, p = GraphicsParty gt ∧ gt ∈ threads) ∧
        (∀ gt, gt ∈ threads →
           (GraphicsParty gt ∈ arrived b ∧ compiled_on s gt nodesToAdd ∧
            (BarrierOperation barrier ∉ threadQueues s !!! gt)) ∨
           ((GraphicsParty gt ∉ arrived b) ∧
            before_barrier s gt barrier nodesToAdd)) ∧
        (∀ gt, gt ∉ threads →
           BarrierOperation barrier ∉ threadQueues s !!! gt)
  | AfterLoad _ nodesToAdd threads
  | SwapLocked _ nodesToAdd threads =>
      ∀ gt, gt ∈ threads → compiled_on s gt nodesToAdd
  | _ => True
  end.

(** Every barrier in a queue exists. *)
Definition queued_barriers_exist (s : System) : Prop :=
  ∀ gt b, BarrierOperation b ∈ threadQueues s !!! gt →
          is_Some (barriers s !! b).

Definition barrier_invariant (s : System) : Prop :=
  queued_barriers_exist s ∧ barrier_at s (operatorPc s).

(** The names the operation thread found removed are keys of
    [_existingFilenameNodeMap], from the diff until [update] has merged
    them. *)
Definition removals_invariant (s : System) : Prop :=
  _nodesToRemove (mo s) ⊆ dom (_existingFilenameNodeMap (mo s)) ∧
  match operatorPc s with
  | AfterDiff _ removedFiles
  | InBarrier removedFiles _ _ _
  | AfterLoad removedFiles _ _
  | SwapLocked removedFiles _ _ =>
      removedFiles ⊆ dom (_existingFilenameNodeMap (mo s))
  | _ => True
  end.


(** The barrier the operation thread waits in. *)
Definition current_barrier (s : System) : option nat :=
  match operatorPc s with
  | InBarrier _ _ _ barrier => Some barrier
  | _ => None
  end.

(** A graphics thread waits in a barrier it has arrived at; a barrier other
    than the one the operation thread waits in is in no queue, and is open
    for whoever still waits in it; and the operation thread has arrived at
    the barrier it waits in. *)
Definition waiting_invariant (s : System) : Prop :=
  (∀ gt b, inBarrier s !! gt = Some b →
     ∃ B, barriers s !! b = Some B ∧ GraphicsParty gt ∈ arrived B) ∧
  (∀ b, current_barrier s ≠ Some b →
     (∀ gt, BarrierOperation b ∉ threadQueues s !!! gt) ∧
     (∀ gt B, inBarrier s !! gt = Some b → barriers s !! b = Some B →
              barrier_open B)) ∧
  (∀ b B, current_barrier s = Some b → barriers s !! b = Some B →
          OperationParty ∈ arrived B).

(** Those who have arrived at barrier [b] in [s] have arrived at it in
    [s']. *)
Definition arrivals_kept (b : nat) (s s' : System) : Prop :=
  ∀ B p, barriers s !! b = Some B → p ∈ arrived B →
    ∃ B', barriers s' !! b = Some B' ∧ p ∈ arrived B'.

(** Between [s] and [s'] only graphics threads have moved. *)
Definition graphics_threads_only (s s' : System) : Prop :=
  mo s' = mo s ∧ _mutex s' = _mutex s ∧ _barrier s' = _barrier s ∧
  scene s' = scene s ∧ operatorPc s' = operatorPc s ∧
  updatePc s' = updatePc s ∧ done s' = done s ∧ allocated s' = allocated s.

(** An input whose fields are all plain words. *)
Definition word_fields : FieldOps string :=
  {| getStr := id;
     matchWord f w := String.eqb f w;
     isQuotedString _ := false;
     isWord _ := true |}.

(** ** Runs with their labels *)

(** A run of the threads, with the labels of its steps in the order they
    were taken. *)
Inductive run {Field : Type} {field_ops : FieldOps Field}
    : System → list Label → System → Prop :=
  | run_nil s : run s [] s
  | run_cons s l s' ls s'' :
      step s l s' → run s' ls s'' → run s (l :: ls) s''.

#[global] Instance operator_label_dec (l : Label)
  : Decision (operator_label l).
Proof. destruct l; apply _. Defined.

(** The steps the operation thread can still make in [operator()] before
    it is at the start again or waits in [_updatesMergedBlock.block()], at
    most. *)
Definition steps_left (pc : OperatorPc) : nat :=
  match pc with
  | AtStart | InBlock => 0
  | AfterSwap => 1
  | SwapLocked _ _ _ => 2
  | AfterLoad _ _ _ => 3
  | InBarrier _ _ _ _ => 4
  | AfterDiff _ _ => 5
  | DiffLocked _ => 6
  | AfterRead _ => 7
  end.

(** ** A run of the threads

    The scene starts with one child, node 0.  The master file cannot be
    opened when [main] calls [open]; when the operation thread first reads
    it, it lists [b.osg], which loads as node 1. *)

Definition demo_children : list Node := [0].

Definition demo_master : option (list string) :=
  Some ["file"; "b.osg"]%string.

Definition demo_readNodeFile (f : string) : option Node :=
  if String.eqb f "b.osg" then Some 1 else None.

Definition demo_files : Files :=
  (readMasterFile (field_ops := word_fields) false demo_master ∅).2.

Definition demo_opened : System :=
  {| mo := (open (field_ops := word_fields) false None demo_readNodeFile
              demo_children new_MasterOperation).2;
     _mutex := None;
     _barrier := None;
     scene := (open (field_ops := word_fields) false None demo_readNodeFile
                 demo_children new_MasterOperation).1;
     operatorPc := AtStart;
     updatePc := OutsideUpdate;
     done := false;
     threadQueues := ∅;
     inBarrier := ∅;
     barriers := ∅;
     compiled := ∅;
     allocated :=
       list_to_set demo_children ∪
       new_nodes (readMasterFile (field_ops := word_fields) false None ∅).2
         demo_readNodeFile |}.

Definition demo_read : System :=
  set_operatorPc (AfterRead demo_files) demo_opened.

Definition demo_diff_locked : System :=
  set_operatorPc (DiffLocked demo_files)
    (set_mutex (Some OperationThread) demo_read).

Definition demo_newFiles : Files :=
  find_new_files (_existingFilenameNodeMap (mo demo_diff_locked)) demo_files.

Definition demo_removedFiles : Files :=
  find_removed_files (_existingFilenameNodeMap (mo demo_diff_locked))
    demo_files.

Definition demo_diffed : System :=
  set_operatorPc (AfterDiff demo_newFiles demo_removedFiles)
    (set_mutex None demo_diff_locked).

(** No context has a compile thread: the model is loaded and handed off
    without a barrier. *)
Definition demo_loading : Loading :=
  load_new_files demo_readNodeFile (compile_threads 0 (λ _, false))
    demo_newFiles (threadQueues demo_diffed).

Definition demo_loaded : System :=
  set_operatorPc
    (AfterLoad demo_removedFiles (nodesToAdd demo_loading)
       (compile_threads 0 (λ _, false)))
    (set_threadQueues (queues demo_loading)
       (set_allocated
          (allocated demo_diffed ∪ new_nodes demo_newFiles demo_readNodeFile)
          demo_diffed)).

Definition demo_swap_locked : System :=
  set_operatorPc
    (SwapLocked demo_removedFiles (nodesToAdd demo_loading)
       (compile_threads 0 (λ _, false)))
    (set_mutex (Some OperationThread) demo_loaded).

Definition demo_swapped : System :=
  set_operatorPc AfterSwap
    (set_mo
       (hand_off demo_removedFiles (nodesToAdd demo_loading)
          (mo demo_swap_locked))
       (set_mutex None demo_swap_locked)).

Definition demo_blocked : System := set_operatorPc InBlock demo_swapped.

Definition demo_update_locked : System :=
  set_updatePc UpdateLocked (set_mutex (Some MainThread) demo_blocked).

Definition demo_updated : System :=
  set_updatePc OutsideUpdate
    (set_operatorPc (release_block (operatorPc demo_update_locked))
       (set_scene
          (update (scene demo_update_locked) (mo demo_update_locked)).1
          (set_mo
             (update (scene demo_update_locked) (mo demo_update_locked)).2
             (set_mutex None demo_update_locked)))).

(** Context 0 has a compile thread: the model is queued for compiling and
    the operation thread waits in barrier 0. *)
Definition demo_compiling : Loading :=
  load_new_files demo_readNodeFile (compile_threads 0 (λ _, true))
    demo_newFiles (threadQueues demo_diffed).

Definition demo_in_barrier : System :=
  set_operatorPc
    (InBarrier demo_removedFiles (nodesToAdd demo_compiling)
       (compile_threads 0 (λ _, true)) 0)
    (set_barrier (Some 0)
       (set_barriers
          (<[0 := {| numThreads := length (compile_threads 0 (λ _, true)) + 1;
                     arrived := [OperationParty] |}]>
             (barriers demo_diffed))
          (set_threadQueues
             (add_barrier (compile_threads 0 (λ _, true)) 0
                (queues demo_compiling))
             (set_allocated
                (allocated demo_diffed ∪
                 new_nodes demo_newFiles demo_readNodeFile)
                demo_diffed)))).

(** Graphics thread 0 runs its queue: it compiles node 1, then runs the
    barrier operation, and the barrier, which counts two, opens. *)
Definition demo_compiled : System :=
  set_compiled ({[ (0, 1) ]} ∪ compiled demo_in_barrier)
    (set_threadQueues
       (<[0 := [BarrierOperation 0]]> (threadQueues demo_in_barrier))
       demo_in_barrier).

Definition demo_barrier : Barrier :=
  {| numThreads := length (compile_threads 0 (λ _, true)) + 1;
     arrived := [OperationParty] |}.

Definition demo_arrived : System :=
  set_inBarrier (<[0 := 0]> (inBarrier demo_compiled))
    (set_barriers
       (<[0 := arrive (GraphicsParty 0) demo_barrier]>
          (barriers demo_compiled))
       (set_threadQueues (<[0 := []]> (threadQueues demo_compiled))
          demo_compiled)).

Definition demo_after_barrier : System :=
  set_operatorPc
    (AfterLoad demo_removedFiles (nodesToAdd demo_compiling)
       (compile_threads 0 (λ _, true)))
    demo_arrived.

(** The system of the run when the operation thread has been cancelled
    right after [open]. *)
Definition demo_cancelled : System :=
  set_done true
    (set_operatorPc (release_block (operatorPc demo_opened))
       (set_barrier None demo_opened)).


(** A master operation that has merged [b.osg] as node 1. *)
Definition demo_merged : MasterOperation :=
  {| _existingFilenameNodeMap := {[ "b.osg"%string := 1 ]};
     _nodesToRemove := ∅;
     _nodesToAdd := ∅ |}.

(** * Properties *)

(** ** Walking the containers *)

Lemma files_in_order_perm (files : Files) :
  files_in_order files ≡ₚ elements files.
Proof. apply merge_sort_Permutation. Qed.

Lemma elem_of_files_in_order (files : Files) (f : string) :
  f ∈ files_in_order files ↔ f ∈ files.
Proof. rewrite files_in_order_perm. apply elem_of_elements. Qed.

Lemma NoDup_files_in_order (files : Files) : NoDup (files_in_order files).
Proof. rewrite files_in_order_perm. apply NoDup_elements. Qed.

Lemma files_in_order_empty : files_in_order ∅ = [].
Proof.
  apply Permutation_nil_r. rewrite files_in_order_perm.
  by rewrite elements_empty.
Qed.

Lemma files_in_order_sorted (files : Files) :
  Sorted String.le (files_in_order files).
Proof. apply (Sorted_merge_sort String.le). Qed.

Lemma entries_in_order_perm (m : FilenameNodeMap) :
  entries_in_order m ≡ₚ map_to_list m.
Proof. apply merge_sort_Permutation. Qed.

Lemma elem_of_entries_in_order (m : FilenameNodeMap) (f : string) (n : Node) :
  (f, n) ∈ entries_in_order m ↔ m !! f = Some n.
Proof. rewrite entries_in_order_perm. apply elem_of_map_to_list. Qed.

Lemma NoDup_entries_in_order_keys (m : FilenameNodeMap) :
  NoDup (entries_in_order m).*1.
Proof. rewrite entries_in_order_perm. apply NoDup_fst_map_to_list. Qed.

Lemma entries_in_order_empty : entries_in_order ∅ = [].
Proof.
  apply Permutation_nil_r. rewrite entries_in_order_perm.
  by rewrite map_to_list_empty.
Qed.

(** ** readMasterFile *)

Section MasterFile.
Context {Field : Type} {field_ops : FieldOps Field}.

Lemma read_fields_spec (fr : list Field) :
  ∀ (files : Files) (b : bool),
    read_fields fr files b =
      (list_to_set (parsed_entries fr) ∪ files,
       if decide (parsed_entries fr = []) then b else true).
Proof.
  cut (∀ fr' : list Field,
         (∀ files b, read_fields fr' files b =
            (list_to_set (parsed_entries fr') ∪ files,
             if decide (parsed_entries fr' = []) then b else true)) ∧
         (∀ f files b, read_fields (f :: fr') files b =
            (list_to_set (parsed_entries (f :: fr')) ∪ files,
             if decide (parsed_entries (f :: fr') = []) then b else true))).
  { intros Hboth. apply Hboth. }
  induction fr' as [|f1 fr2 [IH2 IH1]].
  - split; intros; simpl; f_equal; apply leibniz_equiv; set_solver.
  - split; [exact (IH1 f1)|].
    intros f0 files b. cbn [read_fields parsed_entries].
    destruct (matchSequence_file_s f0 f1 || matchSequence_file_w f0 f1).
    + rewrite IH2. cbn [list_to_set]. f_equal; [set_solver|].
      repeat case_decide; done.
    + apply IH1.
Qed.

(** The files of the set afterwards are the ones it held and the entries
    read. *)
Lemma readMasterFile_files (indeterminate : bool) (fr : list Field)
    (files : Files) :
  (readMasterFile indeterminate (Some fr) files).2 =
    list_to_set (parsed_entries fr) ∪ files.
Proof. unfold readMasterFile. by rewrite read_fields_spec. Qed.

(** With an entry read the result is [true]; without one it is whatever the
    local held. *)
Lemma readMasterFile_result (indeterminate : bool) (fr : list Field)
    (files : Files) :
  (readMasterFile indeterminate (Some fr) files).1 =
    if decide (parsed_entries fr = []) then indeterminate else true.
Proof. unfold readMasterFile. by rewrite read_fields_spec. Qed.

Lemma readMasterFile_not_opened (indeterminate : bool) (files : Files) :
  readMasterFile indeterminate None files = (false, files).
Proof. reflexivity. Qed.

(** C8 (the code departs from it): a master file that opens and holds no
    [file] entry, here the empty file.  No entry is parsed and [files] is
    left as it was, yet [readMasterFile] returns the value the
    uninitialised local [readFilename] holds, which can be [true]. *)
Theorem readMasterFile_no_entry_returns_uninitialised (files : Files) :
  parsed_entries ([] : list Field) = [] ∧
  (∀ indeterminate : bool,
     readMasterFile indeterminate (Some ([] : list Field)) files =
       (indeterminate, files)) ∧
  readMasterFile true (Some ([] : list Field)) files = (true, files).
Proof. repeat split. Qed.

End MasterFile.

(** ** FilterHandler::handle *)

Section FilterHandler.
Context {T : Type} {technique : GeometryTechnique T}.

Lemma handle_null (ea : GUIEventAdapter) :
  handle (None : option T) ea = (None, false).
Proof. reflexivity. Qed.

Lemma handle_other_event (gt : T) (ea : GUIEventAdapter) :
  getEventType ea ≠ KEYDOWN → handle (Some gt) ea = (Some gt, false).
Proof. unfold handle. destruct (getEventType ea); congruence. Qed.

Lemma handle_keydown (gt : T) (key : Z) :
  handle (Some gt) {| getEventType := KEYDOWN; getKey := key |} =
    if decide (key = char "g") then
      (Some (setFilterMatrixAs GAUSSIAN gt), true)
    else if decide (key = char "s") then
      (Some (setFilterMatrixAs SMOOTH gt), true)
    else if decide (key = char "S") then
      (Some (setFilterMatrixAs SHARPEN gt), true)
    else if decide (key = char "+") then
      (Some (setFilterWidth (getFilterWidth gt * lit_1_1)%float gt), true)
    else if decide (key = char "-") then
      (Some (setFilterWidth (getFilterWidth gt / lit_1_1)%float gt), true)
    else if decide (key = char ">") then
      (Some (setFilterBias (getFilterBias gt + lit_0_1)%float gt), true)
    else if decide (key = char "<") then
      (Some (setFilterBias (getFilterBias gt - lit_0_1)%float gt), true)
    else (Some gt, false).
Proof.
  unfold handle. cbn [getEventType getKey].
  repeat (case_decide as Hk;
          [rewrite Hk; reflexivity
          |apply Z.eqb_neq in Hk; rewrite Hk; clear Hk]).
  reflexivity.
Qed.

Lemma handle_true_iff (_gt : option T) (ea : GUIEventAdapter) :
  (handle _gt ea).2 = true ↔
    is_Some _gt ∧ getEventType ea = KEYDOWN ∧ getKey ea ∈ filter_keys.
Proof.
  destruct _gt as [gt|]; [|split; [done|by intros [[? [=]] _]]].
  destruct ea as [ty key].
  destruct (decide (ty = KEYDOWN)) as [->|Hty].
  - rewrite handle_keydown. cbn [getEventType getKey]. unfold filter_keys.
    repeat (case_decide;
            [subst key; split; [intros _; split; [by eexists|]|done];
             split; [done|set_solver]|]).
    cbn [snd]. split; [intros [=]|]. intros (_ & _ & Hin). set_solver.
  - rewrite handle_other_event by done. cbn [getEventType snd].
    split; [intros [=]|]. by intros (_ & ? & _).
Qed.

(** C7: with a live technique, a KEYDOWN of [g], [s] or [S] sets the filter
    matrix to GAUSSIAN, SMOOTH or SHARPEN, [+] and [-] multiply and divide
    the filter width by 1.1, [>] and [<] add 0.1 to and subtract 0.1 from
    the filter bias; 1.1 and 0.1 are the doubles [0x1.199999999999ap+0] and
    [0x1.999999999999ap-4], which are 11/10 and 1/10 rounded to the nearest
    double (they are what dividing 11 and 1 by 10 gives, and their
    mantissas are within half a unit of 11/10 and 1/10 scaled by [2^52] and
    [2^56]).  [handle] returns [true] exactly for a KEYDOWN of one of these
    seven keys, the characters 103, 115, 83, 43, 45, 62 and 60, on a live
    technique, and [false] for every other event or key and whenever the
    technique pointer is null (the technique is then left as it is). *)
Theorem FilterHandler_handle_keys (gt : T) :
  handle (Some gt) (keydown "g") =
    (Some (setFilterMatrixAs GAUSSIAN gt), true) ∧
  handle (Some gt) (keydown "s") =
    (Some (setFilterMatrixAs SMOOTH gt), true) ∧
  handle (Some gt) (keydown "S") =
    (Some (setFilterMatrixAs SHARPEN gt), true) ∧
  handle (Some gt) (keydown "+") =
    (Some (setFilterWidth
             (getFilterWidth gt * 0x1.199999999999ap+0)%float gt), true) ∧
  handle (Some gt) (keydown "-") =
    (Some (setFilterWidth
             (getFilterWidth gt / 0x1.199999999999ap+0)%float gt), true) ∧
  handle (Some gt) (keydown ">") =
    (Some (setFilterBias
             (getFilterBias gt + 0x1.999999999999ap-4)%float gt), true) ∧
  handle (Some gt) (keydown "<") =
    (Some (setFilterBias
             (getFilterBias gt - 0x1.999999999999ap-4)%float gt), true) ∧
  (11 / 10)%float = 0x1.199999999999ap+0%float ∧
  (1 / 10)%float = 0x1.999999999999ap-4%float ∧
  Prim2SF 0x1.199999999999ap+0 = S754_finite false 4953959590107546 (-52) ∧
  (Z.abs (10 * 4953959590107546 - 11 * 2 ^ 52) ≤ 5)%Z ∧
  Prim2SF 0x1.999999999999ap-4 = S754_finite false 7205759403792794 (-56) ∧
  (Z.abs (10 * 7205759403792794 - 1 * 2 ^ 56) ≤ 5)%Z ∧
  filter_keys = [103; 115; 83; 43; 45; 62; 60]%Z ∧
  (∀ (_gt : option T) ea,
     (handle _gt ea).2 = true ↔
       is_Some _gt ∧ getEventType ea = KEYDOWN ∧ getKey ea ∈ filter_keys) ∧
  (∀ ea,
     getEventType ea ≠ KEYDOWN ∨ getKey ea ∉ filter_keys →
     handle (Some gt) ea = (Some gt, false)) ∧
  (∀ ea, handle (None : option T) ea = (None, false)).
Proof.
  split_and!; try reflexivity; try (by vm_compute).
  - apply handle_true_iff.
  - intros ea Hother.
    destruct ea as [ty key]. cbn [getEventType getKey] in Hother.
    destruct (decide (ty = KEYDOWN)) as [->|Hty];
      [|by apply handle_other_event].
    destruct Hother as [?|Hkey]; [done|].
    rewrite handle_keydown. unfold filter_keys in Hkey.
    repeat (case_decide; [subst key; set_solver|]).
    reflexivity.
Qed.

End FilterHandler.

(** The literals are the doubles next to 1.1 and 0.1, and the arithmetic is
    that of doubles: on a technique that stores what it is given, [+] takes
    a width of 1.0 to 1.1 and [>] takes a bias of 0.2 to
    0.30000000000000004. *)
Example handle_plus_width :
  handle (Some {| filterMatrix := None; filterWidth := 1%float;
                  filterBias := 0%float |})
    {| getEventType := KEYDOWN; getKey := 43 |} =
  (Some {| filterMatrix := None; filterWidth := lit_1_1;
           filterBias := 0%float |}, true).
Proof. reflexivity. Qed.

Example handle_greater_bias :
  handle (Some {| filterMatrix := None; filterWidth := 1%float;
                  filterBias := 0x1.999999999999ap-3%float |})
    {| getEventType := KEYDOWN; getKey := 62 |} =
  (Some {| filterMatrix := None; filterWidth := 1%float;
           filterBias := 0x1.3333333333334p-2%float |}, true).
Proof. reflexivity. Qed.

(** ** main: the [-p <pathfile>] arguments *)

(** Two path files, the second one not valid, on a key switch that holds
    the four manipulators of [main]: both are added, under ['5'] and ['6'],
    and selected as manipulators 4 and 5. *)
Example path_arguments_two_paths :
  path_arguments false (λ pathfile, String.eqb pathfile "a.path")
    ["a.path"; "b.path"]%string
    {| numMatrixManipulators := 4; calls := [] |} (char "5") =
  ({| numMatrixManipulators := 6;
      calls :=
        [AddMatrixManipulator 53 "Path"
           {| apm_pathfile := "a.path"; valid := true |};
         SelectMatrixManipulator 4;
         AddMatrixManipulator 54 "Path"
           {| apm_pathfile := "b.path"; valid := false |};
         SelectMatrixManipulator 5] |}, 55%Z).
Proof. reflexivity. Qed.

Section PathArguments.
Context {K : Type} {keyswitch : KeySwitch K}.

Lemma path_guard_non_null (apm : AnimationPathManipulator) :
  path_guard (Some apm) = Some true.
Proof. reflexivity. Qed.

(** One more increment of a key that has been incremented before. *)
Lemma char_incr_wrapped (char_is_signed : bool) (key : Z) (i : nat) :
  char_incr char_is_signed
    (if char_is_signed
     then ((key + Z.of_nat (S i) + 128) mod 256 - 128)%Z
     else ((key + Z.of_nat (S i)) mod 256)%Z) =
  if char_is_signed
  then ((key + Z.of_nat (S (S i)) + 128) mod 256 - 128)%Z
  else ((key + Z.of_nat (S (S i))) mod 256)%Z.
Proof.
  unfold char_incr. destruct char_is_signed.
  - replace ((key + Z.of_nat (S i) + 128) mod 256 - 128 + 1 + 128)%Z
      with ((key + Z.of_nat (S i) + 128) mod 256 + 1)%Z by lia.
    rewrite Zplus_mod_idemp_l. do 2 f_equal. lia.
  - rewrite Zplus_mod_idemp_l. f_equal. lia.
Qed.

(** C10: the path file at position [i] of the command line, counting from
    0, gets a manipulator made for it whether or not the file was valid
    (the guard [apm || !apm->valid()] is true for every non-null [apm]);
    the manipulator is added under the name [Path] and the key of that
    position, which is the starting key for the first file and, for the
    others, the starting key plus [i] wrapped to the eight bits of a
    [char]; it is selected by the number of manipulators there were before
    it was added; and the key after the loop is that of the position after
    the last.  From the key ['5'] of [main], which is 53, the first 75
    files get the keys [53 + i]. *)
Theorem path_arguments_always_added (char_is_signed : bool)
    (path_valid : string → bool) (pathfiles : list string) (ks : K)
    (key : Z) :
  let key_at (i : nat) : Z :=
    match i with
    | 0 => key
    | S _ =>
        if char_is_signed
        then ((key + Z.of_nat i + 128) mod 256 - 128)%Z
        else ((key + Z.of_nat i) mod 256)%Z
    end in
  (∀ apm, path_guard (Some apm) = Some true) ∧
  path_arguments char_is_signed path_valid pathfiles ks key =
    (foldl
       (λ ks' '(i, pathfile),
          selectMatrixManipulator (getNumMatrixManipulators ks')
            (addMatrixManipulator (key_at i) "Path"
               {| apm_pathfile := pathfile; valid := path_valid pathfile |}
               ks'))
       ks (zip (seq 0 (length pathfiles)) pathfiles),
     key_at (length pathfiles)) ∧
  (key = 53%Z → ∀ i, i < 75 → key_at i = (53 + Z.of_nat i)%Z) ∧
  char "5" = 53%Z.
Proof.
  intros key_at.
  assert (Hnext : ∀ i, char_incr char_is_signed (key_at i) = key_at (S i)).
  { intros [|i]; [|apply char_incr_wrapped].
    unfold key_at, char_incr. destruct char_is_signed; do 2 f_equal; lia. }
  split_and!; [done| | |done].
  - set (add_at := λ (ks' : K) '(i, pathfile),
      selectMatrixManipulator (getNumMatrixManipulators ks')
        (addMatrixManipulator (key_at i) "Path"
           {| apm_pathfile := pathfile; valid := path_valid pathfile |}
           ks')).
    assert (Hfrom : ∀ rest ks' j,
      path_arguments char_is_signed path_valid rest ks' (key_at j) =
        (foldl add_at ks' (zip (seq j (length rest)) rest),
         key_at (j + length rest))).
    { induction rest as [|pathfile rest IH]; intros ks' j.
      - cbn [path_arguments length seq zip zip_with foldl].
        by rewrite Nat.add_0_r.
      - cbn [path_arguments length seq zip zip_with foldl].
        rewrite path_guard_non_null. cbn zeta. rewrite Hnext, IH.
        by rewrite Nat.add_succ_r. }
    apply (Hfrom pathfiles ks 0).
  - intros -> [|i] Hi; [done|]. unfold key_at.
    destruct char_is_signed; rewrite Z.mod_small; lia.
Qed.

End PathArguments.

(** ** operator(): the diff *)

Lemma elem_of_find_new_files (existing : FilenameNodeMap) (files : Files)
    (f : string) :
  f ∈ find_new_files existing files ↔ f ∈ files ∧ existing !! f = None.
Proof.
  unfold find_new_files. rewrite <- (elem_of_files_in_order files).
  generalize (files_in_order files). intros l.
  cut (∀ acc : Files,
         f ∈ foldl (λ newFiles fitr,
                      if decide (existing !! fitr = None)
                      then {[ fitr ]} ∪ newFiles else newFiles) acc l ↔
         f ∈ acc ∨ (f ∈ l ∧ existing !! f = None)).
  { intros Hacc. etrans; [apply Hacc|]. set_solver. }
  induction l as [|x l IH]; intros acc; cbn [foldl].
  - set_solver.
  - rewrite IH. case_decide; set_solver.
Qed.

Lemma find_new_files_spec (existing : FilenameNodeMap) (files : Files) :
  find_new_files existing files = files ∖ dom existing.
Proof.
  apply set_eq. intros f.
  rewrite elem_of_find_new_files, elem_of_difference, not_elem_of_dom.
  done.
Qed.

Lemma elem_of_find_removed_files (existing : FilenameNodeMap) (files : Files)
    (f : string) :
  f ∈ find_removed_files existing files ↔
    is_Some (existing !! f) ∧ f ∉ files.
Proof.
  unfold find_removed_files.
  assert (Hentries : is_Some (existing !! f) ↔
                     ∃ n, (f, n) ∈ entries_in_order existing).
  { unfold is_Some. by setoid_rewrite elem_of_entries_in_order. }
  rewrite Hentries. generalize (entries_in_order existing). intros l.
  cut (∀ acc : Files,
         f ∈ foldl (λ removedFiles (litr : string * Node),
                      if decide (litr.1 ∉ files)
                      then {[ litr.1 ]} ∪ removedFiles else removedFiles)
               acc l ↔
         f ∈ acc ∨ ((∃ n, (f, n) ∈ l) ∧ f ∉ files)).
  { intros Hacc. etrans; [apply Hacc|]. set_solver. }
  induction l as [|[k n] l IH]; intros acc; cbn [foldl].
  - set_solver.
  - rewrite IH. cbn [fst]. case_decide; set_unfold; naive_solver.
Qed.

Lemma find_removed_files_spec (existing : FilenameNodeMap) (files : Files) :
  find_removed_files existing files = dom existing ∖ files.
Proof.
  apply set_eq. intros f.
  rewrite elem_of_find_removed_files, elem_of_difference, elem_of_dom.
  done.
Qed.

(** ** operator(): loading and compiling *)

Lemma elem_of_compile_threads (getMaxContextID : nat)
    (compileThread : nat → bool) (gt : nat) :
  gt ∈ compile_threads getMaxContextID compileThread ↔
    gt ≤ getMaxContextID ∧ compileThread gt = true.
Proof.
  unfold compile_threads. rewrite list_elem_of_filter, elem_of_seq.
  intuition lia.
Qed.

Lemma NoDup_compile_threads (getMaxContextID : nat)
    (compileThread : nat → bool) :
  NoDup (compile_threads getMaxContextID compileThread).
Proof. apply NoDup_filter, NoDup_seq. Qed.

Lemma add_lookup (gt g : nat) (op : Operation) (qs : Queues) :
  add gt op qs !!! g = qs !!! g ++ (if decide (g = gt) then [op] else []).
Proof.
  unfold add. case_decide as Hg.
  - subst g. by rewrite lookup_total_insert_eq.
  - rewrite lookup_total_insert_ne by done. by rewrite app_nil_r.
Qed.

(** Handing one operation to every thread of a list without repetition. *)
Lemma add_all_lookup (threads : list nat) (op : Operation) (qs : Queues)
    (g : nat) :
  NoDup threads →
  foldl (λ qs gitr, add gitr op qs) qs threads !!! g =
    qs !!! g ++ (if decide (g ∈ threads) then [op] else []).
Proof.
  intros Hnd. revert qs.
  induction Hnd as [|gt threads Hnotin Hnd IH]; intros qs; cbn [foldl].
  - by rewrite app_nil_r.
  - rewrite IH, add_lookup.
    destruct (decide (g = gt)) as [->|Hne].
    + rewrite decide_False by done. rewrite decide_True by set_solver.
      by rewrite app_nil_r.
    + rewrite app_nil_r.
      destruct (decide (g ∈ threads)).
      * by rewrite decide_True by set_solver.
      * by rewrite decide_False by set_solver.
Qed.

Lemma add_to_threads_queues (threads : list nat) (op : Operation)
    (st : Queues * bool) :
  (add_to_threads threads op st).1 =
    foldl (λ qs gitr, add gitr op qs) st.1 threads.
Proof.
  unfold add_to_threads. revert st.
  induction threads as [|gt threads IH]; intros st; cbn [foldl]; [done|].
  by rewrite IH.
Qed.

Lemma add_to_threads_flag (threads : list nat) (op : Operation)
    (st : Queues * bool) :
  (add_to_threads threads op st).2 =
    if decide (threads = []) then st.2 else true.
Proof.
  unfold add_to_threads. revert st.
  induction threads as [|gt threads IH]; intros st; cbn [foldl]; [done|].
  rewrite IH. cbn [snd]. by repeat case_decide.
Qed.

Section Loading.
Context (readNodeFile : string → option Node) (threads : list nat).

Lemma load_files_calls (l : list string) (st : Loading) :
  readNodeFile_calls (foldl (load_file readNodeFile threads) st l) =
    readNodeFile_calls st ++ l.
Proof.
  revert st. induction l as [|f l IH]; intros st; cbn [foldl].
  - by rewrite app_nil_r.
  - rewrite IH. unfold load_file.
    destruct (readNodeFile f); cbn; by rewrite <- app_assoc.
Qed.

Lemma load_file_nodesToAdd (st : Loading) (x f : string) :
  nodesToAdd (load_file readNodeFile threads st x) !! f =
    if decide (f = x)
    then match readNodeFile f with
         | Some n => Some n
         | None => nodesToAdd st !! f
         end
    else nodesToAdd st !! f.
Proof.
  unfold load_file. case_decide as Hf.
  - subst x. destruct (readNodeFile f); cbn; [|done].
    by rewrite lookup_insert_eq.
  - destruct (readNodeFile x); cbn; [|done].
    by rewrite lookup_insert_ne.
Qed.

Lemma load_files_nodesToAdd (l : list string) (st : Loading) (f : string) :
  nodesToAdd (foldl (load_file readNodeFile threads) st l) !! f =
    if decide (f ∈ l)
    then match readNodeFile f with
         | Some n => Some n
         | None => nodesToAdd st !! f
         end
    else nodesToAdd st !! f.
Proof.
  revert st. induction l as [|x l IH]; intros st; cbn [foldl]; [done|].
  rewrite IH, load_file_nodesToAdd.
  destruct (decide (f = x)) as [->|Hne].
  - rewrite (decide_True (P := x ∈ x :: l)) by set_solver.
    destruct (readNodeFile x); by case_decide.
  - destruct (decide (f ∈ l)).
    + by rewrite decide_True by set_solver.
    + by rewrite decide_False by set_solver.
Qed.

Lemma load_file_queues (st : Loading) (x : string) (g : nat) :
  NoDup threads →
  queues (load_file readNodeFile threads st x) !!! g =
    queues st !!! g ++
    (if decide (g ∈ threads)
     then GLObjectsOperation <$> omap readNodeFile [x] else []).
Proof.
  intros Hnd. unfold load_file. cbn [omap list_omap].
  destruct (readNodeFile x) as [n|]; cbn [queues].
  - by rewrite add_to_threads_queues, add_all_lookup.
  - case_decide; by rewrite app_nil_r.
Qed.

Lemma load_files_queues (l : list string) (st : Loading) (g : nat) :
  NoDup threads →
  queues (foldl (load_file readNodeFile threads) st l) !!! g =
    queues st !!! g ++
    (if decide (g ∈ threads)
     then GLObjectsOperation <$> omap readNodeFile l else []).
Proof.
  intros Hnd. revert st.
  induction l as [|f l IH]; intros st; cbn [foldl].
  - case_decide; by rewrite app_nil_r.
  - rewrite IH, load_file_queues by done.
    rewrite <- app_assoc. f_equal.
    case_decide; [|done].
    change (f :: l) with ([f] ++ l). by rewrite omap_app, fmap_app.
Qed.

Lemma load_file_requiresBarrier (st : Loading) (x : string) :
  requiresBarrier (load_file readNodeFile threads st x) =
    requiresBarrier st ||
    bool_decide (threads ≠ [] ∧ omap readNodeFile [x] ≠ []).
Proof.
  unfold load_file. cbn [omap list_omap].
  destruct (readNodeFile x) as [n|]; cbn [requiresBarrier].
  - rewrite add_to_threads_flag. cbn [snd].
    destruct (decide (threads = [])) as [->|Hne].
    + rewrite bool_decide_eq_false_2 by naive_solver.
      by rewrite orb_false_r.
    + rewrite bool_decide_eq_true_2 by naive_solver.
      by rewrite orb_true_r.
  - rewrite bool_decide_eq_false_2 by naive_solver. by rewrite orb_false_r.
Qed.

Lemma load_files_requiresBarrier (l : list string) (st : Loading) :
  requiresBarrier (foldl (load_file readNodeFile threads) st l) =
    requiresBarrier st ||
    bool_decide (threads ≠ [] ∧ omap readNodeFile l ≠ []).
Proof.
  revert st. induction l as [|f l IH]; intros st; cbn [foldl].
  - rewrite bool_decide_eq_false_2 by naive_solver. by rewrite orb_false_r.
  - rewrite IH, load_file_requiresBarrier, <- orb_assoc. f_equal.
    change (f :: l) with ([f] ++ l). rewrite omap_app.
    destruct (decide (threads = [])) as [->|Hne].
    + by rewrite !bool_decide_eq_false_2 by naive_solver.
    + destruct (omap readNodeFile [f]) as [|n k].
      * rewrite (bool_decide_eq_false_2 (_ ∧ [] ≠ [])) by naive_solver.
        done.
      * rewrite (bool_decide_eq_true_2 (_ ∧ n :: k ≠ [])) by naive_solver.
        rewrite orb_true_l. symmetry. by apply bool_decide_eq_true_2.
Qed.

End Loading.

Lemma elem_of_loaded_models (readNodeFile : string → option Node)
    (newFiles : Files) (n : Node) :
  n ∈ loaded_models readNodeFile newFiles ↔
    ∃ f, f ∈ newFiles ∧ readNodeFile f = Some n.
Proof.
  unfold loaded_models. rewrite list_elem_of_omap.
  by setoid_rewrite elem_of_files_in_order.
Qed.

Lemma load_new_files_nodesToAdd (readNodeFile : string → option Node)
    (threads : list nat) (newFiles : Files) (qs : Queues) (f : string) :
  nodesToAdd (load_new_files readNodeFile threads newFiles qs) !! f =
    if decide (f ∈ newFiles) then readNodeFile f else None.
Proof.
  unfold load_new_files. rewrite load_files_nodesToAdd. cbn [nodesToAdd].
  rewrite lookup_empty.
  destruct (decide (f ∈ newFiles)) as [Hin|Hout].
  - rewrite decide_True by by apply elem_of_files_in_order.
    by destruct (readNodeFile f).
  - by rewrite decide_False by by rewrite elem_of_files_in_order.
Qed.

Lemma load_new_files_requiresBarrier (readNodeFile : string → option Node)
    (threads : list nat) (newFiles : Files) (qs : Queues) :
  requiresBarrier (load_new_files readNodeFile threads newFiles qs) = true ↔
    threads ≠ [] ∧ ∃ f n, f ∈ newFiles ∧ readNodeFile f = Some n.
Proof.
  unfold load_new_files. rewrite load_files_requiresBarrier.
  cbn [requiresBarrier]. rewrite orb_false_l, bool_decide_eq_true.
  fold (loaded_models readNodeFile newFiles).
  split; intros [Hthreads Hloaded]; (split; [done|]).
  - destruct (loaded_models readNodeFile newFiles) as [|n l] eqn:Hl; [done|].
    assert (Hn : n ∈ loaded_models readNodeFile newFiles)
      by (rewrite Hl; set_solver).
    apply elem_of_loaded_models in Hn as (f & ? & ?). eauto.
  - destruct Hloaded as (f & n & Hin & Hrd).
    assert (Hn : n ∈ loaded_models readNodeFile newFiles)
      by (apply elem_of_loaded_models; eauto).
    intros Hnil. rewrite Hnil in Hn. set_solver.
Qed.

(** C1: in a polling cycle the files [operator()] tries to load are exactly
    the names read from the master file that are not keys of
    [_existingFilenameNodeMap] (each is tried once, in the order of the set),
    and every file that loads is in [nodesToAdd] with its loaded node. *)
Theorem operator_loads_the_new_files (existing : FilenameNodeMap)
    (files : Files) (readNodeFile : string → option Node)
    (threads : list nat) (qs : Queues) :
  let newFiles := find_new_files existing files in
  let loading := load_new_files readNodeFile threads newFiles qs in
  newFiles = files ∖ dom existing ∧
  readNodeFile_calls loading = files_in_order newFiles ∧
  NoDup (readNodeFile_calls loading) ∧
  (∀ f, f ∈ readNodeFile_calls loading ↔ f ∈ files ∧ f ∉ dom existing) ∧
  (∀ f n, f ∈ newFiles → readNodeFile f = Some n →
          nodesToAdd loading !! f = Some n).
Proof.
  cbn zeta.
  assert (Hcalls : readNodeFile_calls
            (load_new_files readNodeFile threads
               (find_new_files existing files) qs) =
            files_in_order (find_new_files existing files)).
  { unfold load_new_files. by rewrite load_files_calls. }
  split_and!.
  - apply find_new_files_spec.
  - exact Hcalls.
  - rewrite Hcalls. apply NoDup_files_in_order.
  - intros f. rewrite Hcalls, elem_of_files_in_order, find_new_files_spec.
    set_solver.
  - intros f n Hin Hrd. rewrite load_new_files_nodesToAdd.
    by rewrite decide_True.
Qed.

(** C6: every model that loads gets one [GLObjectsOperation] on the queue of
    every compile graphics thread, the threads being those of the contexts
    [0 .. getMaxContextID()] that have one; nothing else is queued, and a
    file that does not load is not in [nodesToAdd]. *)
Theorem operator_compiles_the_loaded_models (getMaxContextID : nat)
    (compileThread : nat → bool) (readNodeFile : string → option Node)
    (newFiles : Files) (qs : Queues) :
  let threads := compile_threads getMaxContextID compileThread in
  let loading := load_new_files readNodeFile threads newFiles qs in
  (∀ gt, gt ∈ threads ↔ gt ≤ getMaxContextID ∧ compileThread gt = true) ∧
  (∀ gt, gt ∈ threads →
     queues loading !!! gt =
       qs !!! gt ++
       (GLObjectsOperation <$> loaded_models readNodeFile newFiles)) ∧
  (∀ gt, gt ∉ threads → queues loading !!! gt = qs !!! gt) ∧
  NoDup (files_in_order newFiles) ∧
  loaded_models readNodeFile newFiles =
    omap readNodeFile (files_in_order newFiles) ∧
  (∀ n, n ∈ loaded_models readNodeFile newFiles ↔
        ∃ f, f ∈ newFiles ∧ readNodeFile f = Some n) ∧
  (∀ f, readNodeFile f = None → nodesToAdd loading !! f = None) ∧
  (∀ f n, nodesToAdd loading !! f = Some n →
          f ∈ newFiles ∧ readNodeFile f = Some n).
Proof.
  cbn zeta. split_and!.
  - intros gt. apply elem_of_compile_threads.
  - intros gt Hin. unfold load_new_files.
    rewrite load_files_queues by apply NoDup_compile_threads.
    by rewrite decide_True.
  - intros gt Hout. unfold load_new_files.
    rewrite load_files_queues by apply NoDup_compile_threads.
    rewrite decide_False by done. by rewrite app_nil_r.
  - apply NoDup_files_in_order.
  - reflexivity.
  - intros n. apply elem_of_loaded_models.
  - intros f Hrd. rewrite load_new_files_nodesToAdd, Hrd. by case_decide.
  - intros f n. rewrite load_new_files_nodesToAdd. by case_decide.
Qed.

(** ** update(scene) *)

Section Update.
Context {G : Type} {scene_group : SceneGroup G}.

Lemma remove_files_map (l : list string) (st : G * FilenameNodeMap)
    (k : string) :
  (foldl remove_file st l).2 !! k =
    if decide (k ∈ l) then None else st.2 !! k.
Proof.
  revert st. induction l as [|f l IH]; intros st; cbn [foldl]; [done|].
  rewrite IH.
  assert (Hstep : (remove_file st f).2 !! k =
                  if decide (k = f) then None else st.2 !! k).
  { unfold remove_file. destruct (decide (k = f)) as [->|Hk].
    - destruct (st.2 !! f) eqn:Hf; cbn [snd]; [|done].
      apply lookup_delete_eq.
    - destruct (st.2 !! f); cbn [snd]; [|done].
      by rewrite lookup_delete_ne. }
  rewrite Hstep.
  destruct (decide (k = f)) as [->|Hne].
  - rewrite (decide_True (P := f ∈ f :: l)) by set_solver. by case_decide.
  - destruct (decide (k ∈ l)).
    + by rewrite decide_True by set_solver.
    + by rewrite decide_False by set_solver.
Qed.

Lemma remove_files_scene (l : list string) (st : G * FilenameNodeMap) :
  NoDup l →
  (foldl remove_file st l).1 =
    foldl (λ g n, removeChild n g) st.1 (omap (λ f, st.2 !! f) l).
Proof.
  intros Hnd. revert st.
  induction Hnd as [|f l Hnotin Hnd IH]; intros st;
    cbn [foldl omap list_omap]; [done|].
  rewrite IH.
  assert (Hrest : omap (λ f', (remove_file st f).2 !! f') l =
                  omap (λ f', st.2 !! f') l).
  { apply list_omap_ext, Forall2_same_length_lookup_2; [done|].
    intros i f1 f2 Hf1 Hf2. assert (f2 = f1) as -> by congruence.
    assert (f1 ≠ f).
    { intros ->. apply Hnotin. by eapply list_elem_of_lookup_2. }
    unfold remove_file. destruct (st.2 !! f); cbn [snd]; [|done].
    by rewrite lookup_delete_ne. }
  rewrite Hrest. unfold remove_file.
  by destruct (st.2 !! f).
Qed.

Lemma add_nodes_scene (l : list (string * Node)) (st : G * FilenameNodeMap) :
  (foldl add_node st l).1 = foldl (λ g n, addChild n g) st.1 l.*2.
Proof.
  revert st. induction l as [|kv l IH]; intros st; cbn [foldl fmap list_fmap];
    [done|].
  by rewrite IH.
Qed.

Lemma add_nodes_map_other (l : list (string * Node))
    (st : G * FilenameNodeMap) (k : string) :
  k ∉ l.*1 → (foldl add_node st l).2 !! k = st.2 !! k.
Proof.
  revert st. induction l as [|[k' n'] l IH]; intros st Hk;
    cbn [foldl]; [done|].
  rewrite IH by set_solver. cbn. rewrite lookup_insert_ne; [done|].
  set_solver.
Qed.

Lemma add_nodes_map_added (l : list (string * Node))
    (st : G * FilenameNodeMap) (k : string) (n : Node) :
  NoDup l.*1 → (k, n) ∈ l → (foldl add_node st l).2 !! k = Some n.
Proof.
  revert st. induction l as [|[k' n'] l IH]; intros st Hnd Hin;
    cbn [foldl]; [set_solver|].
  cbn [fmap list_fmap fst] in Hnd. apply NoDup_cons in Hnd as [Hnotin Hnd].
  apply elem_of_cons in Hin as [[= <- <-]|Hin].
  - rewrite add_nodes_map_other by done. cbn. apply lookup_insert_eq.
  - by apply IH.
Qed.

Lemma add_nodes_map (m : FilenameNodeMap) (st : G * FilenameNodeMap)
    (k : string) :
  (foldl add_node st (entries_in_order m)).2 !! k =
    match m !! k with
    | Some n => Some n
    | None => st.2 !! k
    end.
Proof.
  destruct (m !! k) as [n|] eqn:Hk.
  - apply add_nodes_map_added; [apply NoDup_entries_in_order_keys|].
    by apply elem_of_entries_in_order.
  - apply add_nodes_map_other. intros Hin.
    apply list_elem_of_fmap in Hin as ([k' n] & -> & Hin).
    apply elem_of_entries_in_order in Hin. cbn in Hk. congruence.
Qed.

Lemma update_scene (scene : G) (mo : MasterOperation) :
  (update scene mo).1 =
    foldl (λ g n, addChild n g)
      (foldl (λ g n, removeChild n g) scene (removed_nodes mo))
      (added_nodes mo).
Proof.
  unfold update, removed_nodes, added_nodes. cbn [fst].
  destruct (decide (_nodesToRemove mo = ∅)) as [Hr|Hr];
    destruct (decide (_nodesToAdd mo = ∅)) as [Ha|Ha];
    rewrite ?Hr, ?Ha, ?files_in_order_empty, ?entries_in_order_empty;
    cbn [omap list_omap fmap list_fmap foldl fst];
    rewrite ?add_nodes_scene, ?remove_files_scene
      by apply NoDup_files_in_order;
    done.
Qed.

Lemma update_map (scene : G) (mo : MasterOperation) (k : string) :
  _existingFilenameNodeMap (update scene mo).2 !! k =
    match _nodesToAdd mo !! k with
    | Some n => Some n
    | None =>
        if decide (k ∈ _nodesToRemove mo) then None
        else _existingFilenameNodeMap mo !! k
    end.
Proof.
  unfold update. cbn [snd _existingFilenameNodeMap].
  destruct (decide (_nodesToAdd mo = ∅)) as [Ha|Ha].
  - rewrite Ha, lookup_empty.
    destruct (decide (_nodesToRemove mo = ∅)) as [Hr|Hr].
    + rewrite Hr. cbn [snd]. by rewrite decide_False by set_solver.
    + rewrite remove_files_map. cbn [snd].
      destruct (decide (k ∈ _nodesToRemove mo)).
      * by rewrite decide_True by by apply elem_of_files_in_order.
      * by rewrite decide_False by by rewrite elem_of_files_in_order.
  - rewrite add_nodes_map.
    destruct (_nodesToAdd mo !! k); [done|].
    destruct (decide (_nodesToRemove mo = ∅)) as [Hr|Hr].
    + rewrite Hr. cbn [snd]. by rewrite decide_False by set_solver.
    + rewrite remove_files_map. cbn [snd].
      destruct (decide (k ∈ _nodesToRemove mo)).
      * by rewrite decide_True by by apply elem_of_files_in_order.
      * by rewrite decide_False by by rewrite elem_of_files_in_order.
Qed.

Lemma elem_of_removed_nodes (mo : MasterOperation) (n : Node) :
  n ∈ removed_nodes mo ↔
    ∃ f, f ∈ _nodesToRemove mo ∧ _existingFilenameNodeMap mo !! f = Some n.
Proof.
  unfold removed_nodes. rewrite list_elem_of_omap.
  by setoid_rewrite elem_of_files_in_order.
Qed.

Lemma elem_of_added_nodes (mo : MasterOperation) (n : Node) :
  n ∈ added_nodes mo ↔ ∃ f, _nodesToAdd mo !! f = Some n.
Proof.
  unfold added_nodes. rewrite list_elem_of_fmap. split.
  - intros ([f n'] & -> & Hin). exists f.
    by apply elem_of_entries_in_order.
  - intros (f & Hf). exists (f, n). split; [done|].
    by apply elem_of_entries_in_order.
Qed.

(** C2: [update(scene)] first takes out of the scene the node of every
    name in [_nodesToRemove] that is a key of [_existingFilenameNodeMap],
    and erases the entry; then it adds every node of [_nodesToAdd] to the
    scene and stores its entry; both pending collections are empty when it
    returns. *)
Theorem update_merges_pending_changes (scene : G) (mo : MasterOperation) :
  (update scene mo).1 =
    foldl (λ g n, addChild n g)
      (foldl (λ g n, removeChild n g) scene (removed_nodes mo))
      (added_nodes mo) ∧
  (∀ n, n ∈ removed_nodes mo ↔
        ∃ f, f ∈ _nodesToRemove mo ∧
             _existingFilenameNodeMap mo !! f = Some n) ∧
  (∀ n, n ∈ added_nodes mo ↔ ∃ f, _nodesToAdd mo !! f = Some n) ∧
  _existingFilenameNodeMap (update scene mo).2 =
    _nodesToAdd mo ∪
    filter (λ kv, kv.1 ∉ _nodesToRemove mo) (_existingFilenameNodeMap mo) ∧
  _nodesToRemove (update scene mo).2 = ∅ ∧
  _nodesToAdd (update scene mo).2 = ∅.
Proof.
  split_and!.
  - apply update_scene.
  - apply elem_of_removed_nodes.
  - apply elem_of_added_nodes.
  - apply map_eq. intros k. rewrite update_map, lookup_union.
    destruct (_nodesToAdd mo !! k) as [n|] eqn:Ha.
    + by rewrite union_Some_l.
    + rewrite (left_id None _).
      destruct (_existingFilenameNodeMap mo !! k) as [n|] eqn:He.
      * case_decide.
        -- symmetry. apply map_lookup_filter_None. right.
           intros n' ? Hnot. by apply Hnot.
        -- symmetry. by apply map_lookup_filter_Some.
      * case_decide; symmetry; apply map_lookup_filter_None; by left.
  - reflexivity.
  - reflexivity.
Qed.

End Update.

(** ** The scene as the list of its children *)

Lemma add_children (children l : list Node) :
  foldl (λ g n, addChild n g) children l = children ++ l.
Proof.
  revert children. induction l as [|n l IH]; intros children; cbn [foldl].
  - by rewrite app_nil_r.
  - rewrite IH. cbn. by rewrite <- app_assoc.
Qed.

Lemma remove_first_not_in (n : Node) (l : list Node) :
  n ∉ l → remove_first n l = l.
Proof.
  induction l as [|c l IH]; intros Hn; cbn; [done|].
  rewrite decide_False by set_solver. rewrite IH by set_solver. done.
Qed.

Lemma remove_first_app (n : Node) (children l : list Node) :
  n ∉ children →
  remove_first n (children ++ l) = children ++ remove_first n l.
Proof.
  induction children as [|c children IH]; intros Hn; cbn; [done|].
  rewrite decide_False by set_solver. rewrite IH by set_solver. done.
Qed.

Lemma elem_of_remove_first (n x : Node) (l : list Node) :
  NoDup l → x ∈ remove_first n l ↔ x ∈ l ∧ x ≠ n.
Proof.
  induction 1 as [|c l Hc Hnd IH]; cbn; [set_solver|].
  case_decide as Hcn.
  - subst c. set_solver.
  - rewrite elem_of_cons, IH. set_solver.
Qed.

Lemma NoDup_remove_first (n : Node) (l : list Node) :
  NoDup l → NoDup (remove_first n l).
Proof.
  induction 1 as [|c l Hc Hnd IH]; cbn; [constructor|].
  case_decide; [done|]. constructor; [|done].
  rewrite elem_of_remove_first by done. set_solver.
Qed.

Lemma remove_children_app (children l rs : list Node) :
  (∀ r, r ∈ rs → r ∉ children) →
  foldl (λ g n, removeChild n g) (children ++ l) rs =
    children ++ foldl (λ g n, removeChild n g) l rs.
Proof.
  revert l. induction rs as [|r rs IH]; intros l Hrs; cbn [foldl]; [done|].
  cbn [removeChild Children_group]. rewrite remove_first_app by set_solver.
  apply IH. set_solver.
Qed.

Lemma remove_children_spec (l rs : list Node) :
  NoDup l →
  NoDup (foldl (λ g n, removeChild n g) l rs) ∧
  ∀ x, x ∈ foldl (λ g n, removeChild n g) l rs ↔ x ∈ l ∧ x ∉ rs.
Proof.
  revert l. induction rs as [|r rs IH]; intros l Hnd; cbn [foldl].
  - split; [done|]. set_solver.
  - destruct (IH (remove_first r l)) as [Hnd' Hin'];
      [by apply NoDup_remove_first|].
    split; [done|]. intros x. rewrite Hin', elem_of_remove_first by done.
    set_solver.
Qed.

Lemma NoDup_omap_inj {A : Type} (f : A → option Node) (l : list A) :
  (∀ x y n, x ∈ l → y ∈ l → f x = Some n → f y = Some n → x = y) →
  NoDup l → NoDup (omap f l).
Proof.
  intros Hinj Hnd. induction Hnd as [|x l Hx Hnd IH]; cbn; [constructor|].
  destruct (f x) as [n|] eqn:Hfx.
  - constructor.
    + rewrite list_elem_of_omap. intros (y & Hy & Hfy).
      assert (y = x) as -> by (eapply Hinj; [set_solver..|done|done]).
      done.
    + apply IH. intros y z m Hy Hz. apply Hinj; set_solver.
  - apply IH. intros y z m Hy Hz. apply Hinj; set_solver.
Qed.

(** ** open(group) *)

Lemma open_files_scene (readNodeFile : string → option Node)
    (l : list string) (st : list Node * FilenameNodeMap) :
  (foldl (open_file readNodeFile) st l).1 = st.1 ++ omap readNodeFile l.
Proof.
  revert st. induction l as [|f l IH]; intros st; cbn [foldl omap list_omap].
  - by rewrite app_nil_r.
  - rewrite IH. unfold open_file.
    destruct (readNodeFile f); cbn; [|done]. by rewrite <- app_assoc.
Qed.

Lemma open_files_map {G : Type} {scene_group : SceneGroup G}
    (readNodeFile : string → option Node)
    (l : list string) (st : G * FilenameNodeMap) (k : string) :
  (foldl (open_file readNodeFile) st l).2 !! k =
    if decide (k ∈ l)
    then match readNodeFile k with
         | Some n => Some n
         | None => st.2 !! k
         end
    else st.2 !! k.
Proof.
  revert st. induction l as [|f l IH]; intros st; cbn [foldl]; [done|].
  rewrite IH.
  assert (Hstep : (open_file readNodeFile st f).2 !! k =
                  if decide (k = f)
                  then match readNodeFile k with
                       | Some n => Some n
                       | None => st.2 !! k
                       end
                  else st.2 !! k).
  { unfold open_file. destruct (decide (k = f)) as [->|Hk].
    - destruct (readNodeFile f); cbn; [|done]. by rewrite lookup_insert_eq.
    - destruct (readNodeFile f); cbn; [|done]. by rewrite lookup_insert_ne. }
  rewrite Hstep.
  destruct (decide (k = f)) as [->|Hne].
  - rewrite (decide_True (P := f ∈ f :: l)) by set_solver.
    destruct (readNodeFile f); by destruct (decide (f ∈ l)).
  - destruct (decide (k ∈ l)).
    + by rewrite decide_True by set_solver.
    + by rewrite decide_False by set_solver.
Qed.

Section Open.
Context {Field : Type} {field_ops : FieldOps Field}.

Lemma open_scene (indeterminate : bool) (fin : option (list Field))
    (readNodeFile : string → option Node) (children : list Node) :
  (open indeterminate fin readNodeFile children new_MasterOperation).1 =
    children ++
    loaded_models readNodeFile (readMasterFile indeterminate fin ∅).2.
Proof.
  unfold open, loaded_models.
  pose proof (open_files_scene readNodeFile
                (files_in_order (readMasterFile indeterminate fin ∅).2)
                (children, ∅)) as Hscene.
  destruct (foldl _ _ _) as [g m]. done.
Qed.

Lemma open_map (indeterminate : bool) (fin : option (list Field))
    (readNodeFile : string → option Node) (children : list Node)
    (k : string) :
  _existingFilenameNodeMap
    (open indeterminate fin readNodeFile children new_MasterOperation).2
    !! k =
    if decide (k ∈ (readMasterFile indeterminate fin ∅).2)
    then readNodeFile k else None.
Proof.
  unfold open.
  pose proof (open_files_map readNodeFile
                (files_in_order (readMasterFile indeterminate fin ∅).2)
                (children, ∅) k) as Hmap.
  destruct (foldl _ _ _) as [g m]. cbn in *. rewrite Hmap, lookup_empty.
  destruct (decide (k ∈ (readMasterFile indeterminate fin ∅).2)).
  - rewrite decide_True by by apply elem_of_files_in_order.
    by destruct (readNodeFile k).
  - by rewrite decide_False by by rewrite elem_of_files_in_order.
Qed.

Lemma open_pending (indeterminate : bool) (fin : option (list Field))
    (readNodeFile : string → option Node) (children : list Node) :
  _nodesToRemove
    (open indeterminate fin readNodeFile children new_MasterOperation).2 = ∅ ∧
  _nodesToAdd
    (open indeterminate fin readNodeFile children new_MasterOperation).2 = ∅.
Proof. unfold open. by destruct (foldl _ _ _). Qed.

End Open.

Lemma update_nothing_pending (sc : list Node) (m : MasterOperation) :
  _nodesToRemove m = ∅ → _nodesToAdd m = ∅ →
  (update sc m).1 = sc ∧
  _existingFilenameNodeMap (update sc m).2 = _existingFilenameNodeMap m.
Proof.
  intros Hr Ha. unfold update. rewrite !decide_True by done. done.
Qed.

Lemma NoDup_added_nodes (m : MasterOperation) :
  one_key_per_node (_nodesToAdd m) → NoDup (added_nodes m).
Proof.
  intros Hinj. unfold added_nodes.
  apply NoDup_fmap_2_strong.
  - intros [f n] [g n'] Hf Hg. cbn. intros <-.
    apply elem_of_entries_in_order in Hf, Hg.
    by rewrite (Hinj f g n Hf Hg).
  - eapply NoDup_fmap_1. apply NoDup_entries_in_order_keys.
Qed.

(** ** The scene and the map stay in step *)

Lemma update_keeps_scene_and_map (children sc added : list Node)
    (m : MasterOperation) :
  sc = children ++ added →
  NoDup added →
  (∀ n, n ∈ added → n ∉ children) →
  (∀ n, n ∈ added ↔ ∃ f, _existingFilenameNodeMap m !! f = Some n) →
  one_key_per_node (_existingFilenameNodeMap m) →
  one_key_per_node (_nodesToAdd m) →
  (∀ f n, _nodesToAdd m !! f = Some n →
          _existingFilenameNodeMap m !! f = None ∧ n ∉ sc) →
  ∃ added',
    (update sc m).1 = children ++ added' ∧
    NoDup added' ∧
    (∀ n, n ∈ added' → n ∉ children) ∧
    (∀ n, n ∈ added' ↔
          ∃ f, _existingFilenameNodeMap (update sc m).2 !! f = Some n) ∧
    one_key_per_node (_existingFilenameNodeMap (update sc m).2) ∧
    (∀ n, n ∈ added' → n ∈ added ∨ ∃ f, _nodesToAdd m !! f = Some n).
Proof.
  intros -> Hnd Hout Hadded Hinj HinjA Hnew.
  pose proof (remove_children_spec added (removed_nodes m) Hnd)
    as [Hnd1 Hin1].
  exists (foldl (λ g n, removeChild n g) added (removed_nodes m) ++
          added_nodes m).
  assert (Hremoved : ∀ r, r ∈ removed_nodes m → r ∈ added).
  { intros r (f & _ & Hf)%elem_of_removed_nodes. apply Hadded. eauto. }
  assert (Hfresh : ∀ n, n ∈ added_nodes m → n ∉ children ++ added).
  { intros n (f & Hf)%elem_of_added_nodes. by apply (Hnew f n). }
  split_and!.
  - rewrite update_scene, remove_children_app, add_children.
    + by rewrite <- app_assoc.
    + intros r Hr. apply Hout. by apply Hremoved.
  - apply NoDup_app. split_and!; [done| |by apply NoDup_added_nodes].
    intros x Hx Hx'. apply Hin1 in Hx as [Hx _].
    apply (Hfresh x Hx'). set_solver.
  - intros n [Hn|Hn]%elem_of_app.
    + apply Hout. by apply Hin1 in Hn as [? _].
    + intros Hc. apply (Hfresh n Hn). set_solver.
  - intros n. rewrite elem_of_app, Hin1, elem_of_added_nodes.
    setoid_rewrite update_map. split.
    + intros [[Hn Hnot]|[f Hf]].
      * apply Hadded in Hn as [f Hf]. exists f.
        destruct (_nodesToAdd m !! f) as [n'|] eqn:Ha.
        { apply Hnew in Ha as [? _]. congruence. }
        rewrite decide_False; [done|]. intros HR. apply Hnot.
        apply elem_of_removed_nodes. eauto.
      * exists f. by rewrite Hf.
    + intros [f Hf].
      destruct (_nodesToAdd m !! f) as [n'|] eqn:Ha.
      * right. exists f. congruence.
      * left. case_decide as HR; [done|]. split; [apply Hadded; eauto|].
        intros (g & Hg & Hgn)%elem_of_removed_nodes.
        by rewrite <- (Hinj f g n Hf Hgn) in Hg.
  - intros f g n. rewrite !update_map. intros Hf Hg.
    destruct (_nodesToAdd m !! f) as [nf|] eqn:Haf;
      destruct (_nodesToAdd m !! g) as [ng|] eqn:Hag; simplify_eq.
    + by eapply HinjA.
    + case_decide; [done|]. apply Hnew in Haf as [_ Hout'].
      exfalso. apply Hout'. apply elem_of_app. right. apply Hadded. eauto.
    + case_decide; [done|]. apply Hnew in Hag as [_ Hout'].
      exfalso. apply Hout'. apply elem_of_app. right. apply Hadded. eauto.
    + repeat case_decide; try done. by eapply Hinj.
  - intros n [Hn|Hn]%elem_of_app.
    + left. by apply Hin1 in Hn as [? _].
    + right. by apply elem_of_added_nodes.
Qed.

(** ** The threads *)

(** The members of a state that was built by the setters. *)
Ltac system_simpl :=
  cbn [mo _mutex _barrier scene operatorPc updatePc done threadQueues
       inBarrier barriers compiled allocated
       set_mo set_mutex set_barrier set_scene set_operatorPc set_updatePc
       set_done set_threadQueues set_inBarrier set_barriers set_compiled
       set_allocated release_block operator_locked operator_label] in *.

(** The cases of a step out of a state given by its components. *)
Ltac step_cases H :=
  inversion H; subst; system_simpl; try congruence; simplify_eq;
  system_simpl.

Section ThreadProperties.
Context {Field : Type} {field_ops : FieldOps Field}.

Lemma reachable_initial (children : list Node) (s : System) :
  initial children s → reachable children s.
Proof. intros Hinit. exists s. split; [done|]. apply rtc_refl. Qed.

Lemma reachable_step (children : list Node) (s s' : System) (l : Label) :
  reachable children s → step s l s' → reachable children s'.
Proof.
  intros (s0 & Hinit & Hrtc) Hstep. exists s0. split; [done|].
  eapply rtc_r; [done|]. by exists l.
Qed.

Lemma reachable_invariant (children : list Node) (P : System → Prop) :
  (∀ s, initial children s → P s) →
  (∀ s l s', reachable children s → P s → step s l s' → P s') →
  ∀ s, reachable children s → P s.
Proof.
  intros Hinit Hstep s (s0 & H0 & Hrtc).
  cut (reachable children s ∧ P s); [tauto|].
  revert s Hrtc. apply rtc_ind_r.
  - split; [by apply reachable_initial|by apply Hinit].
  - intros s1 s2 Hrtc [l Hl] [Hreach HP].
    split; [by eapply reachable_step|by eapply Hstep].
Qed.



Lemma release_block_locked (pc : OperatorPc) :
  operator_locked (release_block pc) = operator_locked pc.
Proof. by destruct pc. Qed.

Lemma mutex_invariant_step (s s' : System) (l : Label) :
  mutex_invariant s → step s l s' → mutex_invariant s'.
Proof.
  unfold mutex_invariant. intros [Hmutex Hexcl] Hstep.
  destruct s as [m mu br sc pc upc dn qs ib bs cp al]. system_simpl.
  step_cases Hstep; rewrite ?release_block_locked;
    try (destruct (operator_locked pc) eqn:?);
    try (destruct upc eqn:?);
    try (split; [congruence || done|]); try (intros; congruence || done);
    try (specialize (Hexcl eq_refl)); try done.
Qed.

Lemma mutex_invariant_reachable (children : list Node) (s : System) :
  reachable children s → mutex_invariant s.
Proof.
  apply reachable_invariant.
  - intros s0 Hinit. destruct Hinit. by split.
  - intros ? ? ? _. apply mutex_invariant_step.
Qed.

Lemma files_invariant_reachable (children : list Node) (s : System) :
  reachable children s → files_invariant s.
Proof.
  apply reachable_invariant.
  - intros s0 Hinit. destruct Hinit. intros files [?|?]; done.
  - unfold files_invariant. intros s1 l s2 _ Hinv Hstep files Hpc.
    destruct s1 as [m mu br sc pc upc dn qs ib bs cp al]. system_simpl.
    step_cases Hstep;
      try (apply Hinv; destruct Hpc; [left|right]; congruence);
      try (destruct Hpc; congruence).
    + destruct Hpc as [[= <-]|?]; [|done]. by eexists _, _.
    + apply Hinv. destruct Hpc as [?|[= <-]]; [done|]. by left.
    + apply Hinv. destruct pc; system_simpl; destruct Hpc; eauto; done.
    + apply Hinv. destruct pc; system_simpl; destruct Hpc; eauto; done.
Qed.

Lemma requiresBlock_true (removedFiles : Files) (nodesToAdd : FilenameNodeMap) :
  requiresBlock removedFiles nodesToAdd = true ↔
    removedFiles ≠ ∅ ∨ nodesToAdd ≠ ∅.
Proof.
  unfold requiresBlock.
  rewrite orb_true_iff, !bool_decide_eq_true. done.
Qed.

(** C3: in every polling cycle the diff is computed under the mutex.  In a
    state the threads reach where [operator()] is inside its first scoped
    lock, holding the names [files] it read from the master file, [_mutex]
    is held by the operation thread and no step of any thread changes the
    members of the operation; the step the operation thread takes there
    releases the mutex and leaves with [newFiles] the names read that are
    no keys of [_existingFilenameNodeMap], and with [removedFiles] exactly
    the keys of [_existingFilenameNodeMap] that are not among the names
    read. *)
Theorem diff_computed_under_mutex (children : list Node) (s s' : System)
    (l : Label) (files : Files) :
  reachable children s →
  operatorPc s = DiffLocked files →
  step s l s' →
  read_from_master_file files ∧
  _mutex s = Some OperationThread ∧
  mo s' = mo s ∧
  (operator_label l →
     l = L_diff ∧
     _mutex s' = None ∧
     operatorPc s' =
       AfterDiff
         (files ∖ dom (_existingFilenameNodeMap (mo s)))
         (dom (_existingFilenameNodeMap (mo s)) ∖ files)).
Proof.
  intros Hreach Hpc Hstep.
  pose proof (mutex_invariant_reachable _ _ Hreach) as [Hmutex Hexcl].
  pose proof (files_invariant_reachable _ _ Hreach) as Hfiles.
  rewrite Hpc in Hmutex, Hexcl. system_simpl.
  split_and!; [apply Hfiles; by right|done|..]; clear Hreach Hfiles.
  - destruct s as [m mu br sc pc upc dn qs ib bs cp al]. system_simpl.
    step_cases Hstep; try done.
    by specialize (Hexcl eq_refl).
  - intros Hl.
    destruct s as [m mu br sc pc upc dn qs ib bs cp al]. system_simpl.
    step_cases Hstep; try done.
    by rewrite find_new_files_spec, find_removed_files_spec.
Qed.


End ThreadProperties.

Section SceneInvariant.
Context {Field : Type} {field_ops : FieldOps Field}.

Lemma scene_invariant_initial (children : list Node) (s : System) :
  initial children s → scene_invariant children s.
Proof.
  intros [indeterminate fin readNodeFile [Hfresh Hinj]].
  set (files := (readMasterFile indeterminate fin ∅).2) in *.
  pose proof (open_pending indeterminate fin readNodeFile children)
    as [Hr Ha].
  unfold scene_invariant, scene_matches_map, not_merged, locals_not_merged,
    handed_off, pending_empty. cbn.
  split_and!.
  - exists (loaded_models readNodeFile files). split_and!.
    + apply open_scene.
    + apply NoDup_omap_inj; [|apply NoDup_files_in_order].
      intros x y n Hx%elem_of_files_in_order Hy%elem_of_files_in_order.
      by apply Hinj.
    + intros n (f & Hf & Hrd)%elem_of_loaded_models Hc.
      apply (Hfresh f n Hf Hrd). set_solver.
    + intros n. rewrite elem_of_loaded_models.
      setoid_rewrite open_map. fold files. split.
      * intros (f & Hf & Hrd). exists f. by rewrite decide_True.
      * intros (f & Hf). exists f. by case_decide.
  - intros f g n. rewrite !open_map. fold files.
    repeat case_decide; try done. by apply Hinj.
  - intros n. rewrite open_scene. fold files. unfold new_nodes. set_solver.
  - rewrite Ha. intros ? ? ? ?. by rewrite lookup_empty.
  - rewrite Ha. intros ? ?. by rewrite lookup_empty.
  - done.
  - by right.
Qed.

Lemma not_merged_frame (s s' : System) (m : FilenameNodeMap) :
  mo s' = mo s → scene s' = scene s → allocated s ⊆ allocated s' →
  not_merged s m → not_merged s' m.
Proof.
  intros Hmo Hsc Hal [Hinj Hnew]. split; [done|].
  intros f n Hf. rewrite Hmo, Hsc.
  destruct (Hnew f n Hf) as (? & ? & ?). set_solver.
Qed.

(** A step that leaves the operation and the scene alone. *)
Lemma scene_invariant_frame (children : list Node) (s s' : System) :
  mo s' = mo s → scene s' = scene s → allocated s ⊆ allocated s' →
  scene_invariant children s →
  locals_not_merged s' →
  handed_off s' ∨ pending_empty s' →
  scene_invariant children s'.
Proof.
  intros Hmo Hsc Hal (Hscene & Hinj & Halloc & Hpending & _ & _) Hloc Hhand.
  unfold scene_invariant, scene_matches_map. rewrite Hmo, Hsc.
  split_and!; try done.
  - intros n Hn. apply Hal. by apply Halloc.
  - by eapply not_merged_frame.
Qed.

Lemma not_handed_off_pending (s : System) :
  handed_off s ∨ pending_empty s →
  operatorPc s ≠ AfterSwap → operatorPc s ≠ InBlock →
  (operatorPc s = AtStart → done s = false) →
  pending_empty s.
Proof.
  intros [[?|[?|[Hpc Hdone]]]|?] ? ? Hstart; try done.
  rewrite Hstart in Hdone; done.
Qed.

Lemma loaded_not_merged (s : System) (newFiles : Files)
    (readNodeFile : string → option Node) (threads : list nat) (qs : Queues)
    (s' : System) :
  (∀ n, n ∈ scene s → n ∈ allocated s) →
  (∀ f, f ∈ newFiles → _existingFilenameNodeMap (mo s) !! f = None) →
  loads_new_nodes (allocated s) newFiles readNodeFile →
  mo s' = mo s → scene s' = scene s →
  allocated s' = allocated s ∪ new_nodes newFiles readNodeFile →
  not_merged s'
    (nodesToAdd (load_new_files readNodeFile threads newFiles qs)).
Proof.
  intros Halloc Hnew [Hfresh Hinj] Hmo Hsc Hal. split.
  - intros f g n. rewrite !load_new_files_nodesToAdd.
    repeat case_decide; try done. by apply Hinj.
  - intros f n. rewrite load_new_files_nodesToAdd, Hmo, Hsc, Hal.
    case_decide as Hf; [|done]. intros Hrd. split_and!.
    + by apply Hnew.
    + apply elem_of_union. right. unfold new_nodes.
      apply elem_of_list_to_set, elem_of_loaded_models. eauto.
    + intros Hn. apply (Hfresh f n Hf Hrd). by apply Halloc.
Qed.

Lemma scene_invariant_step (children : list Node) (s s' : System)
    (l : Label) :
  scene_invariant children s → step s l s' → scene_invariant children s'.
Proof.
  intros Hinv Hstep.
  pose proof Hinv as (Hscene & Hinj & Halloc & Hpending & Hlocals & Hhand).
  destruct Hstep as
    [s ? ? Hpc Hdone
    |s files Hpc Hfree
    |s files Hpc
    |s R Hpc
    |s N R getMaxContextID compileThread readNodeFile threads loading
       Hpc Hnew Hloads Hthreads Hloading Hno
    |s N R getMaxContextID compileThread readNodeFile threads loading
       barrier Hpc Hnew Hloads Hthreads Hloading Hyes Hfresh
    |s R A threads barrier b Hpc Hb Hopen
    |s R A threads Hpc Hno
    |s R A threads Hpc Hyes Hfree
    |s R A threads Hpc
    |s Hpc
    |s Hupc Hfree
    |s Hupc
    |s
    |s gt subgraph rest Hrunning Hq
    |s gt barrier rest b Hrunning Hq Hb
    |s gt barrier b Hwaiting Hb Hopen].
  - (* read *)
    apply (scene_invariant_frame children s); [done..|idtac|idtac].
    { done. }
    right. apply (not_handed_off_pending s); try done; congruence.
  - (* lock for the diff *)
    apply (scene_invariant_frame children s); [done..|idtac|idtac].
    { done. }
    right. apply (not_handed_off_pending s); try done; congruence.
  - (* diff *)
    apply (scene_invariant_frame children s); [done..|idtac|idtac].
    + unfold locals_not_merged. system_simpl.
      by intros f [_ ?]%elem_of_find_new_files.
    + right. apply (not_handed_off_pending s); try done; congruence.
  - (* nothing to load *)
    apply (scene_invariant_frame children s); [done..|idtac|idtac].
    + unfold locals_not_merged. system_simpl. split; [done|].
      intros f n. by rewrite lookup_empty.
    + right. apply (not_handed_off_pending s); try done; congruence.
  - (* load, no barrier *)
    subst loading.
    unfold locals_not_merged in Hlocals. rewrite Hpc in Hlocals.
    apply (scene_invariant_frame children s);
      [done|done|system_simpl; set_solver|done|..].
    + unfold locals_not_merged. system_simpl.
      by apply (loaded_not_merged s).
    + right. apply (not_handed_off_pending s); try done; congruence.
  - (* load, barrier *)
    subst loading.
    unfold locals_not_merged in Hlocals. rewrite Hpc in Hlocals.
    apply (scene_invariant_frame children s);
      [done|done|system_simpl; set_solver|done|..].
    + unfold locals_not_merged. system_simpl.
      by apply (loaded_not_merged s).
    + right. apply (not_handed_off_pending s); try done; congruence.
  - (* past the barrier *)
    unfold locals_not_merged in Hlocals. rewrite Hpc in Hlocals.
    apply (scene_invariant_frame children s); [done..|idtac|idtac].
    + unfold locals_not_merged. system_simpl.
      by apply (not_merged_frame s).
    + right. apply (not_handed_off_pending s); try done; congruence.
  - (* yield *)
    apply (scene_invariant_frame children s); [done..|idtac|idtac].
    { done. }
    right. apply (not_handed_off_pending s); try done; congruence.
  - (* lock for the swap *)
    unfold locals_not_merged in Hlocals. rewrite Hpc in Hlocals.
    apply (scene_invariant_frame children s); [done..|idtac|idtac].
    + unfold locals_not_merged. system_simpl.
      by apply (not_merged_frame s).
    + right. apply (not_handed_off_pending s); try done; congruence.
  - (* swap *)
    unfold locals_not_merged in Hlocals. rewrite Hpc in Hlocals.
    unfold scene_invariant, scene_matches_map. system_simpl.
    split_and!; try done. left. by left.
  - (* block *)
    apply (scene_invariant_frame children s); [done..|idtac|idtac].
    { done. }
    left. right. by left.
  - (* lock for the update *)
    apply (scene_invariant_frame children s); [done..|idtac|idtac].
    + unfold locals_not_merged in *. system_simpl.
      destruct (operatorPc s); try done; by apply (not_merged_frame s).
    + destruct Hhand as [?|?]; [by left|by right].
  - (* update *)
    destruct (decide (pending_empty s)) as [[Hr Ha]|Hnonempty].
    + destruct (update_nothing_pending (scene s) (mo s) Hr Ha)
        as [Hsc Hmap].
      assert (Hmerged : ∀ m, not_merged s m →
                not_merged
                  (set_updatePc OutsideUpdate
                     (set_operatorPc (release_block (operatorPc s))
                        (set_scene (update (scene s) (mo s)).1
                           (set_mo (update (scene s) (mo s)).2
                              (set_mutex None s))))) m).
      { intros m [Hm1 Hm2]. split; [done|]. system_simpl.
        by rewrite Hsc, Hmap. }
      unfold scene_invariant. split_and!.
      * unfold scene_matches_map. system_simpl. by rewrite Hsc, Hmap.
      * system_simpl. by rewrite Hmap.
      * system_simpl. by rewrite Hsc.
      * split; [done|]. intros f n. system_simpl.
        change (_nodesToAdd (update (scene s) (mo s)).2)
          with (∅ : FilenameNodeMap).
        by rewrite lookup_empty.
      * unfold locals_not_merged in *. system_simpl.
        destruct (operatorPc s); try done; try (by apply Hmerged).
        intros f Hf. rewrite Hmap. by apply Hlocals.
      * by right.
    + assert (Hpc : handed_off s) by by destruct Hhand.
      destruct Hscene as (added & Hsc & Hnd & Hout & Hadded).
      destruct Hpending as [HinjA HnewA].
      destruct (update_keeps_scene_and_map children (scene s) added (mo s))
        as (added' & Hsc' & Hnd' & Hout' & Hadded' & Hinj' & Hfrom);
        try done.
      { intros f n Hf. by destruct (HnewA f n Hf) as (? & _ & ?). }
      unfold scene_invariant. split_and!.
      * unfold scene_matches_map. system_simpl. by exists added'.
      * by system_simpl.
      * system_simpl. rewrite Hsc'. intros n [Hn|Hn]%elem_of_app.
        -- apply Halloc. rewrite Hsc. set_solver.
        -- destruct (Hfrom n Hn) as [Hold|[f Hf]].
           ++ apply Halloc. rewrite Hsc. set_solver.
           ++ by destruct (HnewA f n Hf) as (_ & ? & _).
      * split; [done|]. intros f n. system_simpl.
        change (_nodesToAdd (update (scene s) (mo s)).2)
          with (∅ : FilenameNodeMap).
        by rewrite lookup_empty.
      * unfold locals_not_merged. system_simpl.
        by destruct Hpc as [->|[->|[-> _]]].
      * by right.
  - (* release *)
    apply (scene_invariant_frame children s); [done..|idtac|idtac].
    + unfold locals_not_merged in *. system_simpl.
      destruct (operatorPc s); try done; by apply (not_merged_frame s).
    + unfold handed_off in *. system_simpl.
      destruct Hhand as [[->|[->|[-> _]]]|?]; [left..|by right].
      * by left.
      * right. by right.
      * right. by right.
  - (* a graphics thread compiles *)
    apply (scene_invariant_frame children s); [done..|idtac|idtac].
    + unfold locals_not_merged in *. system_simpl.
      destruct (operatorPc s); try done; by apply (not_merged_frame s).
    + destruct Hhand as [?|?]; [by left|by right].
  - (* a graphics thread enters a barrier *)
    apply (scene_invariant_frame children s); [done..|idtac|idtac].
    + unfold locals_not_merged in *. system_simpl.
      destruct (operatorPc s); try done; by apply (not_merged_frame s).
    + destruct Hhand as [?|?]; [by left|by right].
  - (* a graphics thread leaves a barrier *)
    apply (scene_invariant_frame children s); [done..|idtac|idtac].
    + unfold locals_not_merged in *. system_simpl.
      destruct (operatorPc s); try done; by apply (not_merged_frame s).
    + destruct Hhand as [?|?]; [by left|by right].
Qed.

End SceneInvariant.

(** ** The barrier *)

Lemma add_barrier_lookup (threads : list nat) (barrier : nat) (qs : Queues)
    (gt : nat) :
  NoDup threads →
  add_barrier threads barrier qs !!! gt =
    qs !!! gt ++
    (if decide (gt ∈ threads) then [BarrierOperation barrier] else []).
Proof. apply add_all_lookup. Qed.

Lemma load_new_files_queues (readNodeFile : string → option Node)
    (threads : list nat) (newFiles : Files) (qs : Queues) (gt : nat) :
  NoDup threads →
  queues (load_new_files readNodeFile threads newFiles qs) !!! gt =
    qs !!! gt ++
    (if decide (gt ∈ threads)
     then GLObjectsOperation <$> loaded_models readNodeFile newFiles
     else []).
Proof. intros Hnd. unfold load_new_files. by rewrite load_files_queues. Qed.

Lemma no_barrier_required (readNodeFile : string → option Node)
    (threads : list nat) (newFiles : Files) (qs : Queues) :
  requiresBarrier (load_new_files readNodeFile threads newFiles qs) = false →
  threads = [] ∨
  nodesToAdd (load_new_files readNodeFile threads newFiles qs) = ∅.
Proof.
  intros Hno. destruct threads as [|gt threads]; [by left|]. right.
  apply map_eq. intros f. rewrite load_new_files_nodesToAdd, lookup_empty.
  case_decide as Hf; [|done].
  destruct (readNodeFile f) as [n|] eqn:Hrd; [|done].
  assert (requiresBarrier
            (load_new_files readNodeFile (gt :: threads) newFiles qs) = true)
    as Hyes; [|congruence].
  apply load_new_files_requiresBarrier. split; [done|]. eauto.
Qed.

Lemma no_barrier_queues (readNodeFile : string → option Node)
    (threads : list nat) (newFiles : Files) (qs : Queues) (gt : nat) :
  NoDup threads →
  requiresBarrier (load_new_files readNodeFile threads newFiles qs) = false →
  queues (load_new_files readNodeFile threads newFiles qs) !!! gt =
    qs !!! gt.
Proof.
  intros Hnd Hno. rewrite load_new_files_queues by done.
  case_decide as Hgt; [|by rewrite app_nil_r].
  assert (loaded_models readNodeFile newFiles = []) as ->;
    [|by rewrite app_nil_r].
  destruct (loaded_models readNodeFile newFiles) as [|n l] eqn:Hl; [done|].
  assert (Hn : n ∈ loaded_models readNodeFile newFiles)
    by (rewrite Hl; set_solver).
  apply elem_of_loaded_models in Hn as (f & Hf & Hrd).
  assert (requiresBarrier
            (load_new_files readNodeFile threads newFiles qs) = true)
    as Hyes; [|congruence].
  apply load_new_files_requiresBarrier. split; [|eauto].
  intros ->. set_solver.
Qed.

(** Everybody a barrier waits for has arrived once it opens. *)
Lemma barrier_open_all_arrived (threads : list nat) (b : Barrier) (gt : nat) :
  NoDup threads →
  numThreads b = length threads + 1 →
  NoDup (arrived b) →
  (∀ p, p ∈ arrived b →
        p = OperationParty ∨ ∃ gt, p = GraphicsParty gt ∧ gt ∈ threads) →
  barrier_open b →
  gt ∈ threads → GraphicsParty gt ∈ arrived b.
Proof.
  intros HndT Hnum Hnd Hwho Hopen Hgt. unfold barrier_open in Hopen.
  assert (Hperm : arrived b ≡ₚ OperationParty :: (GraphicsParty <$> threads)).
  { apply submseteq_length_Permutation.
    - apply NoDup_submseteq; [done|]. intros p Hp.
      destruct (Hwho p Hp) as [->|(g & -> & Hg)]; [set_solver|].
      apply elem_of_cons. right. apply list_elem_of_fmap. eauto.
    - cbn. rewrite length_fmap. lia. }
  rewrite Hperm. apply elem_of_cons. right. apply list_elem_of_fmap. eauto.
Qed.

Lemma barrier_at_frame (s s' : System) (pc : OperatorPc) :
  threadQueues s' = threadQueues s → barriers s' = barriers s →
  compiled s' = compiled s →
  barrier_at s pc → barrier_at s' pc.
Proof.
  intros Hqs Hbs Hcp.
  destruct pc; cbn; try done;
    unfold compiled_on, before_barrier; by rewrite ?Hqs, ?Hbs, ?Hcp.
Qed.

Lemma barrier_invariant_frame (s s' : System) :
  threadQueues s' = threadQueues s → barriers s' = barriers s →
  compiled s' = compiled s →
  barrier_invariant s →
  (barrier_at s (operatorPc s) → barrier_at s (operatorPc s')) →
  barrier_invariant s'.
Proof.
  intros Hqs Hbs Hcp [Hexist Hat] Hpc. split.
  - unfold queued_barriers_exist. by rewrite Hqs, Hbs.
  - apply (barrier_at_frame s); [done..|]. by apply Hpc.
Qed.

Lemma lookup_total_insert_queue (qs : Queues) (gt g : nat)
    (rest : list Operation) :
  <[gt := rest]> qs !!! g = if decide (g = gt) then rest else qs !!! g.
Proof.
  case_decide as Hg.
  - subst g. apply lookup_total_insert_eq.
  - by apply lookup_total_insert_ne.
Qed.

Section BarrierInvariant.
Context {Field : Type} {field_ops : FieldOps Field}.

Lemma barrier_invariant_initial (children : list Node) (s : System) :
  initial children s → barrier_invariant s.
Proof.
  intros []. split; [|done].
  intros gt b. system_simpl. rewrite lookup_total_empty. set_solver.
Qed.

(** A graphics thread runs the compile operation at the front of its
    queue. *)
Lemma barrier_at_run_compile (s : System) (pc : OperatorPc) (gt : nat)
    (subgraph : Node) (rest : list Operation) :
  threadQueues s !!! gt = GLObjectsOperation subgraph :: rest →
  barrier_at s pc →
  barrier_at
    (set_compiled ({[ (gt, subgraph) ]} ∪ compiled s)
       (set_threadQueues (<[gt := rest]> (threadQueues s)) s)) pc.
Proof.
  intros Hq.
  destruct pc as [| | | |R A T b|R A T|R A T| |]; cbn [barrier_at];
    try done.
  - intros (HndT & B & HB & Hnum & Hnd & Hwho & Hthreads & Hothers).
    split; [done|]. exists B. system_simpl. split_and!; try done.
    + intros g Hg. rewrite lookup_total_insert_queue.
      destruct (Hthreads g Hg) as [(Harr & Hcomp & Hnot)|(Harr & Hbefore)].
      * left. split_and!; [done| |].
        -- intros f n Hf. system_simpl. specialize (Hcomp f n Hf). set_solver.
        -- case_decide; [|done]. subst g. rewrite Hq in Hnot. set_solver.
      * right. split; [done|].
        destruct Hbefore as (pre & post & Hqueue & Hpre & Hpost & Hdone).
        unfold before_barrier. system_simpl.
        rewrite lookup_total_insert_queue.
        destruct (decide (g = gt)) as [->|Hne].
        -- rewrite Hq in Hqueue. destruct pre as [|op pre]; [done|].
           injection Hqueue as <- ->. exists pre, post.
           split_and!; [done|set_solver|done|].
           intros f n Hf. destruct (Hdone f n Hf) as [?|Hin]; [set_solver|].
           apply elem_of_cons in Hin as [[= ->]|?]; set_solver.
        -- exists pre, post. split_and!; try done.
           intros f n Hf. destruct (Hdone f n Hf); set_solver.
    + intros g Hg. rewrite lookup_total_insert_queue.
      specialize (Hothers g Hg). case_decide; [|done]. subst g.
      rewrite Hq in Hothers. set_solver.
  - intros Hcomp g Hg f n Hf. system_simpl.
    specialize (Hcomp g Hg f n Hf). set_solver.
  - intros Hcomp g Hg f n Hf. system_simpl.
    specialize (Hcomp g Hg f n Hf). set_solver.
Qed.

(** A graphics thread runs the barrier operation at the front of its
    queue. *)
Lemma barrier_at_run_barrier (s : System) (pc : OperatorPc) (gt : nat)
    (barrier : nat) (rest : list Operation) (b : Barrier) :
  threadQueues s !!! gt = BarrierOperation barrier :: rest →
  barriers s !! barrier = Some b →
  barrier_at s pc →
  barrier_at
    (set_inBarrier (<[gt := barrier]> (inBarrier s))
       (set_barriers
          (<[barrier := arrive (GraphicsParty gt) b]> (barriers s))
          (set_threadQueues (<[gt := rest]> (threadQueues s)) s))) pc.
Proof.
  intros Hq Hb.
  destruct pc as [| | | |R A T b0|R A T|R A T| |]; cbn [barrier_at];
    try done.
  intros (HndT & B & HB & Hnum & Hnd & Hwho & Hthreads & Hothers).
  split; [done|]. system_simpl.
  destruct (decide (barrier = b0)) as [->|Hother].
  - (* the barrier of the cycle: the thread arrives *)
    assert (B = b) as -> by congruence.
    assert (Hgt : gt ∈ T).
    { destruct (decide (gt ∈ T)) as [?|Hout]; [done|].
      specialize (Hothers gt Hout). rewrite Hq in Hothers. set_solver. }
    destruct (Hthreads gt Hgt) as [(_ & _ & Hnot)|(Harr & Hbefore)].
    { rewrite Hq in Hnot. set_solver. }
    destruct Hbefore as (pre & post & Hqueue & Hpre & Hpost & Hdone).
    rewrite Hq in Hqueue.
    destruct pre as [|op pre]; [|injection Hqueue as <- ->; set_solver].
    injection Hqueue as ->.
    exists (arrive (GraphicsParty gt) b). rewrite lookup_insert_eq.
    split_and!; try done.
    + cbn. apply NoDup_app. split_and!; [done| |apply NoDup_singleton].
      intros p Hp Hp'. apply list_elem_of_singleton in Hp' as ->. done.
    + cbn. intros p [Hp|Hp]%elem_of_app; [by apply Hwho|].
      apply list_elem_of_singleton in Hp as ->. right. eauto.
    + intros g Hg. rewrite lookup_total_insert_queue. cbn [arrive arrived].
      destruct (decide (g = gt)) as [->|Hne].
      * left. split_and!; [set_solver| |done].
        intros f n Hf. system_simpl.
        destruct (Hdone f n Hf); set_solver.
      * destruct (Hthreads g Hg) as [(? & ? & ?)|(Hno & Hbefore)].
        -- left. split_and!; [set_solver|done|done].
        -- right. split.
           ++ intros [?|Hin]%elem_of_app; [done|].
              apply list_elem_of_singleton in Hin. congruence.
           ++ unfold before_barrier in *. system_simpl.
              by rewrite lookup_total_insert_queue, decide_False.
    + intros g Hg. rewrite lookup_total_insert_queue.
      rewrite decide_False; [by apply Hothers|]. intros ->. done.
  - (* another barrier *)
    exists B. rewrite lookup_insert_ne by done.
    split_and!; try done.
    + intros g Hg. rewrite lookup_total_insert_queue.
      destruct (Hthreads g Hg) as [(Harr & Hcomp & Hnot)|(Harr & Hbefore)].
      * left. split_and!; [done|done|].
        case_decide; [|done]. subst g. rewrite Hq in Hnot. set_solver.
      * right. split; [done|].
        destruct Hbefore as (pre & post & Hqueue & Hpre & Hpost & Hdone).
        unfold before_barrier. system_simpl.
        rewrite lookup_total_insert_queue.
        destruct (decide (g = gt)) as [->|Hne].
        -- rewrite Hq in Hqueue.
           destruct pre as [|op pre]; [injection Hqueue as -> ->; done|].
           injection Hqueue as <- ->. exists pre, post.
           split_and!; [done|set_solver|done|].
           intros f n Hf. destruct (Hdone f n Hf) as [?|Hin]; [by left|].
           apply elem_of_cons in Hin as [[=]|?]. by right.
        -- by exists pre, post.
    + intros g Hg. rewrite lookup_total_insert_queue.
      specialize (Hothers g Hg). case_decide; [|done]. subst g.
      rewrite Hq in Hothers. set_solver.
Qed.

(** [operator()] has queued the compile operations and the barrier, and
    waits in the barrier. *)
Lemma barrier_at_established (s : System) (removedFiles newFiles : Files)
    (readNodeFile : string → option Node) (threads : list nat)
    (barrier : nat) (al : gset Node) :
  NoDup threads →
  queued_barriers_exist s →
  barriers s !! barrier = None →
  let loading :=
    load_new_files readNodeFile threads newFiles (threadQueues s) in
  barrier_at
    (set_barrier (Some barrier)
       (set_barriers
          (<[barrier := {| numThreads := length threads + 1;
                           arrived := [OperationParty] |}]> (barriers s))
          (set_threadQueues (add_barrier threads barrier (queues loading))
             (set_allocated al s))))
    (InBarrier removedFiles (nodesToAdd loading) threads barrier).
Proof.
  intros HndT Hexist Hfresh loading. cbn [barrier_at]. split; [done|].
  system_simpl. eexists. rewrite lookup_insert_eq.
  assert (Hold : ∀ gt, BarrierOperation barrier ∉ threadQueues s !!! gt).
  { intros gt Hin. apply Hexist in Hin as [? ?]. congruence. }
  split_and!; [done|done|apply NoDup_singleton|..]; cbn [arrived].
  - intros p ->%list_elem_of_singleton. by left.
  - intros gt Hgt. right. split; [set_solver|].
    unfold before_barrier. system_simpl.
    rewrite add_barrier_lookup by done. unfold loading.
    rewrite load_new_files_queues by done. rewrite !decide_True by done.
    eexists _, []. split_and!; [done| |set_solver|].
    + intros [Hin|Hin]%elem_of_app; [by apply (Hold gt)|].
      apply list_elem_of_fmap in Hin as (? & [=] & _).
    + intros f n. rewrite load_new_files_nodesToAdd.
      case_decide as Hf; [|done]. intros Hrd. right.
      apply elem_of_app. right. apply list_elem_of_fmap. exists n.
      split; [done|]. apply elem_of_loaded_models. eauto.
  - intros gt Hgt. rewrite add_barrier_lookup by done. unfold loading.
    rewrite load_new_files_queues by done. rewrite !decide_False by done.
    rewrite !app_nil_r. apply Hold.
Qed.

Lemma barrier_invariant_step (s s' : System) (l : Label) :
  barrier_invariant s → step s l s' → barrier_invariant s'.
Proof.
  intros Hinv Hstep. pose proof Hinv as [Hexist Hat].
  destruct Hstep as
    [s ? ? Hpc Hdone
    |s files Hpc Hfree
    |s files Hpc
    |s R Hpc
    |s N R getMaxContextID compileThread readNodeFile threads loading
       Hpc Hnew Hloads Hthreads Hloading Hno
    |s N R getMaxContextID compileThread readNodeFile threads loading
       barrier Hpc Hnew Hloads Hthreads Hloading Hyes Hfresh
    |s R A threads barrier b Hpc Hb Hopen
    |s R A threads Hpc Hno
    |s R A threads Hpc Hyes Hfree
    |s R A threads Hpc
    |s Hpc
    |s Hupc Hfree
    |s Hupc
    |s
    |s gt subgraph rest Hrunning Hq
    |s gt barrier rest b Hrunning Hq Hb
    |s gt barrier b Hwaiting Hb Hopen].
  - apply (barrier_invariant_frame s); done.
  - apply (barrier_invariant_frame s); done.
  - apply (barrier_invariant_frame s); done.
  - apply (barrier_invariant_frame s); done.
  - (* load, no barrier *)
    subst loading threads.
    pose proof (NoDup_compile_threads getMaxContextID compileThread)
      as HndT.
    split.
    + intros gt b. system_simpl. rewrite no_barrier_queues by done.
      apply Hexist.
    + system_simpl. cbn [barrier_at]. intros gt Hgt f n Hf.
      destruct (no_barrier_required _ _ _ _ Hno) as [Hnone|Hnone].
      * rewrite Hnone in Hgt. set_solver.
      * rewrite Hnone, lookup_empty in Hf. done.
  - (* load, barrier *)
    subst loading threads.
    pose proof (NoDup_compile_threads getMaxContextID compileThread)
      as HndT.
    split.
    + intros gt b. system_simpl. rewrite add_barrier_lookup by done.
      rewrite load_new_files_queues by done.
      intros [[Hin|Hin]%elem_of_app|Hin]%elem_of_app.
      * apply lookup_insert_is_Some'. right. by eapply Hexist.
      * case_decide; [|set_solver].
        apply list_elem_of_fmap in Hin as (? & [=] & _).
      * case_decide; [|set_solver].
        apply list_elem_of_singleton in Hin as [= ->].
        apply lookup_insert_is_Some'. by left.
    + by apply barrier_at_established.
  - (* past the barrier *)
    apply (barrier_invariant_frame s); try done.
    rewrite Hpc. system_simpl. cbn [barrier_at].
    intros (HndT & B & HB & Hnum & Hnd & Hwho & Hthreads & _) gt Hgt.
    assert (B = b) as -> by congruence.
    pose proof (barrier_open_all_arrived threads b gt HndT Hnum Hnd Hwho
                  Hopen Hgt) as Harrived.
    by destruct (Hthreads gt Hgt) as [(_ & ? & _)|[? _]].
  - apply (barrier_invariant_frame s); done.
  - apply (barrier_invariant_frame s); try done.
    by rewrite Hpc.
  - apply (barrier_invariant_frame s); done.
  - apply (barrier_invariant_frame s); done.
  - apply (barrier_invariant_frame s); done.
  - apply (barrier_invariant_frame s); try done.
    system_simpl. by destruct (operatorPc s).
  - apply (barrier_invariant_frame s); try done.
    system_simpl. by destruct (operatorPc s).
  - (* a graphics thread compiles *)
    split.
    + intros g b. system_simpl. rewrite lookup_total_insert_queue.
      case_decide; [|apply Hexist]. subst g. intros Hin.
      apply (Hexist gt). rewrite Hq. set_solver.
    + by apply barrier_at_run_compile.
  - (* a graphics thread enters a barrier *)
    split.
    + intros g b'. system_simpl. rewrite lookup_total_insert_queue.
      intros Hin. apply lookup_insert_is_Some'. right.
      case_decide; [|by eapply Hexist]. subst g.
      apply (Hexist gt). rewrite Hq. set_solver.
    + by apply barrier_at_run_barrier.
  - apply (barrier_invariant_frame s); done.
Qed.

Lemma barrier_invariant_reachable (children : list Node) (s : System) :
  reachable children s → barrier_invariant s.
Proof.
  apply reachable_invariant.
  - apply barrier_invariant_initial.
  - intros ? ? ? _. apply barrier_invariant_step.
Qed.

End BarrierInvariant.

Section Claims.
Context {Field : Type} {field_ops : FieldOps Field}.

Lemma scene_invariant_reachable (children : list Node) (s : System) :
  reachable children s → scene_invariant children s.
Proof.
  apply reachable_invariant.
  - apply scene_invariant_initial.
  - intros ? ? ? _. apply scene_invariant_step.
Qed.

(** C5: when the operation thread loads new files, it creates a barrier
    exactly when a model was loaded and there is a compile graphics thread
    (then [threads] and [nodesToAdd] are not empty): the barrier is new,
    counts the graphics threads plus one, is queued on every graphics
    thread behind the compile operations of the loaded models, and the
    operation thread waits in it.  It leaves the barrier only when the
    barrier is open, without having changed the members of the operation,
    and whenever it stands before or inside the hand-off every graphics
    thread of the cycle has compiled every node to be handed off.  When no
    graphics thread got work no barrier is created and no queue changes. *)
Theorem barrier_before_hand_off (children : list Node) (s s' : System)
    (l : Label) :
  reachable children s →
  step s l s' →
  match operatorPc s with
  | AfterDiff newFiles removedFiles =>
      operator_label l →
      l = L_load ∧
      match operatorPc s' with
      | InBarrier removedFiles' nodesToAdd threads barrier =>
          removedFiles' = removedFiles ∧
          threads ≠ [] ∧ nodesToAdd ≠ ∅ ∧
          barriers s !! barrier = None ∧
          barriers s' !! barrier =
            Some {| numThreads := length threads + 1;
                    arrived := [OperationParty] |} ∧
          _barrier s' = Some barrier ∧
          mo s' = mo s ∧
          (∀ gt, gt ∈ threads →
             ∃ compiles,
               threadQueues s' !!! gt =
                 threadQueues s !!! gt ++ compiles ++
                 [BarrierOperation barrier] ∧
               ∀ f n, nodesToAdd !! f = Some n →
                      GLObjectsOperation n ∈ compiles) ∧
          (∀ gt, gt ∉ threads →
             threadQueues s' !!! gt = threadQueues s !!! gt)
      | AfterLoad removedFiles' nodesToAdd threads =>
          removedFiles' = removedFiles ∧
          (threads = [] ∨ nodesToAdd = ∅) ∧
          barriers s' = barriers s ∧
          _barrier s' = _barrier s ∧
          mo s' = mo s ∧
          (∀ gt, threadQueues s' !!! gt = threadQueues s !!! gt)
      | _ => False
      end
  | InBarrier removedFiles nodesToAdd threads barrier =>
      operator_label l →
      l = L_pass_barrier ∧
      (∃ b, barriers s !! barrier = Some b ∧ barrier_open b) ∧
      mo s' = mo s ∧
      operatorPc s' = AfterLoad removedFiles nodesToAdd threads
  | AfterLoad _ nodesToAdd threads
  | SwapLocked _ nodesToAdd threads =>
      ∀ gt f n, gt ∈ threads → nodesToAdd !! f = Some n →
                (gt, n) ∈ compiled s
  | _ => True
  end.
Proof.
  intros Hreach Hstep.
  pose proof (barrier_invariant_reachable _ _ Hreach) as [Hexist Hat].
  clear Hreach. destruct s as [m mu br sc pc upc dn qs ib bs cp al].
  system_simpl.
  destruct pc as [| | |N R|R A T b|R A T|R A T| |]; try done.
  - intros Hl. step_cases Hstep; try done.
    + split; [done|]. split_and!; try done. by left.
    + pose proof (NoDup_compile_threads getMaxContextID compileThread)
        as HndT.
      split; [done|]. split_and!; try done.
      * by apply no_barrier_required.
      * intros gt. by apply no_barrier_queues.
    + pose proof (NoDup_compile_threads getMaxContextID compileThread)
        as HndT.
      match goal with
      | Hbarrier : requiresBarrier _ = true |- _ =>
          apply load_new_files_requiresBarrier in Hbarrier
            as [Hthreads Hloaded]
      end.
      split; [done|]. split_and!; try done.
      * destruct Hloaded as (f & n & Hf & Hrd). intros Hempty.
        match type of Hempty with
        | nodesToAdd (load_new_files ?rd ?T ?N ?q) = ∅ =>
            pose proof (load_new_files_nodesToAdd rd T N q f) as Hin
        end.
        rewrite Hempty, lookup_empty, decide_True in Hin by done.
        congruence.
      * apply lookup_insert_eq.
      * intros gt Hgt. eexists.
        rewrite add_barrier_lookup, load_new_files_queues by done.
        rewrite !decide_True by done. split; [by rewrite <- app_assoc|].
        intros f n. rewrite load_new_files_nodesToAdd.
        case_decide; [|done]. intros Hrd.
        apply list_elem_of_fmap. exists n. split; [done|].
        apply elem_of_loaded_models. eauto.
      * intros gt Hgt.
        rewrite add_barrier_lookup, load_new_files_queues by done.
        rewrite !decide_False by done. by rewrite !app_nil_r.
  - intros Hl. step_cases Hstep; try done. split_and!; eauto.
  - cbn [barrier_at] in Hat. intros gt f n Hgt Hf. by eapply Hat.
  - cbn [barrier_at] in Hat. intros gt f n Hgt Hf. by eapply Hat.
Qed.

(** C9: in every state the threads reach after [open(group)], so after
    [open] and after every [update(scene)], every node of
    [_existingFilenameNodeMap] is a child of the group, and the children
    added to those the group had are each there once and each the node of
    exactly one key of the map.  [_nodesToRemove] or [_nodesToAdd] is
    non-empty only while the operation thread is past its hand-off and has
    not begun another cycle: only the swap of [operator()] makes them
    non-empty and [update] leaves them empty. *)
Theorem scene_and_map_in_step (children : list Node) (s : System) :
  reachable children s →
  (∀ f n, _existingFilenameNodeMap (mo s) !! f = Some n → n ∈ scene s) ∧
  (∃ added,
     scene s = children ++ added ∧
     NoDup added ∧
     ∀ n, n ∈ added →
       (n ∉ children) ∧
       ∃ f, _existingFilenameNodeMap (mo s) !! f = Some n ∧
            ∀ g, _existingFilenameNodeMap (mo s) !! g = Some n → g = f) ∧
  (¬ pending_empty s → handed_off s) ∧
  (∀ l s', step s l s' →
     (l = L_update → pending_empty s') ∧
     (pending_empty s → ¬ pending_empty s' → l = L_swap)).
Proof.
  intros Hreach.
  destruct (scene_invariant_reachable _ _ Hreach)
    as ((added & Hsc & Hnd & Hout & Hadded) & Hinj & _ & _ & _ & Hhand).
  split_and!.
  - intros f n Hf. rewrite Hsc. apply elem_of_app. right.
    apply Hadded. eauto.
  - exists added. split_and!; [done..|]. intros n Hn. split; [by apply Hout|].
    apply Hadded in Hn as [f Hf]. exists f. split; [done|].
    intros g Hg. by eapply Hinj.
  - intros Hpending. by destruct Hhand.
  - intros l s' Hstep. clear Hreach Hhand.
    destruct s as [m mu br sc pc upc dn qs ib bs cp al].
    unfold pending_empty. system_simpl.
    split.
    + intros ->. by step_cases Hstep.
    + intros Hempty Hnot. step_cases Hstep; try done.
      by destruct Hnot.
Qed.

End Claims.

(** ** The run *)

Lemma demo_loads_new_nodes (existing_nodes : gset Node) (names : Files) :
  1 ∉ existing_nodes →
  loads_new_nodes existing_nodes names demo_readNodeFile.
Proof.
  intros Hnew. unfold demo_readNodeFile. split.
  - intros f n _. destruct (String.eqb f "b.osg"); [|done].
    by intros [= <-].
  - intros f g n _ _.
    destruct (String.eqb f "b.osg") eqn:Hf; [|done].
    destruct (String.eqb g "b.osg") eqn:Hg; [|done].
    apply String.eqb_eq in Hf, Hg. congruence.
Qed.

Lemma demo_newFiles_nonempty : demo_newFiles ≠ ∅.
Proof. refine (bool_decide_unpack _ _). by vm_compute. Qed.

Lemma demo_opened_reachable :
  reachable (field_ops := word_fields) demo_children demo_opened.
Proof.
  apply reachable_initial. apply initial_open.
  apply demo_loads_new_nodes. refine (bool_decide_unpack _ _). by vm_compute.
Qed.

Lemma demo_read_step :
  step (field_ops := word_fields) demo_opened L_read demo_read.
Proof. apply (step_read demo_opened false demo_master); reflexivity. Qed.

Lemma demo_lock_diff_step :
  step (field_ops := word_fields) demo_read L_lock_diff demo_diff_locked.
Proof. apply (step_lock_diff demo_read demo_files); reflexivity. Qed.

Lemma demo_diff_step :
  step (field_ops := word_fields) demo_diff_locked L_diff demo_diffed.
Proof. apply (step_diff demo_diff_locked demo_files); reflexivity. Qed.

Lemma demo_diff_locked_reachable :
  reachable (field_ops := word_fields) demo_children demo_diff_locked.
Proof.
  eapply reachable_step; [|apply demo_lock_diff_step].
  eapply reachable_step; [|apply demo_read_step].
  apply demo_opened_reachable.
Qed.

Lemma demo_diffed_reachable :
  reachable (field_ops := word_fields) demo_children demo_diffed.
Proof.
  eapply reachable_step; [|apply demo_diff_step].
  apply demo_diff_locked_reachable.
Qed.

Lemma demo_load_step :
  step (field_ops := word_fields) demo_diffed L_load demo_loaded.
Proof.
  apply (step_load demo_diffed demo_newFiles demo_removedFiles 0
           (λ _, false) demo_readNodeFile _ demo_loading).
  - reflexivity.
  - apply demo_newFiles_nonempty.
  - apply demo_loads_new_nodes. refine (bool_decide_unpack _ _).
    by vm_compute.
  - reflexivity.
  - reflexivity.
  - by vm_compute.
Qed.

Lemma demo_load_barrier_step :
  step (field_ops := word_fields) demo_diffed L_load demo_in_barrier.
Proof.
  apply (step_load_barrier demo_diffed demo_newFiles demo_removedFiles 0
           (λ _, true) demo_readNodeFile _ demo_compiling 0).
  - reflexivity.
  - apply demo_newFiles_nonempty.
  - apply demo_loads_new_nodes. refine (bool_decide_unpack _ _).
    by vm_compute.
  - reflexivity.
  - reflexivity.
  - by vm_compute.
  - reflexivity.
Qed.

Lemma demo_loaded_reachable :
  reachable (field_ops := word_fields) demo_children demo_loaded.
Proof.
  eapply reachable_step; [|apply demo_load_step].
  apply demo_diffed_reachable.
Qed.

Lemma demo_lock_swap_step :
  step (field_ops := word_fields) demo_loaded L_lock_swap demo_swap_locked.
Proof.
  apply (step_lock_swap demo_loaded demo_removedFiles
           (nodesToAdd demo_loading) (compile_threads 0 (λ _, false))).
  - reflexivity.
  - by vm_compute.
  - reflexivity.
Qed.

Lemma demo_updated_reachable :
  reachable (field_ops := word_fields) demo_children demo_updated.
Proof.
  eapply reachable_step;
    [|apply (step_update demo_update_locked); reflexivity].
  eapply reachable_step;
    [|apply (step_lock_update demo_blocked); reflexivity].
  eapply reachable_step; [|apply (step_block demo_swapped); reflexivity].
  eapply reachable_step;
    [|apply (step_swap demo_swap_locked demo_removedFiles
                (nodesToAdd demo_loading) (compile_threads 0 (λ _, false)));
      reflexivity].
  eapply reachable_step; [|apply demo_lock_swap_step].
  apply demo_loaded_reachable.
Qed.

(** After the update the scene holds the old child and the new node, and
    the map the new file. *)
Example demo_updated_scene :
  scene demo_updated = [0; 1] ∧
  map_to_list (_existingFilenameNodeMap (mo demo_updated)) =
    [("b.osg"%string, 1)] ∧
  operatorPc demo_updated = AtStart.
Proof. by vm_compute. Qed.

Lemma demo_in_barrier_reachable :
  reachable (field_ops := word_fields) demo_children demo_in_barrier.
Proof.
  eapply reachable_step; [|apply demo_load_barrier_step].
  apply demo_diffed_reachable.
Qed.

Lemma demo_after_barrier_reachable :
  reachable (field_ops := word_fields) demo_children demo_after_barrier.
Proof.
  eapply reachable_step;
    [|apply (step_pass_barrier demo_arrived demo_removedFiles
               (nodesToAdd demo_compiling) (compile_threads 0 (λ _, true))
               0 (arrive (GraphicsParty 0) demo_barrier));
      [reflexivity|by vm_compute|by vm_compute]].
  eapply reachable_step;
    [|apply (step_run_barrier demo_compiled 0 0 [] demo_barrier);
      [reflexivity|by vm_compute|by vm_compute]].
  eapply reachable_step;
    [|apply (step_run_compile demo_in_barrier 0 1 [BarrierOperation 0]);
      [reflexivity|by vm_compute]].
  apply demo_in_barrier_reachable.
Qed.

(** When the operation thread is through the barrier, graphics thread 0 has
    compiled the node about to be handed off and its queue is empty. *)
Example demo_after_barrier_compiled :
  elements (compiled demo_after_barrier) = [(0, 1)] ∧
  threadQueues demo_after_barrier !!! 0 = [] ∧
  map_to_list (nodesToAdd demo_compiling) = [("b.osg"%string, 1)].
Proof. by vm_compute. Qed.

(** ** The claims on the run *)

Lemma diff_computed_under_mutex_witness :
  reachable (field_ops := word_fields) demo_children demo_diff_locked ∧
  operatorPc demo_diff_locked = DiffLocked demo_files ∧
  step (field_ops := word_fields) demo_diff_locked L_diff demo_diffed ∧
  (read_from_master_file (field_ops := word_fields) demo_files ∧
   _mutex demo_diff_locked = Some OperationThread ∧
   mo demo_diffed = mo demo_diff_locked ∧
   (operator_label L_diff →
      L_diff = L_diff ∧
      _mutex demo_diffed = None ∧
      operatorPc demo_diffed =
        AfterDiff
          (demo_files ∖ dom (_existingFilenameNodeMap (mo demo_diff_locked)))
          (dom (_existingFilenameNodeMap (mo demo_diff_locked)) ∖
           demo_files))).
Proof.
  refine (conj demo_diff_locked_reachable
            (conj eq_refl (conj demo_diff_step _))).
  exact (diff_computed_under_mutex (field_ops := word_fields)
           demo_children demo_diff_locked demo_diffed L_diff demo_files
           demo_diff_locked_reachable eq_refl demo_diff_step).
Defined.


Lemma barrier_before_hand_off_witness :
  reachable (field_ops := word_fields) demo_children demo_diffed ∧
  step (field_ops := word_fields) demo_diffed L_load demo_in_barrier ∧
  (operator_label L_load →
     L_load = L_load ∧
     demo_removedFiles = demo_removedFiles ∧
     compile_threads 0 (λ _, true) ≠ [] ∧
     nodesToAdd demo_compiling ≠ ∅ ∧
     barriers demo_diffed !! 0 = None ∧
     barriers demo_in_barrier !! 0 =
       Some {| numThreads := length (compile_threads 0 (λ _, true)) + 1;
               arrived := [OperationParty] |} ∧
     _barrier demo_in_barrier = Some 0 ∧
     mo demo_in_barrier = mo demo_diffed ∧
     (∀ gt, gt ∈ compile_threads 0 (λ _, true) →
        ∃ compiles,
          threadQueues demo_in_barrier !!! gt =
            threadQueues demo_diffed !!! gt ++ compiles ++
            [BarrierOperation 0] ∧
          ∀ f n, nodesToAdd demo_compiling !! f = Some n →
                 GLObjectsOperation n ∈ compiles) ∧
     (∀ gt, gt ∉ compile_threads 0 (λ _, true) →
        threadQueues demo_in_barrier !!! gt =
          threadQueues demo_diffed !!! gt)).
Proof.
  refine (conj demo_diffed_reachable (conj demo_load_barrier_step _)).
  exact (barrier_before_hand_off (field_ops := word_fields)
           demo_children demo_diffed demo_in_barrier L_load
           demo_diffed_reachable demo_load_barrier_step).
Defined.

Lemma scene_and_map_in_step_witness :
  reachable (field_ops := word_fields) demo_children demo_updated ∧
  ((∀ f n, _existingFilenameNodeMap (mo demo_updated) !! f = Some n →
           n ∈ scene demo_updated) ∧
   (∃ added,
      scene demo_updated = demo_children ++ added ∧
      NoDup added ∧
      ∀ n, n ∈ added →
        (n ∉ demo_children) ∧
        ∃ f, _existingFilenameNodeMap (mo demo_updated) !! f = Some n ∧
             ∀ g, _existingFilenameNodeMap (mo demo_updated) !! g = Some n →
                  g = f) ∧
   (¬ pending_empty demo_updated → handed_off demo_updated) ∧
   (∀ l s', step (field_ops := word_fields) demo_updated l s' →
      (l = L_update → pending_empty s') ∧
      (pending_empty demo_updated → ¬ pending_empty s' → l = L_swap))).
Proof.
  refine (conj demo_updated_reachable _).
  exact (scene_and_map_in_step (field_ops := word_fields)
           demo_children demo_updated demo_updated_reachable).
Defined.

(** * Further properties *)

(** ** More on readMasterFile *)

Section MasterFileEntries.
Context {Field : Type} {field_ops : FieldOps Field}.

Lemma size_list_to_set_le (l : list string) :
  size (list_to_set l : Files) ≤ length l.
Proof.
  induction l as [|x l IH]; [cbn [list_to_set length]; by rewrite size_empty|].
  cbn [list_to_set length].
  rewrite size_union_alt, size_singleton.
  assert (size (list_to_set l ∖ {[x]} : Files) ≤
          size (list_to_set l : Files)).
  { apply subseteq_size. set_solver. }
  lia.
Qed.

Lemma parsed_entries_cons (f0 f1 : Field) (fr2 : list Field) :
  parsed_entries (f0 :: f1 :: fr2) =
    if matchSequence_file_s f0 f1 || matchSequence_file_w f0 f1
    then getStr f1 :: parsed_entries fr2
    else parsed_entries (f1 :: fr2).
Proof. reflexivity. Qed.

Lemma parsed_entries_pairs (fr : list Field) :
  (∀ name, name ∈ parsed_entries fr →
     ∃ i f0 f1,
       fr !! i = Some f0 ∧ fr !! S i = Some f1 ∧
       matchWord f0 "file" = true ∧
       (isQuotedString f1 || isWord f1) = true ∧
       getStr f1 = name) ∧
  2 * length (parsed_entries fr) ≤ length fr.
Proof.
  assert (Hboth :
    ∀ n fr, length fr ≤ n →
      (∀ name, name ∈ parsed_entries fr →
         ∃ i f0 f1,
           fr !! i = Some f0 ∧ fr !! S i = Some f1 ∧
           matchWord f0 "file" = true ∧
           (isQuotedString f1 || isWord f1) = true ∧
           getStr f1 = name) ∧
      2 * length (parsed_entries fr) ≤ length fr).
  { clear fr. induction n as [|n IH]; intros fr Hlen.
    - destruct fr as [|f0 fr1]; [|cbn in Hlen; lia].
      split; [intros name Hin; cbn in Hin; by apply elem_of_nil in Hin|].
      cbn. lia.
    - destruct fr as [|f0 [|f1 fr2]].
      + split; [intros name Hin; cbn in Hin; by apply elem_of_nil in Hin|].
        cbn. lia.
      + split; [intros name Hin; cbn in Hin; by apply elem_of_nil in Hin|].
        cbn. lia.
      + rewrite parsed_entries_cons.
        destruct (matchSequence_file_s f0 f1 || matchSequence_file_w f0 f1)
          eqn:Hmatch.
        * destruct (IH fr2) as [IHin IHlen]; [cbn in Hlen; lia|].
          split; [|cbn; lia].
          intros name Hin. apply elem_of_cons in Hin as [->|Hin].
          -- exists 0, f0, f1. split_and!; try done.
             ++ unfold matchSequence_file_s, matchSequence_file_w in Hmatch.
                destruct (matchWord f0 "file"); [done|].
                by cbn in Hmatch.
             ++ unfold matchSequence_file_s, matchSequence_file_w in Hmatch.
                destruct (matchWord f0 "file"); [|by cbn in Hmatch].
                by cbn in Hmatch.
          -- destruct (IHin name Hin) as (i & g0 & g1 & H0 & H1 & Hw & Hs & Hn).
             exists (S (S i)), g0, g1. by split_and!.
        * destruct (IH (f1 :: fr2)) as [IHin IHlen]; [cbn in Hlen |- *; lia|].
          split; [|cbn [length] in IHlen |- *; lia].
          intros name Hin.
          destruct (IHin name Hin) as (i & g0 & g1 & H0 & H1 & Hw & Hs & Hn).
          exists (S i), g0, g1. by split_and!. }
  apply (Hboth (length fr)). lia.
Qed.

(** X1: when the master file can be opened and holds at least one
    [file <name>] entry, [readMasterFile] returns [true] whatever the
    uninitialised local held, and [files] gains exactly the names of the
    entries: what it held before stays. *)
Theorem readMasterFile_with_entry (indeterminate : bool) (fr : list Field)
    (files : Files) :
  parsed_entries fr ≠ [] →
  readMasterFile indeterminate (Some fr) files =
    (true, list_to_set (parsed_entries fr) ∪ files) ∧
  files ⊆ (readMasterFile indeterminate (Some fr) files).2.
Proof.
  intros Hne.
  assert (Heq : readMasterFile indeterminate (Some fr) files =
                  (true, list_to_set (parsed_entries fr) ∪ files)).
  { unfold readMasterFile. rewrite read_fields_spec.
    by destruct (decide (parsed_entries fr = [])). }
  split; [done|]. rewrite Heq. cbn. set_solver.
Qed.

(** X2: every name [readMasterFile] puts into an empty set is the string of
    a field that comes right after a field matching the word [file] and
    that is a quoted string or a word; and an entry uses up its two fields,
    so there are at most half as many names as fields. *)
Theorem readMasterFile_entries_are_file_pairs (indeterminate : bool)
    (fr : list Field) :
  (∀ name, name ∈ (readMasterFile indeterminate (Some fr) ∅).2 →
     ∃ i f0 f1,
       fr !! i = Some f0 ∧ fr !! S i = Some f1 ∧
       matchWord f0 "file" = true ∧
       (isQuotedString f1 || isWord f1) = true ∧
       getStr f1 = name) ∧
  2 * size (readMasterFile indeterminate (Some fr) ∅).2 ≤ length fr.
Proof.
  rewrite readMasterFile_files.
  destruct (parsed_entries_pairs fr) as [Hpairs Hlen].
  split.
  - intros name Hin. apply Hpairs. set_solver.
  - etrans; [|exact Hlen].
    apply Nat.mul_le_mono_l.
    rewrite (right_id_L ∅ (∪)).
    apply size_list_to_set_le.
Qed.

(** X3: the set [readMasterFile] fills does not depend on what the
    uninitialised local held, and neither does [open], which drops the
    value returned. *)
Theorem readMasterFile_set_ignores_uninitialised (b b' : bool)
    (fin : option (list Field)) (files : Files)
    (readNodeFile : string → option Node) {G : Type}
    {scene_group : SceneGroup G} (group : G) (m : MasterOperation) :
  (readMasterFile b fin files).2 = (readMasterFile b' fin files).2 ∧
  open b fin readNodeFile group m = open b' fin readNodeFile group m.
Proof.
  assert (Hfiles : ∀ fs, (readMasterFile b fin fs).2 =
                         (readMasterFile b' fin fs).2).
  { intros fs. destruct fin as [fr|]; [|done].
    by rewrite !readMasterFile_files. }
  split; [apply Hfiles|].
  unfold open. by rewrite (Hfiles ∅).
Qed.

End MasterFileEntries.

(** ** One cycle of the operation thread and the merge that follows it *)

(** X4: the diff of [operator()] splits the names: a new file is no
    removed file and no key of the map, a removed file is a key of the map
    and not in the master file, the keys that stay together with the new
    files are the names of the master file, and nothing is new or removed
    exactly when the keys of the map are the names of the master file. *)
Theorem diff_splits_the_names (existing : FilenameNodeMap) (files : Files) :
  let newFiles := find_new_files existing files in
  let removedFiles := find_removed_files existing files in
  newFiles ## removedFiles ∧
  newFiles ## dom existing ∧
  removedFiles ⊆ dom existing ∧
  newFiles ⊆ files ∧
  removedFiles ## files ∧
  (dom existing ∖ removedFiles) ∪ newFiles = files ∧
  (newFiles = ∅ ∧ removedFiles = ∅ ↔ dom existing = files).
Proof.
  cbn zeta. rewrite find_new_files_spec, find_removed_files_spec.
  split_and!; try set_solver.
  - apply set_eq. intros x.
    destruct (decide (x ∈ dom existing)); destruct (decide (x ∈ files));
      set_solver.
  - split.
    + intros [Hnew Hremoved]. apply set_eq. intros x.
      destruct (decide (x ∈ dom existing)); destruct (decide (x ∈ files));
        set_solver.
    + intros <-. set_solver.
Qed.

Lemma StronglySorted_filter_lt (P : nat → Prop) `{∀ i, Decision (P i)}
    (l : list nat) :
  StronglySorted lt l → StronglySorted lt (filter P l).
Proof.
  induction 1 as [|x l Hsorted IH Hall]; [constructor|].
  rewrite filter_cons. destruct (decide (P x)); [|done].
  constructor; [done|].
  apply Forall_forall. intros y Hy. apply list_elem_of_filter in Hy as [_ Hy].
  by eapply Forall_forall in Hall.
Qed.

Lemma StronglySorted_seq (start len : nat) :
  StronglySorted lt (seq start len).
Proof.
  revert start. induction len as [|len IH]; intros start; [constructor|].
  cbn. constructor; [apply IH|].
  apply Forall_forall. intros y Hy. apply elem_of_seq in Hy. lia.
Qed.

(** X5: the graphics threads [operator()] collects come by strictly
    increasing context id, there are at most [getMaxContextID() + 1] of
    them, and there is none exactly when no context up to
    [getMaxContextID()] has a compile thread. *)
Theorem compile_threads_ascending (getMaxContextID : nat)
    (compileThread : nat → bool) :
  StronglySorted lt (compile_threads getMaxContextID compileThread) ∧
  length (compile_threads getMaxContextID compileThread) ≤
    S getMaxContextID ∧
  (compile_threads getMaxContextID compileThread = [] ↔
     ∀ i, i ≤ getMaxContextID → compileThread i = false).
Proof.
  split_and!.
  - apply StronglySorted_filter_lt, StronglySorted_seq.
  - unfold compile_threads. etrans; [apply length_filter|].
    by rewrite length_seq.
  - split.
    + intros Hnil i Hi. destruct (compileThread i) eqn:Hct; [|done].
      assert (Hin : i ∈ compile_threads getMaxContextID compileThread)
        by by apply elem_of_compile_threads.
      rewrite Hnil in Hin. by apply elem_of_nil in Hin.
    + intros Hnone.
      destruct (compile_threads getMaxContextID compileThread) as [|i l]
        eqn:Hthreads; [done|].
      assert (Hin : i ∈ compile_threads getMaxContextID compileThread)
        by (rewrite Hthreads; left).
      apply elem_of_compile_threads in Hin as [Hle Hct].
      rewrite (Hnone i Hle) in Hct. done.
Qed.

Section Cycle.
Context {G : Type} {scene_group : SceneGroup G}.

Lemma update_twice (scene : G) (m : MasterOperation) :
  update (update scene m).1 (update scene m).2 = update scene m.
Proof.
  unfold update at 1. cbn [_nodesToRemove _nodesToAdd
    _existingFilenameNodeMap].
  unfold update at 3 4 5.
  cbn [_nodesToRemove _nodesToAdd _existingFilenameNodeMap fst snd].
  rewrite !decide_True by done. done.
Qed.

Lemma update_nothing_to_merge (scene : G) (m : MasterOperation) :
  _nodesToRemove m = ∅ → _nodesToAdd m = ∅ → update scene m = (scene, m).
Proof.
  intros Hremove Hadd. unfold update.
  rewrite !decide_True by done. destruct m as [existing toRemove toAdd].
  cbn in *. by subst.
Qed.

(** X7: after a cycle of [operator()] on the names [files] and the
    [update] that merges its hand-off (or no hand-off, when there is nothing
    to hand off), the map holds under every name of [files] the node it
    held, or else the node just loaded, and nothing under any other name;
    so no file is then removed, and the files still new are those whose
    load failed, which the next cycle tries again. *)
Theorem cycle_follows_master_file (scene : G) (m : MasterOperation)
    (files : Files) (readNodeFile : string → option Node)
    (threads : list nat) (qs : Queues) :
  let existing := _existingFilenameNodeMap m in
  let newFiles := find_new_files existing files in
  let removedFiles := find_removed_files existing files in
  let nodesToAdd :=
    nodesToAdd (load_new_files readNodeFile threads newFiles qs) in
  let merged :=
    if requiresBlock removedFiles nodesToAdd
    then _existingFilenameNodeMap
           (update scene (hand_off removedFiles nodesToAdd m)).2
    else existing in
  (∀ k, merged !! k =
        if decide (k ∈ files)
        then match existing !! k with
             | Some n => Some n
             | None => readNodeFile k
             end
        else None) ∧
  dom merged ⊆ files ∧
  find_removed_files merged files = ∅ ∧
  (∀ f, f ∈ find_new_files merged files ↔
        f ∈ files ∧ existing !! f = None ∧ readNodeFile f = None).
Proof.
  intros existing newFiles removedFiles nodesToAdd merged.
  assert (Hmerged :
    ∀ k, merged !! k =
         if decide (k ∈ files)
         then match existing !! k with
              | Some n => Some n
              | None => readNodeFile k
              end
         else None).
  { intros k.
    assert (Hadd : nodesToAdd !! k =
                   if decide (k ∈ newFiles) then readNodeFile k else None)
      by apply load_new_files_nodesToAdd.
    assert (Hnew : k ∈ newFiles ↔ k ∈ files ∧ existing !! k = None)
      by apply elem_of_find_new_files.
    assert (Hremoved : k ∈ removedFiles ↔
                       is_Some (existing !! k) ∧ k ∉ files)
      by apply elem_of_find_removed_files.
    subst merged. destruct (requiresBlock removedFiles nodesToAdd) eqn:Hblock.
    - rewrite update_map.
      cbn [hand_off _nodesToAdd _nodesToRemove _existingFilenameNodeMap].
      fold existing. rewrite Hadd.
      destruct (decide (k ∈ newFiles)) as [Hin|Hnotin].
      + apply Hnew in Hin as [Hfiles Hnone].
        rewrite (decide_True (P := k ∈ files)) by done. rewrite Hnone.
        destruct (readNodeFile k); [done|].
        destruct (decide (k ∈ removedFiles)) as [Hrem|Hrem]; done.
      + destruct (decide (k ∈ removedFiles)) as [Hrem|Hnotrem].
        * apply Hremoved in Hrem as [_ Hfiles].
          by rewrite (decide_False (P := k ∈ files)).
        * destruct (decide (k ∈ files)) as [Hfiles|Hfiles].
          -- destruct (existing !! k) eqn:Hk; [done|].
             destruct Hnotin. by apply Hnew.
          -- destruct (existing !! k) eqn:Hk; [|done].
             destruct Hnotrem. apply Hremoved. by split; [eexists|].
    - assert (Hempty : removedFiles = ∅ ∧ nodesToAdd = ∅).
      { destruct (decide (removedFiles = ∅)) as [Hr|Hr];
          destruct (decide (nodesToAdd = ∅)) as [Ha|Ha]; try done.
        all: assert (requiresBlock removedFiles nodesToAdd = true)
          by (apply requiresBlock_true; auto); congruence. }
      destruct Hempty as [Hr Ha].
      rewrite Ha, lookup_empty in Hadd. rewrite Hr in Hremoved.
      destruct (decide (k ∈ files)) as [Hfiles|Hfiles].
      + destruct (existing !! k) eqn:Hk; [done|].
        rewrite decide_True in Hadd by by apply Hnew. done.
      + destruct (existing !! k) eqn:Hk; [|done].
        exfalso. eapply (not_elem_of_empty (C := Files)).
        apply Hremoved. by split; [eexists|]. }
  assert (Hdom : dom merged ⊆ files).
  { intros k [n Hk]%elem_of_dom. rewrite Hmerged in Hk.
    by destruct (decide (k ∈ files)). }
  split_and!; [done|done| |].
  - rewrite find_removed_files_spec. set_solver.
  - intros f. rewrite elem_of_find_new_files, Hmerged.
    destruct (decide (f ∈ files)) as [Hfiles|Hfiles]; [|naive_solver].
    destruct (existing !! f); naive_solver.
Qed.

End Cycle.

(** X8: when the master file cannot be opened, or holds no entry, the
    cycle finds every key of the map removed and nothing new, and the
    [update] that merges the hand-off takes every loaded model out: the
    scene is back to the children it had without the operation, and the
    map is empty. *)
Theorem empty_master_file_unloads_all {Field : Type}
    {field_ops : FieldOps Field} (indeterminate : bool)
    (fin : option (list Field)) (children added : list Node)
    (m : MasterOperation) :
  (readMasterFile indeterminate fin ∅).2 = ∅ →
  NoDup added →
  (∀ n, n ∈ added → n ∉ children) →
  (∀ n, n ∈ added ↔ ∃ f, _existingFilenameNodeMap m !! f = Some n) →
  one_key_per_node (_existingFilenameNodeMap m) →
  let files := (readMasterFile indeterminate fin ∅).2 in
  let newFiles := find_new_files (_existingFilenameNodeMap m) files in
  let removedFiles := find_removed_files (_existingFilenameNodeMap m) files in
  (readMasterFile indeterminate (None : option (list Field)) ∅).2 = ∅ ∧
  newFiles = ∅ ∧
  removedFiles = dom (_existingFilenameNodeMap m) ∧
  update (children ++ added) (hand_off removedFiles ∅ m) =
    (children, new_MasterOperation).
Proof.
  intros Hfiles Hnodup Hfresh Hadded Hone files newFiles removedFiles.
  assert (Hnew : newFiles = ∅).
  { subst newFiles files. rewrite find_new_files_spec, Hfiles. set_solver. }
  assert (Hremoved : removedFiles = dom (_existingFilenameNodeMap m)).
  { subst removedFiles files. rewrite find_removed_files_spec, Hfiles.
    set_solver. }
  split_and!; [done|done|done|].
  set (m' := hand_off removedFiles ∅ m).
  destruct (update_keeps_scene_and_map children (children ++ added) added m')
    as (added' & Hscene & _ & _ & Hadded' & _ & _); try done.
  assert (Hmap :
    _existingFilenameNodeMap (update (children ++ added) m').2 = ∅).
  { apply map_eq. intros k. rewrite update_map, lookup_empty.
    subst m'. cbn [hand_off _nodesToAdd _nodesToRemove
                   _existingFilenameNodeMap].
    rewrite lookup_empty, Hremoved.
    destruct (decide (k ∈ dom (_existingFilenameNodeMap m))) as [|Hnot];
      [done|].
    by apply not_elem_of_dom. }
  assert (Hnil : added' = []).
  { destruct added' as [|n l]; [done|].
    destruct (proj1 (Hadded' n)) as [f Hf]; [left|].
    by rewrite Hmap, lookup_empty in Hf. }
  rewrite Hnil, (right_id_L [] (++)) in Hscene.
  destruct (update (children ++ added) m') as [sc mo'] eqn:Hupd.
  cbn [fst snd] in *. subst sc. f_equal.
  assert (Hpending : _nodesToRemove mo' = ∅ ∧ _nodesToAdd mo' = ∅).
  { assert (mo' = (update (children ++ added) m').2) as -> by by rewrite Hupd.
    done. }
  destruct mo' as [e r a]. destruct Hpending as [Hr Ha]. cbn in *.
  by subst.
Qed.

(** ** The threads: what else holds along every run *)

Section MoreThreadProperties.
Context {Field : Type} {field_ops : FieldOps Field}.

(** X9: in every state the threads reach, [_mutex] is held by the operation
    thread exactly while [operator()] is inside one of its two scoped
    locks, by the main thread exactly while [update] is inside its own, and
    by nobody otherwise; the two threads are never inside at once. *)
Theorem mutex_held_inside_scoped_locks (children : list Node) (s : System) :
  reachable children s →
  (_mutex s = Some OperationThread ↔
     operator_locked (operatorPc s) = true) ∧
  (_mutex s = Some MainThread ↔ updatePc s = UpdateLocked) ∧
  (_mutex s = None ↔
     operator_locked (operatorPc s) = false ∧ updatePc s = OutsideUpdate) ∧
  ¬ (operator_locked (operatorPc s) = true ∧ updatePc s = UpdateLocked).
Proof.
  intros [Hmutex Hexcl]%mutex_invariant_reachable.
  destruct (operator_locked (operatorPc s)) eqn:Hlocked.
  - specialize (Hexcl eq_refl). rewrite Hmutex, Hexcl.
    split_and!; try (split; intros; done || congruence).
    + split; [done|]. by intros [? _].
    + by intros [_ ?].
  - rewrite Hmutex. destruct (updatePc s);
      split_and!; try (split; intros; done || congruence).
    + by intros [? _].
    + split; [done|]. by intros [_ ?].
    + by intros [? _].
Qed.

(** X6: a call of [update(scene)] takes [_mutex], merges what is pending,
    leaves nothing pending, frees [_mutex] again, leaves [_barrier] alone,
    and with its [_updatesMergedBlock.release()] lets a thread that waits
    in [block()] go on.  A call that finds nothing pending changes nothing
    else: not the scene, not one of the three containers.  And a second
    call right after the first leaves the whole state as the first left
    it. *)
Theorem update_idempotent (s s1 s2 : System) :
  step s L_lock_update s1 →
  step s1 L_update s2 →
  (scene s2, mo s2) = update (scene s) (mo s) ∧
  pending_empty s2 ∧
  operatorPc s2 = release_block (operatorPc s) ∧
  _mutex s1 = Some MainThread ∧
  _mutex s2 = None ∧
  _barrier s2 = _barrier s ∧
  (pending_empty s →
   s2 = set_operatorPc (release_block (operatorPc s)) s) ∧
  (∀ s3 s4, step s2 L_lock_update s3 → step s3 L_update s4 → s4 = s2).
Proof.
  intros Hlock Hupdate.
  destruct s as [m mu br sc pc upc dn qs ib bs cp al]. system_simpl.
  step_cases Hlock. step_cases Hupdate.
  split_and!; try done.
  - intros [Hremove Hadd]. system_simpl. unfold set_updatePc. system_simpl.
    by rewrite (update_nothing_to_merge sc m Hremove Hadd).
  - intros s3 s4 Hlock' Hupdate'.
    step_cases Hlock'. step_cases Hupdate'.
    rewrite update_twice. by destruct pc.
Qed.

(** X10: each member has its writers.  The scene and
    [_existingFilenameNodeMap] are changed by the merge of [update] alone,
    and not by it when nothing is pending; [_nodesToRemove] and
    [_nodesToAdd] by that merge and the swap of [operator()] alone;
    [_barrier] by the loading step of [operator()], which leaves it or sets
    it to a barrier made for the cycle (line 198), and by [release()],
    which sets it to null (line 285), alone; [_mutex] by the steps that
    take or end a scoped lock alone; and the wait of a thread in
    [_updatesMergedBlock.block()] is ended by [update] and [release()]
    alone. *)
Theorem each_member_has_its_writers (s s' : System) (l : Label) :
  step s l s' →
  (l ≠ L_update →
     scene s' = scene s ∧
     _existingFilenameNodeMap (mo s') = _existingFilenameNodeMap (mo s)) ∧
  (l = L_update → pending_empty s →
     scene s' = scene s ∧
     _existingFilenameNodeMap (mo s') = _existingFilenameNodeMap (mo s)) ∧
  (l ≠ L_update → l ≠ L_swap →
     _nodesToRemove (mo s') = _nodesToRemove (mo s) ∧
     _nodesToAdd (mo s') = _nodesToAdd (mo s)) ∧
  (l ≠ L_load → l ≠ L_release → _barrier s' = _barrier s) ∧
  (l = L_load →
     _barrier s' = _barrier s ∨
     ∃ barrier, _barrier s' = Some barrier ∧ barriers s !! barrier = None) ∧
  (l = L_release → _barrier s' = None) ∧
  (l ∉ [L_lock_diff; L_diff; L_lock_swap; L_swap; L_lock_update; L_update] →
     _mutex s' = _mutex s) ∧
  (l ≠ L_update → l ≠ L_release →
     operatorPc s = InBlock → operatorPc s' = InBlock).
Proof.
  intros Hstep.
  destruct s as [m mu br sc pc upc dn qs ib bs cp al]. system_simpl.
  step_cases Hstep; split_and!; try done;
    try (by intros []; set_solver); try (by left).
  intros _ [Hremove Hadd]. system_simpl.
  by apply update_nothing_pending.
Qed.

Lemma cancelled_step (s s' : System) (l : Label) :
  step s l s' →
  done s = true →
  done s' = true ∧
  l ≠ L_read ∧
  (if decide (operator_label l) then 1 else 0) + steps_left (operatorPc s') ≤
    steps_left (operatorPc s).
Proof.
  intros Hstep Hdone.
  destruct s as [m mu br sc pc upc dn qs ib bs cp al]. system_simpl.
  step_cases Hstep; split_and!; try done; cbn; try lia;
    case_decide; try done; try lia.
  all: destruct pc; cbn; lia.
Qed.

(** X11: a cancelled operation thread comes to rest.  Along every run
    from a state in which the thread has been cancelled it stays cancelled,
    the master file is not read again, and the thread makes no more steps
    of its own than are left of the cycle it is in, seven at most, and none
    when it was at the start of a cycle or waited in
    [_updatesMergedBlock.block()]. *)
Theorem cancelled_thread_comes_to_rest (s s' : System) (ls : list Label) :
  run s ls s' →
  done s = true →
  done s' = true ∧
  (L_read ∉ ls) ∧
  length (filter operator_label ls) + steps_left (operatorPc s') ≤
    steps_left (operatorPc s) ∧
  steps_left (operatorPc s) ≤ 7.
Proof.
  intros Hrun Hdone.
  split_and!; [| | |by destruct (operatorPc s); cbn; lia].
  all: induction Hrun as [s|s l s1 ls s2 Hstep Hrun IH]; [by try set_solver|].
  all: destruct (cancelled_step _ _ _ Hstep Hdone) as (Hdone1 & Hl & Hleft).
  all: specialize (IH Hdone1).
  - done.
  - set_solver.
  - rewrite filter_cons. destruct (decide (operator_label l)); cbn [length];
      lia.
Qed.

Lemma removals_invariant_step (children : list Node) (s s' : System)
    (l : Label) :
  scene_invariant children s →
  removals_invariant s → step s l s' → removals_invariant s'.
Proof.
  unfold removals_invariant.
  intros (_ & _ & _ & _ & _ & Hpending) [Hremove Hlocals] Hstep.
  destruct Hstep as
    [ s indeterminate fin Hpc Hdone
    | s files Hpc Hmutex
    | s files Hpc
    | s removedFiles Hpc
    | s newFiles removedFiles getMaxContextID compileThread readNodeFile
        threads loading Hpc Hne Hfresh Hthreads Hloading Hbarrier
    | s newFiles removedFiles getMaxContextID compileThread readNodeFile
        threads loading barrier Hpc Hne Hfresh Hthreads Hloading Hbarrier
        Hnew
    | s removedFiles nodesToAdd threads barrier b Hpc Hb Hopen
    | s removedFiles nodesToAdd threads Hpc Hblock
    | s removedFiles nodesToAdd threads Hpc Hblock Hmutex
    | s removedFiles nodesToAdd threads Hpc
    | s Hpc
    | s Hupc Hmutex
    | s Hupc
    | s
    | s gt subgraph rest Hwait Hqueue
    | s gt barrier rest b Hwait Hqueue Hb
    | s gt barrier b Hwait Hb Hopen ];
    system_simpl; try rewrite Hpc in *; system_simpl;
    try (split; done).
  - (* diff *)
    split; [done|]. rewrite find_removed_files_spec. set_solver.
  - (* update *)
    split; [cbn; set_solver|].
    destruct Hpending as [Hhanded|[Hr Ha]].
    + destruct Hhanded as [Hpc|[Hpc|[Hpc _]]]; system_simpl;
        rewrite Hpc; by system_simpl.
    + destruct (update_nothing_pending (scene s) (mo s) Hr Ha) as [_ ->].
      by destruct (operatorPc s).
  - (* release *)
    split; [done|]. by destruct (operatorPc s).
Qed.

Lemma removals_invariant_reachable (children : list Node) (s : System) :
  reachable children s → removals_invariant s.
Proof.
  apply reachable_invariant.
  - intros s0 Hinit.
    destruct Hinit as [indeterminate fin readNodeFile Hloads].
    split; [|done]. cbn [mo].
    destruct (open_pending indeterminate fin readNodeFile children)
      as [-> _].
    set_solver.
  - intros s1 l s2 Hreach Hinv Hstep.
    eapply removals_invariant_step; [|done..].
    by apply scene_invariant_reachable.
Qed.

(** X12: in every state the threads reach, every name in [_nodesToRemove]
    is a key of [_existingFilenameNodeMap], so the [find] of [update] always
    succeeds and [update] removes one child for every name; and no name in
    [_nodesToAdd] is a key of the map or named for removal, nor is its node
    in the scene, so [update] never overwrites an entry. *)
Theorem update_guards_never_fail (children : list Node) (s : System) :
  reachable children s →
  (∀ f, f ∈ _nodesToRemove (mo s) →
        is_Some (_existingFilenameNodeMap (mo s) !! f)) ∧
  (∀ f n, _nodesToAdd (mo s) !! f = Some n →
          _existingFilenameNodeMap (mo s) !! f = None ∧ n ∉ scene s) ∧
  (∀ f, f ∈ _nodesToRemove (mo s) → _nodesToAdd (mo s) !! f = None) ∧
  length (removed_nodes (mo s)) = size (_nodesToRemove (mo s)).
Proof.
  intros Hreach.
  destruct (removals_invariant_reachable _ _ Hreach) as [Hremove _].
  destruct (scene_invariant_reachable _ _ Hreach)
    as (_ & _ & _ & [_ Hadd] & _ & _).
  assert (Hknown : ∀ f, f ∈ _nodesToRemove (mo s) →
                        is_Some (_existingFilenameNodeMap (mo s) !! f)).
  { intros f Hf. apply elem_of_dom. by apply Hremove. }
  split_and!.
  - done.
  - intros f n Hf. destruct (Hadd f n Hf) as (? & _ & ?). done.
  - intros f Hf. destruct (_nodesToAdd (mo s) !! f) as [n|] eqn:Hn; [|done].
    destruct (Hadd f n Hn) as (Hnone & _). destruct (Hknown f Hf) as [? ?].
    congruence.
  - unfold removed_nodes.
    change (size (_nodesToRemove (mo s)))
      with (length (elements (_nodesToRemove (mo s)))).
    rewrite <- (Permutation_length (files_in_order_perm _)).
    assert (Hall : ∀ l : list string,
              (∀ f, f ∈ l →
                    is_Some (_existingFilenameNodeMap (mo s) !! f)) →
              length (omap (λ f, _existingFilenameNodeMap (mo s) !! f) l) =
                length l).
    { induction l as [|x l IH]; intros Hl; [done|].
      cbn [omap list_omap]. destruct (Hl x) as [n Hn]; [left|].
      rewrite Hn. cbn [length]. f_equal. apply IH.
      intros f Hf. apply Hl. by right. }
    apply Hall. intros f Hf. apply Hknown. by apply elem_of_files_in_order.
Qed.

(** X13: an operation thread that waits in [_updatesMergedBlock.block()]
    can always be released: the main loop can take [_mutex] (or holds it
    already) and run [update], after which the operation thread is at the
    start of its next cycle, nothing is pending, and scene and operation
    are what [update] made of them. *)
Theorem blocked_thread_released_by_update (children : list Node)
    (s : System) :
  reachable children s →
  operatorPc s = InBlock →
  ∃ s',
    rtc steps s s' ∧
    operatorPc s' = AtStart ∧
    pending_empty s' ∧
    done s' = done s ∧
    (scene s', mo s') = update (scene s) (mo s).
Proof.
  intros Hreach Hpc.
  destruct (mutex_invariant_reachable _ _ Hreach) as [Hmutex _].
  rewrite Hpc in Hmutex. cbn in Hmutex.
  assert (Hfinal : ∀ s1,
            updatePc s1 = UpdateLocked → operatorPc s1 = InBlock →
            scene s1 = scene s → mo s1 = mo s → done s1 = done s →
            rtc steps s s1 →
            ∃ s', rtc steps s s' ∧ operatorPc s' = AtStart ∧
                  pending_empty s' ∧ done s' = done s ∧
                  (scene s', mo s') = update (scene s) (mo s)).
  { intros s1 Hupc1 Hpc1 Hscene1 Hmo1 Hdone1 Hrtc.
    eexists. split.
    - eapply rtc_r; [exact Hrtc|]. exists L_update. by apply step_update.
    - system_simpl. rewrite Hpc1, Hscene1, Hmo1. system_simpl.
      split_and!; try done. }
  destruct (updatePc s) eqn:Hupc.
  - apply (Hfinal (set_updatePc UpdateLocked (set_mutex (Some MainThread) s)));
      try done.
    apply rtc_once. exists L_lock_update. by apply step_lock_update.
  - by apply (Hfinal s).
Qed.

End MoreThreadProperties.

Lemma demo_blocked_reachable :
  reachable (field_ops := word_fields) demo_children demo_blocked.
Proof.
  eapply reachable_step; [|apply (step_block demo_swapped); reflexivity].
  eapply reachable_step;
    [|apply (step_swap demo_swap_locked demo_removedFiles
                (nodesToAdd demo_loading) (compile_threads 0 (λ _, false)));
      reflexivity].
  eapply reachable_step; [|apply demo_lock_swap_step].
  apply demo_loaded_reachable.
Qed.

Lemma length_nodes_of_map (added : list Node) (m : FilenameNodeMap) :
  NoDup added →
  (∀ n, n ∈ added ↔ ∃ f, m !! f = Some n) →
  one_key_per_node m →
  length added = size m.
Proof.
  intros Hnodup Hadded Hone.
  rewrite <- length_map_to_list, <- (length_fmap snd).
  apply Permutation_length, NoDup_Permutation; [done| |].
  - apply NoDup_fmap_2_strong; [|apply NoDup_map_to_list].
    intros [f n] [g n'] Hf Hg Heq. cbn in Heq. subst n'.
    apply elem_of_map_to_list in Hf, Hg. f_equal. by eapply Hone.
  - intros n. rewrite Hadded, list_elem_of_fmap. split.
    + intros [f Hf]. exists (f, n). split; [done|].
      by apply elem_of_map_to_list.
    + intros [[f n'] [-> Hf]]. exists f. by apply elem_of_map_to_list.
Qed.

Section SceneCount.
Context {Field : Type} {field_ops : FieldOps Field}.

(** X14: in every state the threads reach, the scene has as many children
    as it had without the operation plus one for every key of
    [_existingFilenameNodeMap]; no node is under two keys, and no node of
    the map is one of the original children. *)
Theorem scene_has_one_child_per_loaded_file (children : list Node)
    (s : System) :
  reachable children s →
  length (scene s) =
    length children + size (_existingFilenameNodeMap (mo s)) ∧
  (∀ f g n,
     _existingFilenameNodeMap (mo s) !! f = Some n →
     _existingFilenameNodeMap (mo s) !! g = Some n → f = g) ∧
  (∀ f n, _existingFilenameNodeMap (mo s) !! f = Some n → n ∉ children).
Proof.
  intros Hreach.
  destruct (scene_invariant_reachable _ _ Hreach)
    as ((added & Hscene & Hnodup & Hfresh & Hadded) & Hone & _).
  split_and!.
  - rewrite Hscene, length_app. f_equal.
    by apply length_nodes_of_map.
  - exact Hone.
  - intros f n Hf. apply Hfresh, Hadded. by exists f.
Qed.

End SceneCount.

(** ** The waits can end *)

Lemma current_barrier_release (s : System) (pc : OperatorPc) :
  current_barrier (set_operatorPc (release_block pc) s) =
  current_barrier (set_operatorPc pc s).
Proof. by destruct pc. Qed.

Lemma waiting_invariant_frame (s s' : System) :
  (∀ gt, threadQueues s' !!! gt = threadQueues s !!! gt) →
  inBarrier s' = inBarrier s →
  barriers s' = barriers s →
  current_barrier s' = current_barrier s →
  waiting_invariant s → waiting_invariant s'.
Proof.
  intros Hq Hw Hb Hc (Hwait & Hold & Hop).
  unfold waiting_invariant. rewrite Hw, Hb, Hc.
  split_and!; [done| |done].
  intros b Hb'. destruct (Hold b Hb') as [Hqueue Hopen].
  split; [|done]. intros gt. rewrite Hq. apply Hqueue.
Qed.

Section Waiting.
Context {Field : Type} {field_ops : FieldOps Field}.

Lemma reachable_rtc (children : list Node) (s s' : System) :
  reachable children s → rtc steps s s' → reachable children s'.
Proof.
  intros (s0 & Hinit & Hrtc) Hrtc'. exists s0. split; [done|].
  by etrans.
Qed.

Lemma waiting_invariant_step (s s' : System) (l : Label) :
  barrier_invariant s → waiting_invariant s → step s l s' →
  waiting_invariant s'.
Proof.
  intros [Hexist Hat] Hinv Hstep.
  pose proof Hinv as (Hwait & Hold & Hop).
  destruct Hstep as
    [ s indeterminate fin Hpc Hdone
    | s files Hpc Hmutex
    | s files Hpc
    | s removedFiles Hpc
    | s newFiles removedFiles getMaxContextID compileThread readNodeFile
        threads loading Hpc Hne Hfresh Hthreads Hloading Hbarrier
    | s newFiles removedFiles getMaxContextID compileThread readNodeFile
        threads loading barrier Hpc Hne Hfresh Hthreads Hloading Hbarrier
        Hnew
    | s removedFiles nodesToAdd threads barrier b Hpc Hb Hopen
    | s removedFiles nodesToAdd threads Hpc Hblock
    | s removedFiles nodesToAdd threads Hpc Hblock Hmutex
    | s removedFiles nodesToAdd threads Hpc
    | s Hpc
    | s Hupc Hmutex
    | s Hupc
    | s
    | s gt subgraph rest Hrun Hqueue
    | s gt barrier rest b Hrun Hqueue Hb
    | s gt barrier b Hrun Hb Hopen ].
  - (* read *)
    apply (waiting_invariant_frame s); try done.
    unfold current_barrier. system_simpl. by rewrite Hpc.
  - apply (waiting_invariant_frame s); try done.
    unfold current_barrier. system_simpl. by rewrite Hpc.
  - apply (waiting_invariant_frame s); try done.
    unfold current_barrier. system_simpl. by rewrite Hpc.
  - apply (waiting_invariant_frame s); try done.
    unfold current_barrier. system_simpl. by rewrite Hpc.
  - (* load, no barrier *)
    apply (waiting_invariant_frame s); try done.
    + intros gt. system_simpl. subst loading threads.
      apply no_barrier_queues; [apply NoDup_compile_threads|done].
    + unfold current_barrier. system_simpl. by rewrite Hpc.
  - (* load, barrier *)
    assert (Hnd : NoDup threads)
      by (subst threads; apply NoDup_compile_threads).
    assert (Hnone : current_barrier s = None)
      by (unfold current_barrier; by rewrite Hpc).
    unfold waiting_invariant, current_barrier. system_simpl.
    split_and!.
    + intros gt b Hgt. destruct (Hwait gt b Hgt) as (B & HB & Harr).
      exists B. split; [|done].
      rewrite lookup_insert_ne; [done|]. intros <-. congruence.
    + intros b Hb. assert (Hne' : b ≠ barrier) by congruence.
      destruct (Hold b) as [Hqueue Hop']; [by rewrite Hnone|].
      split.
      * intros gt. subst loading.
        rewrite add_barrier_lookup, load_new_files_queues by done.
        rewrite !elem_of_app. intros [[Hin|Hin]|Hin].
        -- by apply (Hqueue gt).
        -- destruct (decide (gt ∈ threads)); [|by apply elem_of_nil in Hin].
           apply list_elem_of_fmap in Hin as (n & [=] & _).
        -- destruct (decide (gt ∈ threads)); [|by apply elem_of_nil in Hin].
           apply list_elem_of_singleton in Hin. congruence.
      * intros gt B Hgt. rewrite lookup_insert_ne by done.
        by apply (Hop' gt).
    + intros b B [= <-]. rewrite lookup_insert_eq. intros [= <-]. cbn.
      by apply list_elem_of_singleton.
  - (* through the barrier *)
    assert (Hcur : current_barrier s = Some barrier)
      by (unfold current_barrier; by rewrite Hpc).
    rewrite Hpc in Hat. cbn [barrier_at] in Hat.
    destruct Hat as (Hnd & b' & Hb' & Hnum & Hnda & Hwho & Hthreads & Hothers).
    assert (b' = b) as -> by congruence.
    unfold waiting_invariant, current_barrier. system_simpl.
    split_and!; [done| |done].
    intros b0 _. destruct (decide (b0 = barrier)) as [->|Hne].
    + split.
      * intros gt. destruct (decide (gt ∈ threads)) as [Hgt|Hgt];
          [|by apply Hothers].
        destruct (Hthreads gt Hgt) as [(_ & _ & Hq)|[Hnot _]]; [done|].
        destruct Hnot.
        by apply (barrier_open_all_arrived threads b gt).
      * intros gt B _ HB. by assert (B = b) as -> by congruence.
    + apply Hold. by rewrite Hcur; intros [= ->].
  - apply (waiting_invariant_frame s); try done.
    unfold current_barrier. system_simpl. by rewrite Hpc.
  - apply (waiting_invariant_frame s); try done.
    unfold current_barrier. system_simpl. by rewrite Hpc.
  - apply (waiting_invariant_frame s); try done.
    unfold current_barrier. system_simpl. by rewrite Hpc.
  - apply (waiting_invariant_frame s); try done.
    unfold current_barrier. system_simpl. by rewrite Hpc.
  - by apply (waiting_invariant_frame s).
  - (* update *)
    apply (waiting_invariant_frame s); try done.
    unfold current_barrier. system_simpl. by destruct (operatorPc s).
  - (* release *)
    apply (waiting_invariant_frame s); try done.
    unfold current_barrier. system_simpl. by destruct (operatorPc s).
  - (* a graphics thread compiles *)
    unfold waiting_invariant, current_barrier. system_simpl.
    split_and!; [done| |done].
    intros b Hb. destruct (Hold b Hb) as [Hq Hop']. split; [|done].
    intros g. rewrite lookup_total_insert_queue.
    destruct (decide (g = gt)) as [->|_]; [|apply Hq].
    intros Hin. apply (Hq gt). rewrite Hqueue. by right.
  - (* a graphics thread arrives at a barrier *)
    assert (Hcur : current_barrier s = Some barrier).
    { destruct (decide (current_barrier s = Some barrier)) as [|Hne];
        [done|].
      destruct (Hold barrier Hne) as [Hq _]. destruct (Hq gt).
      rewrite Hqueue. by left. }
    unfold waiting_invariant. system_simpl.
    assert (Hcur' :
      current_barrier
        (set_inBarrier (<[gt:=barrier]> (inBarrier s))
           (set_barriers
              (<[barrier:=arrive (GraphicsParty gt) b]> (barriers s))
              (set_threadQueues (<[gt:=rest]> (threadQueues s)) s))) =
      Some barrier) by done.
    rewrite Hcur'. clear Hcur'. split_and!.
    + intros g b0 Hg. destruct (decide (g = gt)) as [->|Hne].
      * rewrite lookup_insert_eq in Hg. injection Hg as <-.
        rewrite lookup_insert_eq. eexists. split; [done|]. cbn.
        apply elem_of_app. right. by apply list_elem_of_singleton.
      * rewrite lookup_insert_ne in Hg by done.
        destruct (Hwait g b0 Hg) as (B & HB & Harr).
        destruct (decide (b0 = barrier)) as [->|Hne'].
        -- rewrite lookup_insert_eq. eexists. split; [done|]. cbn.
           assert (B = b) as -> by congruence.
           apply elem_of_app. by left.
        -- rewrite lookup_insert_ne by done. eauto.
    + intros b0 Hb0. assert (Hne : b0 ≠ barrier) by congruence.
      destruct (Hold b0) as [Hq Hop']; [by rewrite Hcur|]. split.
      * intros g. rewrite lookup_total_insert_queue.
        destruct (decide (g = gt)) as [->|_]; [|apply Hq].
        intros Hin. apply (Hq gt). rewrite Hqueue. by right.
      * intros g B Hg. rewrite lookup_insert_ne by done.
        destruct (decide (g = gt)) as [->|Hne'].
        -- rewrite lookup_insert_eq in Hg. congruence.
        -- rewrite lookup_insert_ne in Hg by done. by apply (Hop' g).
    + intros b0 B [= <-]. rewrite lookup_insert_eq. intros [= <-]. cbn.
      apply elem_of_app. left. by apply (Hop barrier).
  - (* a graphics thread leaves a barrier *)
    unfold waiting_invariant, current_barrier. system_simpl.
    split_and!; [| |done].
    + intros g b0 Hg. apply lookup_delete_Some in Hg as [_ Hg]. eauto.
    + intros b0 Hb0. destruct (Hold b0 Hb0) as [Hq Hop']. split; [done|].
      intros g B Hg. apply lookup_delete_Some in Hg as [_ Hg]. eauto.
Qed.

Lemma waiting_invariant_reachable (children : list Node) (s : System) :
  reachable children s → waiting_invariant s.
Proof.
  apply reachable_invariant.
  - intros s0 Hinit. destruct Hinit. split_and!.
    + intros gt b. cbn. by rewrite lookup_empty.
    + intros b _. split.
      * intros gt. cbn. rewrite lookup_total_empty. apply not_elem_of_nil.
      * intros gt B. cbn. by rewrite lookup_empty.
    + intros b B. by cbn.
  - intros s1 l s2 Hreach Hinv Hstep.
    apply (waiting_invariant_step s1 s2 l); [|done..].
    by apply (barrier_invariant_reachable children).
Qed.


Lemma graphics_threads_only_refl (s : System) : graphics_threads_only s s.
Proof. by repeat split. Qed.

Lemma graphics_threads_only_trans (s1 s2 s3 : System) :
  graphics_threads_only s1 s2 → graphics_threads_only s2 s3 →
  graphics_threads_only s1 s3.
Proof.
  intros (? & ? & ? & ? & ? & ? & ? & ?) (? & ? & ? & ? & ? & ? & ? & ?).
  repeat split; congruence.
Qed.

Lemma arrivals_kept_refl (b : nat) (s : System) : arrivals_kept b s s.
Proof. intros B p ? ?. eauto. Qed.

Lemma arrivals_kept_trans (b : nat) (s1 s2 s3 : System) :
  arrivals_kept b s1 s2 → arrivals_kept b s2 s3 → arrivals_kept b s1 s3.
Proof.
  intros H12 H23 B p HB Hp.
  destruct (H12 B p HB Hp) as (B2 & HB2 & Hp2). eauto.
Qed.

(** A graphics thread that does not wait runs the compile operations at
    the front of its queue. *)
Lemma run_compile_operations (pre : list Operation) :
  ∀ (s : System) (gt b : nat) (post : list Operation),
    inBarrier s !! gt = None →
    threadQueues s !!! gt = pre ++ BarrierOperation b :: post →
    (∀ op, op ∈ pre → ∃ n, op = GLObjectsOperation n) →
    ∃ s',
      rtc steps s s' ∧ graphics_threads_only s s' ∧
      barriers s' = barriers s ∧ inBarrier s' = inBarrier s ∧
      threadQueues s' !!! gt = BarrierOperation b :: post.
Proof.
  induction pre as [|op pre IH]; intros s gt b post Hrun Hqueue Hops.
  - exists s. split_and!; try done.
  - destruct (Hops op) as [n ->]; [left|].
    set (s1 := set_compiled ({[ (gt, n) ]} ∪ compiled s)
                 (set_threadQueues
                    (<[gt := pre ++ BarrierOperation b :: post]>
                       (threadQueues s)) s)).
    assert (Hstep : step s (L_run gt) s1)
      by by apply (step_run_compile s gt n).
    destruct (IH s1 gt b post) as (s' & Hrtc & Honly & Hb & Hw & Hq).
    { done. }
    { subst s1. system_simpl. by rewrite lookup_total_insert_queue,
        decide_True. }
    { intros op Hop. apply Hops. by right. }
    exists s'. split_and!; try done.
    eapply rtc_l; [by exists (L_run gt)|done].
Qed.

(** A graphics thread the operation thread waits for can run up to the
    barrier and arrive. *)
Lemma thread_can_arrive (children : list Node) (s : System)
    (removedFiles : Files) (nodesToAdd : FilenameNodeMap)
    (threads : list nat) (barrier gt : nat) :
  reachable children s →
  operatorPc s = InBarrier removedFiles nodesToAdd threads barrier →
  gt ∈ threads →
  ∃ s',
    rtc steps s s' ∧ graphics_threads_only s s' ∧
    arrivals_kept barrier s s' ∧
    ∃ B', barriers s' !! barrier = Some B' ∧ GraphicsParty gt ∈ arrived B'.
Proof.
  intros Hreach Hpc Hgt.
  destruct (barrier_invariant_reachable children s Hreach) as [_ Hat].
  rewrite Hpc in Hat. cbn [barrier_at] in Hat.
  destruct Hat as (Hnd & B & HB & Hnum & Hnda & Hwho & Hthreads & Hothers).
  destruct (waiting_invariant_reachable children s Hreach)
    as (Hwait & Hold & Hop).
  assert (Hcur : current_barrier s = Some barrier)
    by (unfold current_barrier; by rewrite Hpc).
  destruct (Hthreads gt Hgt)
    as [(Harr & _)|[Hnot (pre & post & Hqueue & Hpre & _)]].
  { exists s. split_and!; [done|apply graphics_threads_only_refl
                         |apply arrivals_kept_refl|eauto]. }
  (* the thread leaves the barrier of an earlier cycle *)
  assert (Hleft : ∃ s1,
            rtc steps s s1 ∧ graphics_threads_only s s1 ∧
            barriers s1 = barriers s ∧ threadQueues s1 = threadQueues s ∧
            inBarrier s1 !! gt = None).
  { destruct (inBarrier s !! gt) as [b0|] eqn:Hb0.
    - destruct (Hwait gt b0 Hb0) as (B0 & HB0 & Harr0).
      assert (Hne : b0 ≠ barrier).
      { intros ->. assert (B0 = B) as -> by congruence. done. }
      destruct (Hold b0) as [_ Hopen]; [rewrite Hcur; congruence|].
      exists (set_inBarrier (delete gt (inBarrier s)) s). split_and!.
      + apply rtc_once. exists (L_pass gt).
        apply (step_pass s gt b0 B0); [done..|by apply (Hopen gt)].
      + by repeat split.
      + done.
      + done.
      + system_simpl. apply lookup_delete_eq.
    - exists s. split_and!; done. }
  destruct Hleft as (s1 & Hrtc1 & Honly1 & Hb1 & Hq1 & Hw1).
  (* it runs the compile operations in front of the barrier *)
  destruct (run_compile_operations pre s1 gt barrier post)
    as (s2 & Hrtc2 & Honly2 & Hb2 & Hw2 & Hq2).
  { done. }
  { by rewrite Hq1. }
  { intros op Hin. destruct op as [n|b0]; [by exists n|].
    destruct (decide (b0 = barrier)) as [->|Hne]; [done|].
    destruct (Hold b0) as [Hnotin _]; [rewrite Hcur; congruence|].
    destruct (Hnotin gt). rewrite Hqueue. apply elem_of_app. by left. }
  (* and the barrier operation *)
  set (s3 := set_inBarrier (<[gt := barrier]> (inBarrier s2))
               (set_barriers
                  (<[barrier := arrive (GraphicsParty gt) B]> (barriers s2))
                  (set_threadQueues (<[gt := post]> (threadQueues s2)) s2))).
  assert (Hstep : step s2 (L_run gt) s3).
  { apply (step_run_barrier s2 gt barrier post B); [|done|].
    - by rewrite Hw2.
    - by rewrite Hb2, Hb1. }
  exists s3. split_and!.
  - etrans; [exact Hrtc1|]. etrans; [exact Hrtc2|].
    apply rtc_once. by exists (L_run gt).
  - eapply graphics_threads_only_trans; [exact Honly1|].
    eapply graphics_threads_only_trans; [exact Honly2|]. by repeat split.
  - intros B0 p HB0 Hp. assert (B0 = B) as -> by congruence.
    exists (arrive (GraphicsParty gt) B). subst s3. system_simpl.
    rewrite lookup_insert_eq. split; [done|]. cbn.
    apply elem_of_app. by left.
  - exists (arrive (GraphicsParty gt) B). subst s3. system_simpl.
    rewrite lookup_insert_eq. split; [done|]. cbn.
    apply elem_of_app. right. by apply list_elem_of_singleton.
Qed.

Lemma threads_can_arrive (children : list Node) (removedFiles : Files)
    (nodesToAdd : FilenameNodeMap) (threads : list nat) (barrier : nat)
    (l : list nat) :
  ∀ s : System,
    reachable children s →
    operatorPc s = InBarrier removedFiles nodesToAdd threads barrier →
    (∀ gt, gt ∈ l → gt ∈ threads) →
    ∃ s',
      rtc steps s s' ∧ graphics_threads_only s s' ∧
      arrivals_kept barrier s s' ∧
      ∀ gt, gt ∈ l →
        ∃ B', barriers s' !! barrier = Some B' ∧
              GraphicsParty gt ∈ arrived B'.
Proof.
  induction l as [|g l IH]; intros s Hreach Hpc Hl.
  - exists s. split_and!; [done|apply graphics_threads_only_refl
                         |apply arrivals_kept_refl|].
    intros gt Hgt. by apply elem_of_nil in Hgt.
  - destruct (thread_can_arrive children s removedFiles nodesToAdd threads
                barrier g Hreach Hpc)
      as (s1 & Hrtc1 & Honly1 & Hkept1 & B1 & HB1 & Hg1);
      [apply Hl; left|].
    destruct (IH s1) as (s2 & Hrtc2 & Honly2 & Hkept2 & Hall).
    { by eapply reachable_rtc. }
    { destruct Honly1 as (_ & _ & _ & _ & -> & _). done. }
    { intros gt Hgt. apply Hl. by right. }
    exists s2. split_and!.
    + by etrans.
    + by eapply graphics_threads_only_trans.
    + by eapply arrivals_kept_trans.
    + intros gt [->|Hgt]%elem_of_cons; [|by apply Hall].
      by apply (Hkept2 B1).
Qed.

Lemma barrier_wait_ends (children : list Node) (s : System)
    (removedFiles : Files) (nodesToAdd : FilenameNodeMap)
    (threads : list nat) (barrier : nat) :
  reachable children s →
  operatorPc s = InBarrier removedFiles nodesToAdd threads barrier →
  ∃ s',
    rtc steps s s' ∧
    operatorPc s' = AfterLoad removedFiles nodesToAdd threads ∧
    mo s' = mo s ∧ scene s' = scene s ∧ done s' = done s ∧
    _mutex s' = _mutex s ∧ updatePc s' = updatePc s.
Proof.
  intros Hreach Hpc.
  destruct (threads_can_arrive children removedFiles nodesToAdd threads
              barrier threads s Hreach Hpc)
    as (s1 & Hrtc & Honly & _ & Hall); [done|].
  destruct Honly as (Hmo & Hmutex & _ & Hscene & Hpc1 & Hupc & Hdone & _).
  rewrite Hpc in Hpc1.
  assert (Hreach1 : reachable children s1) by by eapply reachable_rtc.
  destruct (barrier_invariant_reachable children s1 Hreach1) as [_ Hat].
  rewrite Hpc1 in Hat. cbn [barrier_at] in Hat.
  destruct Hat as (Hnd & B & HB & Hnum & Hnda & Hwho & _ & _).
  destruct (waiting_invariant_reachable children s1 Hreach1)
    as (_ & _ & Hop).
  assert (Hopen : barrier_open B).
  { unfold barrier_open. rewrite Hnum.
    assert (Hperm :
      arrived B ≡ₚ OperationParty :: (GraphicsParty <$> threads)).
    { apply NoDup_Permutation; [done| |].
      - apply NoDup_cons. split.
        + by intros (gt & [=] & _)%list_elem_of_fmap.
        + apply NoDup_fmap_2; [|done]. by intros ? ? [= ->].
      - intros p. rewrite elem_of_cons, list_elem_of_fmap. split.
        + intros Hp. destruct (Hwho p Hp) as [->|(gt & -> & Hgt)]; eauto.
        + intros [->|(gt & -> & Hgt)].
          * apply (Hop barrier); [|done].
            unfold current_barrier. by rewrite Hpc1.
          * destruct (Hall gt Hgt) as (B' & HB' & Harr).
            by assert (B' = B) as -> by congruence. }
    rewrite Hperm. cbn. rewrite length_fmap. lia. }
  exists (set_operatorPc (AfterLoad removedFiles nodesToAdd threads) s1).
  split_and!; try done.
  eapply rtc_r; [exact Hrtc|]. exists L_pass_barrier.
  by apply (step_pass_barrier s1 removedFiles nodesToAdd threads barrier B).
Qed.

(** X15: an operation thread that waits in [_barrier->block()] is never
    stuck there: the graphics threads it gave work to can each leave the
    barrier of an earlier cycle, run the compile operations queued before
    the barrier and arrive at it, and as the barrier counts them and the
    operation thread ([threads.size()+1]), it then opens; the operation
    thread goes on with the members, the scene and its locals untouched,
    every thread having compiled every node of [nodesToAdd]. *)
Theorem barrier_wait_can_end (children : list Node) (s : System)
    (removedFiles : Files) (nodesToAdd : FilenameNodeMap)
    (threads : list nat) (barrier : nat) :
  reachable children s →
  operatorPc s = InBarrier removedFiles nodesToAdd threads barrier →
  ∃ s',
    rtc steps s s' ∧
    operatorPc s' = AfterLoad removedFiles nodesToAdd threads ∧
    mo s' = mo s ∧ scene s' = scene s ∧ done s' = done s ∧
    (∀ gt f n, gt ∈ threads → nodesToAdd !! f = Some n →
               (gt, n) ∈ compiled s').
Proof.
  intros Hreach Hpc.
  destruct (barrier_wait_ends children s removedFiles nodesToAdd threads
              barrier Hreach Hpc)
    as (s' & Hrtc & Hpc' & Hmo & Hscene & Hdone & _).
  exists s'. split_and!; try done.
  assert (Hreach' : reachable children s') by by eapply reachable_rtc.
  destruct (barrier_invariant_reachable children s' Hreach') as [_ Hat].
  rewrite Hpc' in Hat. cbn [barrier_at] in Hat.
  intros gt f n Hgt Hf. by apply (Hat gt Hgt f n).
Qed.

(** The main loop can run [update] to its end, which leaves [_mutex]
    free. *)
Lemma update_can_finish (children : list Node) (s : System) :
  reachable children s →
  operator_locked (operatorPc s) = false →
  ∃ s',
    rtc steps s s' ∧ _mutex s' = None ∧
    operatorPc s' = release_block (operatorPc s).
Proof.
  intros Hreach Hlocked.
  destruct (mutex_invariant_reachable children s Hreach) as [Hmutex _].
  rewrite Hlocked in Hmutex.
  destruct (updatePc s) eqn:Hupc.
  - eexists. split_and!.
    + eapply rtc_l; [exists L_lock_update; by apply step_lock_update|].
      apply rtc_once. exists L_update. by apply step_update.
    + done.
    + done.
  - eexists. split_and!.
    + apply rtc_once. exists L_update. by apply step_update.
    + done.
    + done.
Qed.

Lemma in_block_can_end (children : list Node) (s : System) :
  reachable children s → operatorPc s = InBlock →
  ∃ s', rtc steps s s' ∧ operatorPc s' = AtStart.
Proof.
  intros Hreach Hpc.
  destruct (update_can_finish children s Hreach) as (s' & Hrtc & _ & Hpc');
    [by rewrite Hpc|].
  exists s'. split; [done|]. by rewrite Hpc', Hpc.
Qed.

Lemma after_swap_can_end (children : list Node) (s : System) :
  reachable children s → operatorPc s = AfterSwap →
  ∃ s', rtc steps s s' ∧ operatorPc s' = AtStart.
Proof.
  intros Hreach Hpc.
  assert (Hstep : step s L_block (set_operatorPc InBlock s))
    by by apply step_block.
  destruct (in_block_can_end children (set_operatorPc InBlock s))
    as (s' & Hrtc & Hpc'); [by eapply reachable_step|done|].
  exists s'. split; [|done]. eapply rtc_l; [by exists L_block|done].
Qed.

Lemma swap_locked_can_end (children : list Node) (s : System)
    (removedFiles : Files) (nodesToAdd : FilenameNodeMap)
    (threads : list nat) :
  reachable children s →
  operatorPc s = SwapLocked removedFiles nodesToAdd threads →
  ∃ s', rtc steps s s' ∧ operatorPc s' = AtStart.
Proof.
  intros Hreach Hpc.
  set (s1 := set_operatorPc AfterSwap
               (set_mo (hand_off removedFiles nodesToAdd (mo s))
                  (set_mutex None s))).
  assert (Hstep : step s L_swap s1)
    by by apply (step_swap s removedFiles nodesToAdd threads).
  destruct (after_swap_can_end children s1) as (s' & Hrtc & Hpc');
    [by eapply reachable_step|done|].
  exists s'. split; [|done]. eapply rtc_l; [by exists L_swap|done].
Qed.

Lemma after_load_can_end (children : list Node) (s : System)
    (removedFiles : Files) (nodesToAdd : FilenameNodeMap)
    (threads : list nat) :
  reachable children s →
  operatorPc s = AfterLoad removedFiles nodesToAdd threads →
  ∃ s', rtc steps s s' ∧ operatorPc s' = AtStart.
Proof.
  intros Hreach Hpc.
  destruct (requiresBlock removedFiles nodesToAdd) eqn:Hblock.
  - destruct (update_can_finish children s Hreach)
      as (s1 & Hrtc1 & Hmutex1 & Hpc1); [by rewrite Hpc|].
    rewrite Hpc in Hpc1. cbn [release_block] in Hpc1.
    set (s2 := set_operatorPc (SwapLocked removedFiles nodesToAdd threads)
                 (set_mutex (Some OperationThread) s1)).
    assert (Hstep : step s1 L_lock_swap s2)
      by by apply (step_lock_swap s1 removedFiles nodesToAdd threads).
    assert (Hreach1 : reachable children s1) by by eapply reachable_rtc.
    destruct (swap_locked_can_end children s2 removedFiles nodesToAdd
                threads) as (s' & Hrtc & Hpc');
      [by eapply reachable_step|done|].
    exists s'. split; [|done]. etrans; [exact Hrtc1|].
    eapply rtc_l; [by exists L_lock_swap|done].
  - exists (set_operatorPc AtStart s). split; [|done].
    apply rtc_once. exists L_yield.
    by apply (step_yield s removedFiles nodesToAdd threads).
Qed.

Lemma in_barrier_can_end (children : list Node) (s : System)
    (removedFiles : Files) (nodesToAdd : FilenameNodeMap)
    (threads : list nat) (barrier : nat) :
  reachable children s →
  operatorPc s = InBarrier removedFiles nodesToAdd threads barrier →
  ∃ s', rtc steps s s' ∧ operatorPc s' = AtStart.
Proof.
  intros Hreach Hpc.
  destruct (barrier_wait_ends children s removedFiles nodesToAdd threads
              barrier Hreach Hpc) as (s1 & Hrtc1 & Hpc1 & _).
  destruct (after_load_can_end children s1 removedFiles nodesToAdd threads)
    as (s' & Hrtc & Hpc'); [by eapply reachable_rtc|done|].
  exists s'. split; [by etrans|done].
Qed.

Lemma after_diff_can_end (children : list Node) (s : System)
    (newFiles removedFiles : Files) :
  reachable children s →
  operatorPc s = AfterDiff newFiles removedFiles →
  ∃ s', rtc steps s s' ∧ operatorPc s' = AtStart.
Proof.
  intros Hreach Hpc.
  assert (Hload : ∃ s1 toAdd threads,
            step s L_load s1 ∧
            operatorPc s1 = AfterLoad removedFiles toAdd threads).
  { destruct (decide (newFiles = ∅)) as [->|Hne].
    - eexists _, _, _. split; [by apply step_load_nothing|done].
    - set (threads := compile_threads 0 (λ _, false)).
      set (loading := load_new_files (λ _, None) threads newFiles
                        (threadQueues s)).
      exists (set_operatorPc
                (AfterLoad removedFiles (nodesToAdd loading) threads)
                (set_threadQueues (queues loading)
                   (set_allocated
                      (allocated s ∪ new_nodes newFiles (λ _, None)) s))),
        (nodesToAdd loading), threads.
      split; [|done].
      apply (step_load s newFiles removedFiles 0 (λ _, false) (λ _, None)
               threads loading); try done.
      destruct (requiresBarrier loading) eqn:Hyes; [|done].
      apply load_new_files_requiresBarrier in Hyes
        as (_ & f & n & _ & [=]). }
  destruct Hload as (s1 & toAdd & threads & Hstep & Hpc1).
  destruct (after_load_can_end children s1 removedFiles toAdd threads)
    as (s' & Hrtc & Hpc'); [by eapply reachable_step|done|].
  exists s'. split; [|done]. eapply rtc_l; [by exists L_load|done].
Qed.

Lemma diff_locked_can_end (children : list Node) (s : System)
    (files : Files) :
  reachable children s → operatorPc s = DiffLocked files →
  ∃ s', rtc steps s s' ∧ operatorPc s' = AtStart.
Proof.
  intros Hreach Hpc.
  assert (Hstep :
    step s L_diff
      (set_operatorPc
         (AfterDiff
            (find_new_files (_existingFilenameNodeMap (mo s)) files)
            (find_removed_files (_existingFilenameNodeMap (mo s)) files))
         (set_mutex None s))) by by apply step_diff.
  destruct (after_diff_can_end children _ _ _
              (reachable_step _ _ _ _ Hreach Hstep) eq_refl)
    as (s' & Hrtc & Hpc').
  exists s'. split; [|done]. eapply rtc_l; [by exists L_diff|done].
Qed.

Lemma after_read_can_end (children : list Node) (s : System)
    (files : Files) :
  reachable children s → operatorPc s = AfterRead files →
  ∃ s', rtc steps s s' ∧ operatorPc s' = AtStart.
Proof.
  intros Hreach Hpc.
  destruct (update_can_finish children s Hreach)
    as (s1 & Hrtc1 & Hmutex1 & Hpc1); [by rewrite Hpc|].
  rewrite Hpc in Hpc1. cbn [release_block] in Hpc1.
  set (s2 := set_operatorPc (DiffLocked files)
               (set_mutex (Some OperationThread) s1)).
  assert (Hstep : step s1 L_lock_diff s2) by by apply step_lock_diff.
  assert (Hreach1 : reachable children s1) by by eapply reachable_rtc.
  destruct (diff_locked_can_end children s2 files)
    as (s' & Hrtc & Hpc'); [by eapply reachable_step|done|].
  exists s'. split; [|done]. etrans; [exact Hrtc1|].
  eapply rtc_l; [by exists L_lock_diff|done].
Qed.

(** X16: from every state the threads reach, the run can go on (the other
    threads moving, and the loads still to come giving what they may) so
    that the operation thread gets through its cycle back to the start of
    [operator()]: neither [_mutex] nor the barrier nor
    [_updatesMergedBlock] can hold it for good. *)
Theorem operation_thread_never_stuck (children : list Node) (s : System) :
  reachable children s →
  ∃ s', rtc steps s s' ∧ operatorPc s' = AtStart.
Proof.
  intros Hreach. destruct (operatorPc s) eqn:Hpc.
  - by exists s.
  - by eapply after_read_can_end.
  - by eapply diff_locked_can_end.
  - by eapply after_diff_can_end.
  - by eapply in_barrier_can_end.
  - by eapply after_load_can_end.
  - by eapply swap_locked_can_end.
  - by eapply after_swap_can_end.
  - by eapply in_block_can_end.
Qed.

End Waiting.

(** ** LayerHandler::handle *)

Section LayerHandlerProperties.
Context {L : Type} {layer_ops : Layer L}.

Lemma LayerHandler_handle_true_iff (_layer : option L)
    (ea : GUIEventAdapter) :
  (LayerHandler.handle _layer ea).2 = true ↔
    is_Some _layer ∧ getEventType ea = KEYDOWN ∧ getKey ea ∈ layer_keys.
Proof.
  unfold LayerHandler.handle, layer_keys.
  destruct _layer as [layer|]; [|split; [done|by intros [[? ?] _]]].
  destruct ea as [ty key]. cbn [getEventType getKey].
  rewrite !elem_of_cons, elem_of_nil.
  destruct ty; try (split; [done|by intros (_ & ? & _)]).
  destruct (Z.eqb_spec key (char "q")) as [->|Hq];
    [split; [intros _; split_and!; eauto|done]|].
  destruct (Z.eqb_spec key (char "a")) as [->|Ha];
    [split; [intros _; split_and!; eauto|done]|].
  split; [done|]. intros (_ & _ & [?|[?|[]]]); done.
Qed.

(** X17: with a live layer, [LayerHandler::handle] answers the key [q] by
    [transform(0, scale)] and the key [a] by [transform(0, 1/scale)], where
    [scale] is the [float] next to 1.2 (1.2000000476837158) and the
    quotient the [float] 0.833333313465118; it returns [true] for exactly
    these two key presses, leaves the layer alone otherwise, and does
    nothing once the layer is gone. *)
Theorem LayerHandler_handle_keys (layer : L) :
  LayerHandler.handle (Some layer) (keydown "q") =
    (Some (transform 0 0x1.333334p+0 layer), true) ∧
  LayerHandler.handle (Some layer) (keydown "a") =
    (Some (transform 0 0x1.aaaaaap-1 layer), true) ∧
  (∀ (_layer : option L) ea,
     (LayerHandler.handle _layer ea).2 = true ↔
       is_Some _layer ∧ getEventType ea = KEYDOWN ∧
       getKey ea ∈ layer_keys) ∧
  (∀ ea,
     getEventType ea ≠ KEYDOWN ∨ getKey ea ∉ layer_keys →
     LayerHandler.handle (Some layer) ea = (Some layer, false)) ∧
  (∀ ea, LayerHandler.handle (None : option L) ea = (None, false)).
Proof.
  assert (Hscale : to_float lit_1_2 = 0x1.333334p+0%float)
    by (vm_compute; reflexivity).
  assert (Hinv : float_div 1 (to_float lit_1_2) = 0x1.aaaaaap-1%float)
    by (vm_compute; reflexivity).
  assert (Hzero : to_float 0 = 0%float) by (vm_compute; reflexivity).
  split_and!.
  - unfold LayerHandler.handle. cbn [keydown getEventType getKey].
    by rewrite Hscale, Hzero.
  - unfold LayerHandler.handle. cbn [keydown getEventType getKey].
    by rewrite Hinv, Hzero.
  - apply LayerHandler_handle_true_iff.
  - intros ea Hother.
    destruct (LayerHandler.handle (Some layer) ea) as [l b] eqn:Hhandle.
    assert (Hb : b = false).
    { destruct b; [|done].
      assert (Htrue : (LayerHandler.handle (Some layer) ea).2 = true)
        by by rewrite Hhandle.
      apply LayerHandler_handle_true_iff in Htrue as (_ & Hty & Hkey).
      by destruct Hother. }
    subst b. f_equal. revert Hhandle. unfold LayerHandler.handle.
    destruct (getEventType ea); try (by intros [= <-]).
    destruct (getKey ea =? char "q")%Z; [by intros [= _ ?]|].
    destruct (getKey ea =? char "a")%Z; [by intros [= _ ?]|].
    by intros [= <-].
  - done.
Qed.

End LayerHandlerProperties.

(** X18: no event is handled by both [FilterHandler] and [LayerHandler]:
    when one of them returns [true], the other returns [false] and changes
    nothing. *)
Theorem handlers_share_no_key {T : Type} {technique : GeometryTechnique T}
    {L : Type} {layer_ops : Layer L} (_gt : option T) (_layer : option L)
    (ea : GUIEventAdapter) :
  ¬ ((handle _gt ea).2 = true ∧ (LayerHandler.handle _layer ea).2 = true) ∧
  ((handle _gt ea).2 = true →
   LayerHandler.handle _layer ea = (_layer, false)) ∧
  ((LayerHandler.handle _layer ea).2 = true → handle _gt ea = (_gt, false)).
Proof.
  assert (Hdisjoint : ∀ k, k ∈ filter_keys → k ∈ layer_keys → False).
  { intros k. unfold filter_keys, layer_keys.
    rewrite !elem_of_cons, !elem_of_nil. vm_compute. intuition congruence. }
  assert (Hlayer : (LayerHandler.handle _layer ea).2 = false →
                   LayerHandler.handle _layer ea = (_layer, false)).
  { unfold LayerHandler.handle. destruct _layer as [layer|]; [|done].
    destruct (getEventType ea); try done.
    destruct (getKey ea =? char "q")%Z; [done|].
    by destruct (getKey ea =? char "a")%Z. }
  assert (Hfilter : (handle _gt ea).2 = false → handle _gt ea = (_gt, false)).
  { unfold handle. destruct _gt as [gt|]; [|done].
    destruct (getEventType ea); try done.
    repeat (destruct (getKey ea =? _)%Z; [done|]). done. }
  split_and!.
  - intros [(_ & _ & Hf)%handle_true_iff
             (_ & _ & Hl)%LayerHandler_handle_true_iff].
    by eapply Hdisjoint.
  - intros (_ & _ & Hf)%handle_true_iff. apply Hlayer.
    destruct (LayerHandler.handle _layer ea).2 eqn:Hl; [|done].
    apply LayerHandler_handle_true_iff in Hl as (_ & _ & Hl).
    destruct (Hdisjoint _ Hf Hl).
  - intros (_ & _ & Hl)%LayerHandler_handle_true_iff. apply Hfilter.
    destruct (handle _gt ea).2 eqn:Hf; [|done].
    apply handle_true_iff in Hf as (_ & _ & Hf).
    destruct (Hdisjoint _ Hf Hl).
Qed.

(** ** main: the keys of the animation paths *)

Lemma char_incr_unsigned_iter (n : nat) (key : Z) :
  (0 ≤ key < 256)%Z →
  Nat.iter n (char_incr false) key = ((key + Z.of_nat n) mod 256)%Z.
Proof.
  intros Hkey. induction n as [|n IH].
  - cbn. rewrite Z.add_0_r, Z.mod_small; lia.
  - rewrite Nat.iter_succ, IH. unfold char_incr.
    rewrite Zplus_mod_idemp_l. f_equal. lia.
Qed.

Lemma char_incr_signed_iter (n : nat) (key : Z) :
  (-128 ≤ key < 128)%Z →
  Nat.iter n (char_incr true) key =
    ((key + Z.of_nat n + 128) mod 256 - 128)%Z.
Proof.
  intros Hkey. induction n as [|n IH].
  - cbn. rewrite Z.add_0_r, Z.mod_small; lia.
  - rewrite Nat.iter_succ, IH. unfold char_incr.
    replace ((key + Z.of_nat n + 128) mod 256 - 128 + 1 + 128)%Z
      with ((key + Z.of_nat n + 128) mod 256 + 1)%Z by lia.
    rewrite Zplus_mod_idemp_l. do 2 f_equal. lia.
Qed.

(** X19: after the [-p] loop [keyForAnimationPath] has been incremented
    once for every path file; starting from ['5'] the key after [n] files
    is [53 + n] wrapped to the range of a [char]: with a signed [char] the
    key after 75 files is -128, and either way the keys repeat after 256
    files. *)
Theorem path_keys_wrap_around {K : Type} {keyswitch : KeySwitch K}
    (char_is_signed : bool) (path_valid : string → bool)
    (pathfiles : list string) (ks : K) (key : Z) :
  (path_arguments char_is_signed path_valid pathfiles ks key).2 =
    Nat.iter (length pathfiles) (char_incr char_is_signed) key ∧
  (∀ n, Nat.iter n (char_incr false) (char "5") =
          ((53 + Z.of_nat n) mod 256)%Z) ∧
  (∀ n, Nat.iter n (char_incr true) (char "5") =
          ((53 + Z.of_nat n + 128) mod 256 - 128)%Z) ∧
  Nat.iter 75 (char_incr true) (char "5") = (-128)%Z ∧
  (∀ n, Nat.iter (256 + n) (char_incr char_is_signed) (char "5") =
        Nat.iter n (char_incr char_is_signed) (char "5")).
Proof.
  split_and!.
  - revert ks key. induction pathfiles as [|pathfile rest IH];
      intros ks key; [done|].
    cbn [path_arguments path_guard length]. rewrite IH.
    by rewrite Nat.iter_succ_r.
  - intros n. by rewrite char_incr_unsigned_iter.
  - intros n. by rewrite char_incr_signed_iter.
  - by vm_compute.
  - intros n. destruct char_is_signed.
    + rewrite !char_incr_signed_iter by done.
      change (char "5") with 53%Z.
      replace (53 + Z.of_nat (256 + n) + 128)%Z
        with (53 + Z.of_nat n + 128 + 1 * 256)%Z by lia.
      by rewrite Z_mod_plus_full.
    + rewrite !char_incr_unsigned_iter by done.
      change (char "5") with 53%Z.
      replace (53 + Z.of_nat (256 + n))%Z
        with (53 + Z.of_nat n + 1 * 256)%Z by lia.
      by rewrite Z_mod_plus_full.
Qed.

(** ** main: the terrain layers *)

Section LayerArguments.
Context (readHF readImg : string → bool).

Lemma run_layer_arguments_snoc (st : LayerLoop) (args : list Argument)
    (arg : Argument) :
  run_layer_arguments readHF readImg st (args ++ [arg]) =
    layer_argument readHF readImg
      (run_layer_arguments readHF readImg st args) arg.
Proof. apply foldl_snoc. Qed.

Lemma layer_argument_transform (st : LayerLoop) (arg : Argument) :
  (offset (layer_argument readHF readImg st arg),
   scale (layer_argument readHF readImg st arg)) =
    match arg with
    | Arg_transform o s => (o, s)
    | Arg_hf _ | Arg_elevation_image _ | Arg_image _ => (0%float, 1%float)
    | _ => (offset st, scale st)
    end.
Proof.
  destruct arg; try done; cbn [layer_argument].
  by repeat case_match.
Qed.

(** X20: at any point of the layer loop, [offset] and [scale] are those of
    the last [--transform]/[-t] if no layer argument ([--hf], [-d], [-c])
    came after it, and 0 and 1 after a layer argument, whether its file
    could be read or not: a transform is used up by the next layer argument
    alone. *)
Theorem transform_is_for_the_next_layer_only (st : LayerLoop)
    (args : list Argument) :
  (offset (run_layer_arguments readHF readImg st args),
   scale (run_layer_arguments readHF readImg st args)) =
    match last (filter (λ arg, is_layer_argument arg = true ∨
                               is_transform_argument arg = true) args) with
    | Some (Arg_transform o s) => (o, s)
    | Some _ => (0%float, 1%float)
    | None => (offset st, scale st)
    end.
Proof.
  induction args as [|arg args IH] using rev_ind; [done|].
  rewrite run_layer_arguments_snoc, filter_app, layer_argument_transform.
  destruct arg;
    try (rewrite filter_cons_False, filter_nil, (right_id_L [] (++))
           by (cbn; intros [?|?]; done);
         exact IH);
    rewrite filter_cons_True, filter_nil, last_snoc by (cbn; auto); done.
Qed.

Lemma new_layer_id (data : LayerData) (st : LayerLoop) :
  layer_id (new_layer data st) = layersMade st.
Proof. unfold new_layer. by case_match. Qed.

Lemma layers_applied_elevation (data : LayerData) (st : LayerLoop) :
  layers_applied st →
  layers_applied
    (reset_transform
       (apply_layer (new_layer data st)
          (setElevationLayer (new_layer data st) (terrain st)) st)).
Proof.
  intros (Hlast & Hnone & Hids). split_and!.
  - intros layer [= <-]. split; [by left|]. cbn. by rewrite new_layer_id.
  - done.
  - intros layer [[= <-]|[i Hi]]; cbn.
    + rewrite new_layer_id. lia.
    + assert (layer_id layer < layersMade st); [|lia].
      apply Hids. right. by exists i.
Qed.

Lemma layers_applied_colour (data : LayerData) (st : LayerLoop) :
  layers_applied st →
  layers_applied
    (reset_transform
       (apply_layer (new_layer data st)
          (setColorLayer (layerNum st) (new_layer data st) (terrain st)) st)).
Proof.
  intros (Hlast & Hnone & Hids). split_and!.
  - intros layer [= <-]. split; [|cbn; by rewrite new_layer_id].
    right. exists (layerNum st). unfold getColorLayer. cbn.
    by rewrite lookup_insert_eq.
  - done.
  - intros layer [He|[i Hi]]; cbn.
    + assert (layer_id layer < layersMade st); [|lia].
      apply Hids. by left.
    + unfold getColorLayer in Hi. cbn in Hi.
      destruct (decide (i = layerNum st)) as [->|Hne].
      * rewrite lookup_insert_eq in Hi. injection Hi as <-.
        rewrite new_layer_id. lia.
      * rewrite lookup_insert_ne in Hi by done.
        assert (layer_id layer < layersMade st); [|lia].
        apply Hids. right. by exists i.
Qed.

Lemma layers_applied_step (st : LayerLoop) (arg : Argument) :
  layers_applied st →
  layers_applied (layer_argument readHF readImg st arg).
Proof.
  intros Hst.
  destruct arg as [n| |x y w h|o s|x y w h|f|f|f|name|lo hi|];
    cbn [layer_argument]; try done.
  - destruct (readHF f); [|done]. by apply layers_applied_elevation.
  - destruct (readImg f); [|done]. by apply layers_applied_elevation.
  - destruct (readImg f); [|done]. by apply layers_applied_colour.
  - by repeat case_match.
Qed.

Lemma layers_applied_run (st : LayerLoop) (args : list Argument) :
  layers_applied st →
  layers_applied (run_layer_arguments readHF readImg st args).
Proof.
  revert st. induction args as [|arg args IH]; intros st Hst; [done|].
  cbn [run_layer_arguments foldl]. by apply IH, layers_applied_step.
Qed.

(** X21: after the layer loop, [lastAppliedLayer] is a layer the terrain
    holds, as its elevation layer or as one of its colour layers, and the
    one made last of those it holds; it is null exactly when the terrain
    holds no layer at all; so whenever [main] adds the terrain to the
    scene, the [LayerHandler] it installs gets a layer. *)
Theorem layer_handler_gets_a_layer_of_the_terrain (args : list Argument) :
  let st := layer_arguments readHF readImg args in
  (∀ layer, lastAppliedLayer st = Some layer →
     (elevationLayer (terrain st) = Some layer ∨
      ∃ i, getColorLayer i (terrain st) = Some layer) ∧
     ∀ other,
       elevationLayer (terrain st) = Some other ∨
       (∃ i, getColorLayer i (terrain st) = Some other) →
       layer_id other ≤ layer_id layer) ∧
  (lastAppliedLayer st = None ↔
     elevationLayer (terrain st) = None ∧ colorLayers (terrain st) = ∅) ∧
  (terrain_created (terrain st) = true → is_Some (lastAppliedLayer st)).
Proof.
  cbn zeta.
  destruct (layers_applied_run new_LayerLoop args) as (Hlast & Hnone & Hids).
  { split_and!; [done|done|].
    intros layer [He|[i Hi]]; [done|].
    unfold getColorLayer in Hi. cbn in Hi. by rewrite lookup_empty in Hi. }
  fold (layer_arguments readHF readImg args) in *.
  set (st := layer_arguments readHF readImg args) in *.
  assert (Hback : elevationLayer (terrain st) = None ∧
                  colorLayers (terrain st) = ∅ →
                  lastAppliedLayer st = None).
  { intros [Helev Hcolor].
    destruct (lastAppliedLayer st) as [layer|] eqn:Hl; [|done].
    destruct (Hlast layer eq_refl) as [[He|[i Hi]] _]; [congruence|].
    unfold getColorLayer in Hi. by rewrite Hcolor, lookup_empty in Hi. }
  split_and!.
  - intros layer Hl. destruct (Hlast layer Hl) as [Hin Hid].
    split; [exact Hin|]. intros other Hother.
    specialize (Hids other Hother). lia.
  - by split.
  - intros Hcreated.
    destruct (lastAppliedLayer st) as [layer|]; [by eexists|].
    destruct Hnone as [Helev Hcolor]; [done|].
    unfold terrain_created, getColorLayer in Hcreated.
    rewrite Helev, Hcolor, lookup_empty in Hcreated.
    apply orb_true_iff in Hcreated as [H|H];
      apply bool_decide_eq_true in H; by destruct H.
Qed.

Lemma terrain_created_step (st : LayerLoop) (arg : Argument) :
  terrain_created
    (terrain (layer_argument readHF readImg st arg)) =
    true ↔
  terrain_created (terrain st) = true ∨ creates_terrain readHF readImg st arg.
Proof.
  unfold terrain_created, getColorLayer.
  rewrite !orb_true_iff, !bool_decide_eq_true.
  destruct arg as [n| |x y w h|o s|x y w h|f|f|f|name|lo hi|];
    cbn [layer_argument creates_terrain];
    try (cbn; tauto).
  - destruct (readHF f); cbn; [|intuition congruence].
    split; [auto|]. intros _. left. by eexists.
  - destruct (readImg f); cbn; [|intuition congruence].
    split; [auto|]. intros _. left. by eexists.
  - destruct (readImg f); cbn; [|intuition congruence].
    destruct (decide (layerNum st = 0)) as [->|Hne].
    + rewrite lookup_insert_eq. split; [auto|]. intros _. right. by eexists.
    + rewrite lookup_insert_ne by done. intuition congruence.
  - repeat case_match; cbn; tauto.
Qed.

Lemma layerNum_run (st : LayerLoop) (args : list Argument) :
  layerNum (run_layer_arguments readHF readImg st args) =
    default (layerNum st)
      (last (omap layer_number args)).
Proof.
  induction args as [|arg args IH] using rev_ind; [done|].
  rewrite run_layer_arguments_snoc, omap_app.
  destruct arg; cbn [omap list_omap layer_argument layer_number];
    rewrite ?(right_id_L [] (++)), ?last_snoc; try done;
    by repeat case_match.
Qed.

Lemma terrain_created_run (st : LayerLoop) (args : list Argument) :
  terrain_created (terrain (run_layer_arguments readHF readImg st args)) =
    true ↔
  terrain_created (terrain st) = true ∨
  ∃ pre arg post,
    args = pre ++ arg :: post ∧
    creates_terrain readHF readImg
      (run_layer_arguments readHF readImg st pre) arg.
Proof.
  induction args as [|x args IH] using rev_ind.
  - split; [auto|]. intros [?|(pre & arg & post & Heq & _)]; [done|].
    by destruct pre.
  - rewrite run_layer_arguments_snoc, terrain_created_step, IH. split.
    + intros [[?|(pre & arg & post & -> & Hc)]|Hc]; [by left|right..].
      * exists pre, arg, (post ++ [x]). by rewrite <- app_assoc.
      * by exists args, x, [].
    + intros [?|(pre & arg & post & Heq & Hc)]; [by left; left|].
      destruct post as [|y post _] using rev_ind.
      * apply app_inj_tail in Heq as [-> ->]. by right.
      * left. right. exists pre, arg, post.
        rewrite app_comm_cons, app_assoc in Heq.
        apply app_inj_tail in Heq as [-> _]. done.
Qed.

(** X22: the test of line 684 succeeds exactly when some [--hf] or [-d]
    argument had a file that could be read, or some [-c] argument had one
    while [layerNum] was 0; and [layerNum] is the number of the last
    [--layer] argument so far, 0 when there is none.  Colour layers on other
    layer numbers alone make no terrain. *)
Theorem terrain_needs_elevation_or_colour_layer_0 (args : list Argument) :
  (terrain_created
     (terrain (layer_arguments readHF readImg args)) =
     true ↔
   ∃ pre arg post,
     args = pre ++ arg :: post ∧
     match arg with
     | Arg_hf filename => readHF filename = true
     | Arg_elevation_image filename => readImg filename = true
     | Arg_image filename =>
         readImg filename = true ∧
         layerNum (layer_arguments readHF readImg pre) = 0
     | _ => False
     end) ∧
  layerNum (layer_arguments readHF readImg args) =
    default 0
      (last (omap layer_number args)).
Proof.
  split; [|apply layerNum_run].
  unfold layer_arguments. rewrite terrain_created_run. split.
  - intros [?|?]; done.
  - intros ?. by right.
Qed.

End LayerArguments.

(** ** main: the scene, the master file and the start of the threads *)

Section Startup.
Context {Field : Type} {field_ops : FieldOps Field}.

Lemma loaded_models_nil (readNodeFile : string → option Node)
    (files : Files) :
  loaded_models readNodeFile files = [] ↔
    ∀ f, f ∈ files → readNodeFile f = None.
Proof.
  split.
  - intros Hnil f Hf. destruct (readNodeFile f) as [n|] eqn:Hn; [|done].
    assert (Hin : n ∈ loaded_models readNodeFile files)
      by (apply elem_of_loaded_models; eauto).
    rewrite Hnil in Hin. by apply elem_of_nil in Hin.
  - intros Hnone.
    destruct (loaded_models readNodeFile files) as [|n l] eqn:Hl; [done|].
    assert (Hin : n ∈ loaded_models readNodeFile files)
      by (rewrite Hl; left).
    apply elem_of_loaded_models in Hin as (f & Hf & Hn).
    rewrite (Hnone f Hf) in Hn. done.
Qed.

(** X23: [main] returns at line 706 exactly when the layer loop has made
    no terrain and there is no master file, or none of the files the last
    [-m] master file lists at that moment can be loaded; when it goes on,
    the scene has a child, the handlers are installed exactly with the
    terrain, and an operation thread is started exactly when a [-m]
    argument was given. *)
Theorem main_gives_up_without_a_model (indeterminate : bool)
    (masterFiles : list (option (list Field)))
    (readNodeFile : string → option Node) (terrainNode : Node)
    (st : LayerLoop) :
  (startup indeterminate masterFiles readNodeFile terrainNode st =
     NoModelCreated ↔
   terrain_created (terrain st) = false ∧
   match last masterFiles with
   | Some fin =>
       ∀ f, f ∈ (readMasterFile indeterminate fin ∅).2 →
            readNodeFile f = None
   | None => True
   end) ∧
  (∀ sc handlers masterOperation operationThread,
     startup indeterminate masterFiles readNodeFile terrainNode st =
       SceneData sc handlers masterOperation operationThread →
     sc ≠ [] ∧
     handlers =
       (if terrain_created (terrain st) then Some (lastAppliedLayer st)
        else None) ∧
     (operationThread = true ↔ is_Some masterOperation) ∧
     (is_Some masterOperation ↔ masterFiles ≠ [])).
Proof.
  assert (Hsome : ∀ (fin : option (list Field)) (m : MasterOperation),
            last masterFiles = Some fin →
            (true = true ↔ is_Some (Some m)) ∧
            (is_Some (Some m) ↔ masterFiles ≠ [])).
  { intros fin m Hlast. split; (split; [intros _|by eexists]).
    - by eexists.
    - intros ->. done. }
  assert (Hnone : last masterFiles = None →
            (false = true ↔ is_Some (None : option MasterOperation)) ∧
            (is_Some (None : option MasterOperation) ↔ masterFiles ≠ [])).
  { intros Hlast%last_None. split.
    - split; [done|by intros [? ?]].
    - split; [by intros [? ?]|done]. }
  unfold startup.
  destruct (terrain_created (terrain st)) eqn:Hterrain;
    destruct (last masterFiles) as [fin|] eqn:Hlast;
    cbn [addChild Children_group fst snd].
  - rewrite open_scene. cbn [app length Nat.eqb]. split.
    + split; [done|by intros [? _]].
    + intros sc handlers masterOperation operationThread [= <- <- <- <-].
      destruct (Hsome fin (open indeterminate fin readNodeFile [terrainNode]
                             new_MasterOperation).2 eq_refl).
      by split_and!.
  - cbn [app length Nat.eqb]. split.
    + split; [done|by intros [? _]].
    + intros sc handlers masterOperation operationThread [= <- <- <- <-].
      destruct (Hnone eq_refl). by split_and!.
  - rewrite open_scene. cbn [app].
    destruct (loaded_models readNodeFile
                (readMasterFile indeterminate fin ∅).2)
      as [|n l] eqn:Hloaded; cbn [length Nat.eqb].
    + split; [|done]. split; [|done]. intros _. split; [done|].
      by apply loaded_models_nil.
    + split.
      * split; [done|]. intros [_ Hnone'].
        apply loaded_models_nil in Hnone'. congruence.
      * intros sc handlers masterOperation operationThread [= <- <- <- <-].
        destruct (Hsome fin (open indeterminate fin readNodeFile []
                               new_MasterOperation).2 eq_refl).
        by split_and!.
  - cbn [length Nat.eqb]. split; [done|]. done.
Qed.

(** X24: when [main] goes on with a master file, the scene and the
    operation it starts the operation thread with are an initial state of
    the threads, the original children being the terrain node if one was
    made; the scene is these children followed by the models [open]
    loaded. *)
Theorem startup_is_an_initial_state (indeterminate : bool)
    (masterFiles : list (option (list Field))) (fin : option (list Field))
    (readNodeFile : string → option Node) (terrainNode : Node)
    (st : LayerLoop) (sc : list Node)
    (handlers : option (option TerrainLayer)) (m : MasterOperation)
    (operationThread : bool) :
  let children :=
    if terrain_created (terrain st) then [terrainNode] else [] in
  last masterFiles = Some fin →
  startup indeterminate masterFiles readNodeFile terrainNode st =
    SceneData sc handlers (Some m) operationThread →
  loads_new_nodes (list_to_set children)
    (readMasterFile indeterminate fin ∅).2 readNodeFile →
  operationThread = true ∧
  initial children
    {| mo := m;
       _mutex := None;
       _barrier := None;
       scene := sc;
       operatorPc := AtStart;
       updatePc := OutsideUpdate;
       done := false;
       threadQueues := ∅;
       inBarrier := ∅;
       barriers := ∅;
       compiled := ∅;
       allocated :=
         list_to_set children ∪
         new_nodes (readMasterFile indeterminate fin ∅).2 readNodeFile |} ∧
  sc = children ++
       loaded_models readNodeFile (readMasterFile indeterminate fin ∅).2.
Proof.
  intros children Hlast Hstartup Hloads. subst children.
  unfold startup in Hstartup. rewrite Hlast in Hstartup.
  destruct (terrain_created (terrain st));
    cbn [addChild Children_group fst snd app] in Hstartup;
    match type of Hstartup with
    | (if ?c then _ else _) = _ => destruct c; [done|]
    end;
    injection Hstartup as <- <- <- <-;
    (split_and!;
     [done
     |by apply (initial_open _ indeterminate fin readNodeFile)
     |apply open_scene]).
Qed.

End Startup.

(** ** main: the compile contexts *)

Lemma background_options_spec (n_bc n_bt : nat) :
  background_options n_bc n_bt =
    (bool_decide (0 < n_bc ∨ 0 < n_bt), bool_decide (0 < n_bt)).
Proof.
  unfold background_options.
  destruct n_bc as [|n]; destruct n_bt as [|n'];
    rewrite ?Nat.iter_succ; cbn [Nat.iter nat_rect];
    f_equal; symmetry;
    first [apply bool_decide_eq_true; lia|apply bool_decide_eq_false; lia].
Qed.

Lemma setup_contexts_threads (getOrCreateCompileContext : nat → bool)
    (numProcessors : Z) (l : list nat) (st : list (nat * Z) * Z) :
  st.2 = Z.of_nat (length st.1) →
  let st' :=
    foldl (setup_context getOrCreateCompileContext true numProcessors) st l in
  st'.1.*1 = st.1.*1 ++ filter (λ i, getOrCreateCompileContext i = true) l ∧
  st'.2 = Z.of_nat (length st'.1) ∧
  (∀ k i a, st'.1 !! k = Some (i, a) →
     st.1 !! k = Some (i, a) ∨
     (length st.1 ≤ k ∧ a = Z.rem (Z.of_nat k) numProcessors)).
Proof.
  revert st. induction l as [|x l IH]; intros st Hst.
  - cbn. rewrite (right_id_L [] (++)). split_and!; auto.
  - assert (Hstep :
      setup_context getOrCreateCompileContext true numProcessors st x =
        if getOrCreateCompileContext x
        then (st.1 ++ [(x, Z.rem st.2 numProcessors)], (st.2 + 1)%Z)
        else st)
      by (unfold setup_context; by rewrite andb_true_r).
    cbn [foldl]. rewrite Hstep, filter_cons. clear Hstep.
    destruct (getOrCreateCompileContext x) eqn:Hx.
    + rewrite decide_True by done.
      destruct (IH (st.1 ++ [(x, Z.rem st.2 numProcessors)], (st.2 + 1)%Z))
        as (Hids & Hnum & Haff).
      { cbn. rewrite length_app. cbn. lia. }
      cbn [fst snd] in *. split_and!.
      * rewrite Hids, fmap_app. cbn. by rewrite <- app_assoc.
      * done.
      * intros k i a Hk. destruct (Haff k i a Hk) as [Hold|[Hlen ->]].
        -- apply lookup_snoc_Some in Hold as [[_ ?]|[-> [= <- <-]]];
             [by left|right].
           split; [done|]. by rewrite Hst.
        -- right. rewrite length_app in Hlen. cbn in Hlen. split; [lia|done].
    + rewrite decide_False by congruence. by apply IH.
Qed.

Lemma setup_contexts_no_threads (getOrCreateCompileContext : nat → bool)
    (numProcessors : Z) (l : list nat) (st : list (nat * Z) * Z) :
  foldl (setup_context getOrCreateCompileContext false numProcessors) st l =
    st.
Proof.
  induction l as [|x l IH]; [done|].
  cbn [foldl]. unfold setup_context at 2. by rewrite andb_false_r.
Qed.

Lemma load_files_no_threads (readNodeFile : string → option Node)
    (l : list string) (st : Loading) :
  queues (foldl (load_file readNodeFile []) st l) = queues st ∧
  requiresBarrier (foldl (load_file readNodeFile []) st l) =
    requiresBarrier st.
Proof.
  revert st. induction l as [|x l IH]; intros st; [done|].
  cbn [foldl]. destruct (IH (load_file readNodeFile [] st x)) as [-> ->].
  unfold load_file. by destruct (readNodeFile x).
Qed.

(** X25: [main] starts a compile graphics thread only with [--bt], then one
    for every context id up to [getMaxContextID()] that gets a compile
    context, by increasing id; the k-th thread started is bound to
    processor [k mod numProcessors]; and without [--bt] (also with [--bc]
    alone) [operator()] finds no thread, queues nothing and needs no
    barrier. *)
Theorem compile_threads_started_round_robin (n_bc n_bt : nat)
    (getMaxContextID : nat) (getOrCreateCompileContext : nat → bool)
    (numProcessors : Z) :
  (0 < numProcessors)%Z →
  let started :=
    setup_compile_contexts (background_options n_bc n_bt) getMaxContextID
      getOrCreateCompileContext numProcessors in
  (n_bt = 0 → started = []) ∧
  (0 < n_bt →
     started.*1 = compile_threads getMaxContextID getOrCreateCompileContext) ∧
  (∀ k i a, started !! k = Some (i, a) →
     a = (Z.of_nat k mod numProcessors)%Z ∧ (0 ≤ a < numProcessors)%Z) ∧
  (n_bt = 0 →
   ∀ readNodeFile newFiles qs,
     let loading :=
       load_new_files readNodeFile
         (compile_threads getMaxContextID
            (λ i, bool_decide (i ∈ started.*1)))
         newFiles qs in
     requiresBarrier loading = false ∧ queues loading = qs).
Proof.
  intros Hpos started.
  assert (Hnone : n_bt = 0 → started = []).
  { intros ->. subst started. unfold setup_compile_contexts.
    rewrite background_options_spec. cbn [fst snd].
    rewrite (bool_decide_eq_false_2 (0 < 0)) by lia.
    destruct (bool_decide (0 < n_bc ∨ 0 < 0)); [|done].
    by rewrite setup_contexts_no_threads. }
  assert (Hsome : 0 < n_bt →
            started =
              (foldl (setup_context getOrCreateCompileContext true
                        numProcessors)
                 ([], 0%Z) (seq 0 (S getMaxContextID))).1).
  { intros Hbt. subst started. unfold setup_compile_contexts.
    rewrite background_options_spec. cbn [fst snd].
    rewrite (bool_decide_eq_true_2 (0 < n_bt)) by done.
    by rewrite bool_decide_eq_true_2 by auto. }
  split_and!.
  - done.
  - intros Hbt. rewrite (Hsome Hbt).
    destruct (setup_contexts_threads getOrCreateCompileContext numProcessors
                (seq 0 (S getMaxContextID)) ([], 0%Z) eq_refl)
      as (Hids & _ & _).
    by rewrite Hids.
  - intros k i a Hk. destruct n_bt as [|n].
    + by rewrite Hnone in Hk.
    + rewrite Hsome in Hk by lia.
      destruct (setup_contexts_threads getOrCreateCompileContext
                  numProcessors (seq 0 (S getMaxContextID)) ([], 0%Z)
                  eq_refl) as (_ & _ & Haff).
      destruct (Haff k i a Hk) as [Hold|[_ ->]]; [done|].
      rewrite Z.rem_mod_nonneg by lia.
      split; [done|]. apply Z.mod_pos_bound. lia.
  - intros Hbt readNodeFile newFiles qs. rewrite (Hnone Hbt). cbn zeta.
    assert (Hthreads :
      compile_threads getMaxContextID
        (λ i, bool_decide (i ∈ ([] : list (nat * Z)).*1)) = []).
    { destruct (compile_threads getMaxContextID
                  (λ i, bool_decide (i ∈ ([] : list (nat * Z)).*1)))
        as [|gt l] eqn:Hl; [done|].
      assert (Hin : gt ∈ compile_threads getMaxContextID
                (λ i, bool_decide (i ∈ ([] : list (nat * Z)).*1)))
        by (rewrite Hl; left).
      apply elem_of_compile_threads in Hin as [_ Hin].
      apply bool_decide_eq_true in Hin. by apply elem_of_nil in Hin. }
    rewrite Hthreads. unfold load_new_files.
    destruct (load_files_no_threads readNodeFile (files_in_order newFiles)
                {| nodesToAdd := ∅; queues := qs; requiresBarrier := false;
                   readNodeFile_calls := [] |}) as [-> ->].
    done.
Qed.

(** ** The properties at work on the run *)

Lemma readMasterFile_with_entry_witness :
  parsed_entries (field_ops := word_fields) ["file"; "b.osg"]%string ≠ [] ∧
  readMasterFile (field_ops := word_fields) false
    (Some ["file"; "b.osg"]%string) ∅ =
    (true,
     list_to_set
       (parsed_entries (field_ops := word_fields) ["file"; "b.osg"]%string)
     ∪ ∅).
Proof.
  assert (Hne : parsed_entries (field_ops := word_fields)
                  ["file"; "b.osg"]%string ≠ []) by by vm_compute.
  split; [exact Hne|].
  exact (proj1 (readMasterFile_with_entry (field_ops := word_fields) false
                  ["file"; "b.osg"]%string ∅ Hne)).
Defined.

Lemma demo_merged_nodes :
  ∀ n,
    n ∈ [1] ↔ ∃ f, _existingFilenameNodeMap demo_merged !! f = Some n.
Proof.
  intros n. unfold demo_merged. cbn [_existingFilenameNodeMap]. split.
  - intros ->%list_elem_of_singleton. exists "b.osg"%string.
    apply lookup_singleton_eq.
  - intros [f [_ <-]%lookup_singleton_Some]. by apply list_elem_of_singleton.
Qed.

Lemma demo_merged_one_key :
  one_key_per_node (_existingFilenameNodeMap demo_merged).
Proof.
  intros f g n. unfold demo_merged. cbn [_existingFilenameNodeMap].
  by intros [<- _]%lookup_singleton_Some [<- _]%lookup_singleton_Some.
Qed.

Lemma empty_master_file_unloads_all_witness :
  (readMasterFile (field_ops := word_fields) false None ∅).2 = ∅ ∧
  update ([0] ++ [1])
    (hand_off
       (find_removed_files (_existingFilenameNodeMap demo_merged)
          (readMasterFile (field_ops := word_fields) false None ∅).2)
       ∅ demo_merged) =
    ([0], new_MasterOperation).
Proof.
  split; [reflexivity|].
  refine (proj2 (proj2 (proj2
    (empty_master_file_unloads_all (field_ops := word_fields) false None
       [0] [1] demo_merged eq_refl _ _ demo_merged_nodes
       demo_merged_one_key)))).
  - apply NoDup_singleton.
  - intros n ->%list_elem_of_singleton [=]%list_elem_of_singleton.
Defined.

Lemma mutex_held_inside_scoped_locks_witness :
  reachable (field_ops := word_fields) demo_children demo_diff_locked ∧
  (_mutex demo_diff_locked = Some OperationThread ↔
     operator_locked (operatorPc demo_diff_locked) = true).
Proof.
  split; [exact demo_diff_locked_reachable|].
  exact (proj1 (mutex_held_inside_scoped_locks (field_ops := word_fields)
                  demo_children demo_diff_locked
                  demo_diff_locked_reachable)).
Defined.

Lemma update_idempotent_witness :
  step (field_ops := word_fields) demo_blocked L_lock_update
    demo_update_locked ∧
  step (field_ops := word_fields) demo_update_locked L_update demo_updated ∧
  operatorPc demo_updated = release_block (operatorPc demo_blocked).
Proof.
  assert (Hlock : step (field_ops := word_fields) demo_blocked L_lock_update
                    demo_update_locked)
    by (apply (step_lock_update demo_blocked); reflexivity).
  assert (Hupdate : step (field_ops := word_fields) demo_update_locked
                      L_update demo_updated)
    by (apply (step_update demo_update_locked); reflexivity).
  split; [exact Hlock|]. split; [exact Hupdate|].
  exact (proj1 (proj2 (proj2
    (update_idempotent (field_ops := word_fields) demo_blocked
       demo_update_locked demo_updated Hlock Hupdate)))).
Defined.

Lemma each_member_has_its_writers_witness :
  step (field_ops := word_fields) demo_opened L_release demo_cancelled ∧
  (L_release ≠ L_update →
     scene demo_cancelled = scene demo_opened ∧
     _existingFilenameNodeMap (mo demo_cancelled) =
       _existingFilenameNodeMap (mo demo_opened)).
Proof.
  assert (Hstep : step (field_ops := word_fields) demo_opened L_release
                    demo_cancelled)
    by apply (step_release demo_opened).
  split; [exact Hstep|].
  exact (proj1 (each_member_has_its_writers (field_ops := word_fields)
                  demo_opened demo_cancelled L_release Hstep)).
Defined.

Lemma cancelled_thread_comes_to_rest_witness :
  run (field_ops := word_fields) demo_cancelled [L_lock_update]
    (set_updatePc UpdateLocked
       (set_mutex (Some MainThread) demo_cancelled)) ∧
  done demo_cancelled = true ∧
  L_read ∉ [L_lock_update].
Proof.
  assert (Hrun : run (field_ops := word_fields) demo_cancelled
                   [L_lock_update]
                   (set_updatePc UpdateLocked
                      (set_mutex (Some MainThread) demo_cancelled))).
  { eapply run_cons; [|apply run_nil].
    apply (step_lock_update demo_cancelled); reflexivity. }
  split; [exact Hrun|]. split; [reflexivity|].
  exact (proj1 (proj2
    (cancelled_thread_comes_to_rest (field_ops := word_fields) _ _ _ Hrun
       eq_refl))).
Defined.

Lemma update_guards_never_fail_witness :
  reachable (field_ops := word_fields) demo_children demo_blocked ∧
  (∀ f n, _nodesToAdd (mo demo_blocked) !! f = Some n →
          _existingFilenameNodeMap (mo demo_blocked) !! f = None ∧
          n ∉ scene demo_blocked).
Proof.
  split; [exact demo_blocked_reachable|].
  exact (proj1 (proj2
    (update_guards_never_fail (field_ops := word_fields) demo_children
       demo_blocked demo_blocked_reachable))).
Defined.

Lemma blocked_thread_released_by_update_witness :
  reachable (field_ops := word_fields) demo_children demo_blocked ∧
  operatorPc demo_blocked = InBlock ∧
  ∃ s',
    rtc (steps (field_ops := word_fields)) demo_blocked s' ∧
    operatorPc s' = AtStart ∧
    pending_empty s' ∧
    done s' = done demo_blocked ∧
    (scene s', mo s') = update (scene demo_blocked) (mo demo_blocked).
Proof.
  split; [exact demo_blocked_reachable|].
  split; [reflexivity|].
  exact (blocked_thread_released_by_update (field_ops := word_fields)
           demo_children demo_blocked demo_blocked_reachable eq_refl).
Defined.

Lemma scene_has_one_child_per_loaded_file_witness :
  reachable (field_ops := word_fields) demo_children demo_updated ∧
  length (scene demo_updated) =
    length demo_children +
    size (_existingFilenameNodeMap (mo demo_updated)).
Proof.
  split; [exact demo_updated_reachable|].
  exact (proj1 (scene_has_one_child_per_loaded_file
                  (field_ops := word_fields) demo_children demo_updated
                  demo_updated_reachable)).
Defined.

Lemma demo_startup :
  startup (field_ops := word_fields) false [demo_master] demo_readNodeFile 0
    new_LayerLoop =
  SceneData [1] None
    (Some (open (field_ops := word_fields) false demo_master
             demo_readNodeFile [] new_MasterOperation).2)
    true.
Proof. reflexivity. Qed.

Lemma startup_is_an_initial_state_witness :
  last [demo_master] = Some demo_master ∧
  initial (field_ops := word_fields) []
    {| mo := (open (field_ops := word_fields) false demo_master
                demo_readNodeFile [] new_MasterOperation).2;
       _mutex := None;
       _barrier := None;
       scene := [1];
       operatorPc := AtStart;
       updatePc := OutsideUpdate;
       done := false;
       threadQueues := ∅;
       inBarrier := ∅;
       barriers := ∅;
       compiled := ∅;
       allocated :=
         list_to_set [] ∪
         new_nodes
           (readMasterFile (field_ops := word_fields) false demo_master ∅).2
           demo_readNodeFile |}.
Proof.
  split; [reflexivity|].
  refine (proj1 (proj2
    (startup_is_an_initial_state (field_ops := word_fields) false
       [demo_master] demo_master demo_readNodeFile 0 new_LayerLoop [1] None
       (open (field_ops := word_fields) false demo_master
          demo_readNodeFile [] new_MasterOperation).2
       true eq_refl demo_startup _))).
  apply demo_loads_new_nodes. apply not_elem_of_empty.
Defined.

Lemma compile_threads_started_round_robin_witness :
  (0 < 2)%Z ∧
  (setup_compile_contexts (background_options 0 1) 2 (λ _, true) 2).*1 =
    compile_threads 2 (λ _, true).
Proof.
  assert (Hpos : (0 < 2)%Z) by reflexivity.
  split; [exact Hpos|].
  refine (proj1 (proj2
    (compile_threads_started_round_robin 0 1 2 (λ _, true) 2 Hpos)) _).
  apply Nat.lt_0_1.
Defined.

(** With [--bt], three contexts and two processors the threads are bound
    to processors 0, 1 and 0 again. *)
Example setup_compile_contexts_three :
  setup_compile_contexts (background_options 0 1) 2 (λ _, true) 2 =
    [(0, 0%Z); (1, 1%Z); (2, 0%Z)].
Proof. reflexivity. Qed.

Lemma barrier_wait_can_end_witness :
  reachable (field_ops := word_fields) demo_children demo_in_barrier ∧
  ∃ s',
    rtc (steps (field_ops := word_fields)) demo_in_barrier s' ∧
    operatorPc s' =
      AfterLoad demo_removedFiles (nodesToAdd demo_compiling)
        (compile_threads 0 (λ _, true)) ∧
    mo s' = mo demo_in_barrier ∧ scene s' = scene demo_in_barrier ∧
    done s' = done demo_in_barrier ∧
    (∀ gt f n, gt ∈ compile_threads 0 (λ _, true) →
               nodesToAdd demo_compiling !! f = Some n →
               (gt, n) ∈ compiled s').
Proof.
  split; [exact demo_in_barrier_reachable|].
  exact (barrier_wait_can_end (field_ops := word_fields) demo_children
           demo_in_barrier demo_removedFiles (nodesToAdd demo_compiling)
           (compile_threads 0 (λ _, true)) 0 demo_in_barrier_reachable
           eq_refl).
Defined.

Lemma operation_thread_never_stuck_witness :
  reachable (field_ops := word_fields) demo_children demo_in_barrier ∧
  ∃ s',
    rtc (steps (field_ops := word_fields)) demo_in_barrier s' ∧
    operatorPc s' = AtStart.
Proof.
  split; [exact demo_in_barrier_reachable|].
  exact (operation_thread_never_stuck (field_ops := word_fields)
           demo_children demo_in_barrier demo_in_barrier_reachable).
Defined.
